(** * Elastic-retrieval preemption core and queue ordering

    A shallow embedding of the scheduler's preemption evaluator
    (package [preemption]) and of the queue-sort plugin (package
    [queuesort]), with the properties of the specification stated over it.

    Conventions of the embedding:
    - Go integers are [Z]; arithmetic that can overflow is wrapped with
      [wrap32] / [wrap64] where the source computes on [int32] / [int64].
    - [float64] is Rocq's primitive binary64 float.
    - A run-time panic (index out of range, nil dereference) and a fatal
      log are the result [None].
    - Maps ([map[string]string], [map[string][]float64], the untyped job
      document) are [gmap]s; slices are lists.
    - The cluster reached through the client set is an explicit value; the
      elastic-job store updated by the dynamic client, and the pods handed to
      the retraction helper, are threaded through a state-and-failure
      monad. *)

From Stdlib Require Import ZArith String Ascii Lia.
From Stdlib Require Import DecimalString.
From Stdlib Require Import PrimFloat SpecFloat FloatOps.
From stdpp Require Import gmap strings list fin_maps sorting.

Set Warnings "-inexact-float".
Local Open Scope Z_scope.

(** ** The Go runtime and standard library, as far as the code uses it *)

Module GoLib.

Definition MinInt64 : Z := - 2 ^ 63.
Definition MaxInt64 : Z := 2 ^ 63 - 1.
Definition MaxInt32 : Z := 2 ^ 31 - 1.

(** Two's-complement wrap-around of [int32] and [int64] arithmetic. *)
Definition wrap32 (z : Z) : Z := (z + 2 ^ 31) mod 2 ^ 32 - 2 ^ 31.
Definition wrap64 (z : Z) : Z := (z + 2 ^ 63) mod 2 ^ 64 - 2 ^ 63.

(** [s[i]]: indexing panics outside [0, len s). *)
Definition index {A} (s : list A) (i : Z) : option A :=
  if i <? 0 then None else s !! Z.to_nat i.

(** [s[:n]]: slicing panics unless [0 <= n <= len s]. *)
Definition slice_to {A} (s : list A) (n : Z) : option (list A) :=
  if (0 <=? n) && (n <=? Z.of_nat (length s))
  then Some (take (Z.to_nat n) s) else None.

(** [strings.Split(s, sep)] for a one-character separator: the fields
    between the separators, at least one (possibly empty) field. *)
Fixpoint Split (s : string) (sep : ascii) : list string :=
  match s with
  | EmptyString => [EmptyString]
  | String c s' =>
      if Ascii.eqb c sep then EmptyString :: Split s' sep
      else match Split s' sep with
           | [] => [String c EmptyString]
           | w :: ws => String c w :: ws
           end
  end.

(** [strings.Join(elems, sep)]. *)
Definition Join (elems : list string) (sep : string) : string :=
  String.concat sep elems.

(** [strconv.Itoa]. *)
Definition Itoa (z : Z) : string := NilEmpty.string_of_int (Z.to_int z).

(** [strconv.Atoi] with its error dropped, as every caller does: an
    optional sign and decimal digits; [0] on a syntax error, the nearest
    bound on a range error. *)
Definition Atoi (s : string) : Z :=
  let '(neg, body) :=
    match s with
    | String "-"%char r => (true, r)
    | String "+"%char r => (false, r)
    | _ => (false, s)
    end in
  match NilEmpty.uint_of_string body with
  | Some d =>
      let v := if neg then - Z.of_uint d else Z.of_uint d in
      Z.max MinInt64 (Z.min MaxInt64 v)
  | None => 0
  end.

(** [int(x)] of a [float64]: truncation toward zero.  Outside the range
    of [int64] (and for NaN and the infinities) Go leaves the result to
    the implementation; amd64 produces the smallest integer. *)
Definition float_to_int (x : float) : Z :=
  match Prim2SF x with
  | S754_zero _ => 0
  | S754_finite s m e =>
      let v := if 0 <=? e then Z.pos m * 2 ^ e else Z.pos m / 2 ^ (- e) in
      let v := if s then - v else v in
      if (MinInt64 <=? v) && (v <=? MaxInt64) then v else MinInt64
  | _ => MinInt64
  end.

(** [time.Time] as the instant it denotes, in nanoseconds since the Unix
    epoch; [Before] compares instants. *)
Definition Time : Type := Z.
Definition Before (t u : Time) : bool := t <? u.

(** The zero [time.Time{}], January 1 of year 1, which [time.Parse]
    returns together with its error. *)
Definition zeroTime : Time := - 62135596800 * 10 ^ 9.

(** [t.UnixNano()]. *)
Definition UnixNano (t : Time) : Z := wrap64 t.

(** A reader for the UTC form [YYYY-MM-DDTHH:MM:SSZ] of RFC 3339, used
    to instantiate [time.Parse] in the worked scenarios.  The development
    itself is parametric in the parser. *)
Definition digit (c : ascii) : option Z :=
  let n := Z.of_N (N_of_ascii c) in
  if (48 <=? n) && (n <=? 57) then Some (n - 48) else None.

Fixpoint digits (cs : list ascii) (acc : Z) : option Z :=
  match cs with
  | [] => Some acc
  | c :: cs' => match digit c with
                | Some d => digits cs' (10 * acc + d)
                | None => None
                end
  end.

Definition days_from_civil (y m d : Z) : Z :=
  let y' := if m <=? 2 then y - 1 else y in
  let era := y' / 400 in
  let yoe := y' - era * 400 in
  let mp := (m + 9) mod 12 in
  let doy := (153 * mp + 2) / 5 + d - 1 in
  let doe := yoe * 365 + yoe / 4 - yoe / 100 + doy in
  era * 146097 + doe - 719468.

Definition parseUTC (s : string) : option Time :=
  match list_ascii_of_string s with
  | [y1; y2; y3; y4; "-"; m1; m2; "-"; d1; d2; "T";
     h1; h2; ":"; n1; n2; ":"; s1; s2; "Z"]%char =>
      match digits [y1; y2; y3; y4] 0, digits [m1; m2] 0, digits [d1; d2] 0,
            digits [h1; h2] 0, digits [n1; n2] 0, digits [s1; s2] 0 with
      | Some y, Some m, Some d, Some h, Some n, Some sec =>
          if (1 <=? m) && (m <=? 12) && (1 <=? d) && (d <=? 31)
             && (h <=? 23) && (n <=? 59) && (sec <=? 59)
          then Some ((days_from_civil y m d * 86400
                      + h * 3600 + n * 60 + sec) * 10 ^ 9)
          else None
      | _, _, _, _, _, _ => None
      end
  | _ => None
  end.

End GoLib.

(** ** The API objects the code reads *)

Module API.
Import GoLib.

(** A container's resource requests, by resource name; the value is what
    [Quantity.Value()] returns. *)
Record Container := { Requests : gmap string Z }.

Record Pod := {
  Name : string;
  Namespace : string;
  Annotations : gmap string string;
  CreationTimestamp : Time;
  (** [Spec.Priority], a pointer to an [int32]. *)
  Priority : option Z;
  Containers : list Container;
}.

Record Node := {
  NodeName : string;
  Capacity : gmap string Z;
}.

(** What the client set answers: the node list, and for a node name the
    pods selected by [spec.nodeName=<name>]; [None] is a failed call. *)
Record ClientSet := {
  ListNodes : option (list Node);
  ListPods : string -> option (list Pod);
}.

(** Modelled from the spec: [corev1helpers.PodPriority], which is not
    part of the sources at hand; a workload carries a signed integer
    priority, taken as [0] when the field is unset. *)
Definition PodPriority (p : Pod) : Z := default 0 (Priority p).

(** [framework.QueuedPodInfo]: the pod and the time it entered the
    queue. *)
Record QueuedPodInfo := {
  QPod : Pod;
  Timestamp : Time;
}.

End API.

(** ** Package queuesort: the [PrioritySort] plugin *)

Module QueueSort.
Import GoLib API.

(** The plugin: its one field is the client, an interface value; [None]
    is the nil interface. *)
Record PrioritySort := { client : option ClientSet }.

(** [New] returns [&PrioritySort{}]: the client is left nil, and nothing
    else in the package sets it. *)
Definition New : PrioritySort := {| client := None |}.

Section WithParser.
(** [time.Parse(time.RFC3339, _)]; [None] is a parse error. *)
Variable time_Parse : string -> option Time.

Definition checkMPIJob (podName : string) : option (string * bool) :=
  let podNameSlice := Split podName "-" in
  let n := Z.of_nat (length podNameSlice) in
  last1 ← index podNameSlice (n - 1);
  if String.eqb last1 "launcher" then
    Some (Join (take (Z.to_nat (n - 1)) podNameSlice) "-", true)
  else
    last2 ← index podNameSlice (n - 2);
    if String.eqb last2 "worker" then
      Some (Join (take (Z.to_nat (n - 2)) podNameSlice) "-", true)
    else Some (EmptyString, false).

(** The inner loop of [isMPIJobInNode] over the pods of one node:
    [Some true] is the early [return true]. *)
Fixpoint jobAmongPods (MPIJobName : string) (pods : list Pod)
  : option bool :=
  match pods with
  | [] => Some false
  | pod :: rest =>
      if negb (String.eqb (Namespace pod) "my-ns") then
        jobAmongPods MPIJobName rest
      else
        '(runningPodIdx, isRunningPodMPIJob) ← checkMPIJob (Name pod);
        if isRunningPodMPIJob && String.eqb runningPodIdx MPIJobName
        then Some true
        else jobAmongPods MPIJobName rest
  end.

Fixpoint jobAmongNodes (client : ClientSet) (MPIJobName : string)
  (nodes : list Node) : option bool :=
  match nodes with
  | [] => Some false
  | node :: rest =>
      match ListPods client (NodeName node) with
      | None => jobAmongNodes client MPIJobName rest
      | Some pods =>
          found ← jobAmongPods MPIJobName pods;
          if found : bool then Some true
          else jobAmongNodes client MPIJobName rest
      end
  end.

(** [pl.client.CoreV1()] is a method call on the interface value: on
    the nil interface it panics, before any listing. *)
Definition isMPIJobInNode (pl : PrioritySort) (MPIJobName : string)
  : option bool :=
  clientset ← client pl;
  match ListNodes clientset with
  | None => Some false
  | Some nodes => jobAmongNodes clientset MPIJobName nodes
  end.

(** [time.Parse] with its error dropped: the zero time on failure. *)
Definition parseOrZero (s : string) : Time :=
  default zeroTime (time_Parse s).

(** The tail of [Less], after the residency test. *)
Definition lessByPriorityAndTime (pInfo1 pInfo2 : QueuedPodInfo) : bool :=
  let p1 := PodPriority (QPod pInfo1) in
  let p2 := PodPriority (QPod pInfo2) in
  match Annotations (QPod pInfo1) !! "retract-check-var" with
  | Some a1 =>
      match Annotations (QPod pInfo2) !! "retract-check-var" with
      | Some a2 =>
          let p1Timestamp := parseOrZero a1 in
          let p2Timestamp := parseOrZero a2 in
          (p2 <? p1) || ((p1 =? p2) && Before p1Timestamp p2Timestamp)
      | None =>
          let p1Timestamp := parseOrZero a1 in
          (p2 <? p1) || ((p1 =? p2) && Before p1Timestamp (Timestamp pInfo2))
      end
  | None =>
      match Annotations (QPod pInfo2) !! "retract-check-var" with
      | Some a2 =>
          let p2Timestamp := parseOrZero a2 in
          (p2 <? p1) || ((p1 =? p2) && Before (Timestamp pInfo1) p2Timestamp)
      | None =>
          (p2 <? p1)
          || ((p1 =? p2) && Before (Timestamp pInfo1) (Timestamp pInfo2))
      end
  end.

Definition Less (pl : PrioritySort) (pInfo1 pInfo2 : QueuedPodInfo)
  : option bool :=
  '(p1MPIJobName, isP1MPIJob) ← checkMPIJob (Name (QPod pInfo1));
  '(p2MPIJobName, isP2MPIJob) ← checkMPIJob (Name (QPod pInfo2));
  let rest := Some (lessByPriorityAndTime pInfo1 pInfo2) in
  if negb (Bool.eqb isP1MPIJob isP2MPIJob) then
    if isP1MPIJob then
      inNode ← isMPIJobInNode pl p1MPIJobName;
      if inNode : bool then Some true else rest
    else
      (* here isP2MPIJob holds *)
      inNode ← isMPIJobInNode pl p2MPIJobName;
      if inNode : bool then Some false else rest
  else rest.

(** The timestamp [Less] compares at equal priority. *)
Definition queueTimestamp (pInfo : QueuedPodInfo) : Time :=
  match Annotations (QPod pInfo) !! "retract-check-var" with
  | Some a => parseOrZero a
  | None => Timestamp pInfo
  end.

(** Neither pod is ordered before the other, and both comparisons
    return. *)
Definition incomparable (pl : PrioritySort) (a b : QueuedPodInfo) : Prop :=
  Less pl a b = Some false ∧ Less pl b a = Some false.

End WithParser.

End QueueSort.

(** ** Package preemption: the evaluator *)

Module Preemption.
Import GoLib API.

(** *** Candidates and the bounded candidate list *)

(** [extenderv1.Victims]. *)
Record Victims := {
  Pods : list Pod;
  NumPDBViolations : Z;
}.

Record candidate := {
  victims : Victims;
  name : string;
}.

(** [items] holds interface values; [None] is the nil a fresh array is
    filled with. *)
Record candidateList := {
  idx : Z;
  items : list (option candidate);
}.

(** [make] panics on a negative size. *)
Definition newCandidateList (size : Z) : option candidateList :=
  if size <? 0 then None
  else Some {| idx := -1; items := replicate (Z.to_nat size) None |}.

(** [add]: the counter is incremented atomically, so concurrent calls
    act one after the other. *)
Definition candidateList_add (cl : candidateList) (c : candidate)
  : option candidateList :=
  let i := wrap32 (idx cl + 1) in
  if i <? wrap32 (Z.of_nat (length (items cl))) then
    if i <? 0 then None
    else Some {| idx := i; items := <[Z.to_nat i := Some c]> (items cl) |}
  else Some {| idx := i; items := items cl |}.

Definition candidateList_size (cl : candidateList) : Z :=
  let n := wrap32 (idx cl + 1) in
  let len := wrap32 (Z.of_nat (length (items cl))) in
  if len <=? n then len else n.

Definition candidateList_get (cl : candidateList)
  : option (list (option candidate)) :=
  slice_to (items cl) (candidateList_size cl).

(** *** Statuses and results handed back to the framework *)

Inductive Code :=
| Success | Error | Unschedulable | UnschedulableAndUnresolvable.

Record Status := { code : Code; reasons : list string }.

Definition NewStatus (c : Code) (rs : list string) : Status :=
  {| code := c; reasons := rs |}.

Definition IsSuccess (s : Status) : bool :=
  match code s with Success => true | _ => false end.

Record PostFilterResult := { NominatedNodeName : string }.

Definition NewPostFilterResultWithNominatedNode (n : string)
  : PostFilterResult := {| NominatedNodeName := n |}.

(** *** The elastic-job store and the effects of a call *)

(** The two paths of the untyped job document the code touches:
    [spec.mpiReplicaSpecs.Worker.replicas] and [metadata.annotations];
    [None] is a path that is not found. *)
Record MPIJob := {
  replicas : option Z;
  annotations : option (gmap string string);
}.

(** What a call can change: the job objects kept by the API server, by
    namespace and name, and the pods handed to [util.RetractPod], in
    order. *)
Record World := {
  mpijobs : gmap (string * string) MPIJob;
  retracted : list Pod;
}.

(** A computation over the world that may panic; the effects made before
    a panic stay. *)
Definition M (A : Type) : Type := World → option A * World.

Definition ret {A} (a : A) : M A := λ w, (Some a, w).
Definition bind {A B} (m : M A) (k : A → M B) : M B :=
  λ w, match m w with
       | (Some a, w') => k a w'
       | (None, w') => (None, w')
       end.
Definition panic {A} : M A := λ w, (None, w).
Definition lift {A} (o : option A) : M A := λ w, (o, w).

Notation "'let*' x := m 'in' k" := (bind m (λ x, k))
  (at level 10, x pattern, m at level 100, k at level 200).
Notation "'run' m 'then' k" := (bind m (λ _, k))
  (at level 10, m at level 100, k at level 200).

(** [GetMPIJob]: what the dynamic client returns for the name; [None]
    is the nil object that comes with an error. *)
Definition GetMPIJob (ns MPIJobName : string) : M (option MPIJob) :=
  λ w, (Some (mpijobs w !! (ns, MPIJobName)), w).

(** Modelled from the spec: [util.RetractPod], which is not part of the
    sources at hand; retraction is a soft eviction that returns the
    workload to the pending queue, recorded here as one more retracted
    pod. *)
Definition RetractPod (pod : Pod) : M unit :=
  λ w, (Some tt, {| mpijobs := mpijobs w; retracted := retracted w ++ [pod] |}).

(** [MPIJobScaling]: read the job, add [scaleNum] to the replicas, on a
    scale-up extend the [scale-out] annotation, write the job back.
    Dereferencing the nil object of a failed read panics.  The write of
    an object just read is taken to succeed. *)
Definition MPIJobScaling (ns MPIJobName : string) (scaleNum : Z) : M unit :=
  λ w,
    match mpijobs w !! (ns, MPIJobName) with
    | None => (None, w)
    | Some job =>
        let nowGPUcount := default 0 (replicas job) in
        let replicas' := Some (wrap64 (nowGPUcount + scaleNum)) in
        let annotations' :=
          if 0 <? scaleNum then
            match annotations job with
            | None => Some {[ "scale-out" := Itoa scaleNum ]}
            | Some a =>
                Some (<[ "scale-out" :=
                           String.append (default EmptyString (a !! "scale-out"))
                                         (Itoa scaleNum) ]> a)
            end
          else annotations job in
        let job' := {| replicas := replicas'; annotations := annotations' |} in
        (Some tt,
         {| mpijobs := <[ (ns, MPIJobName) := job' ]> (mpijobs w);
            retracted := retracted w |})
    end.

(** *** Listings over the nodes *)

Definition Contains (slice : list string) (target : string) : bool :=
  existsb (String.eqb target) slice.

(** The last container's request decides in [Retrieve], set or not. *)
Definition lastGpuRequest (cs : list Container) : Z :=
  fold_left (λ _ container, default 0 (Requests container !! "nvidia.com/gpu"))
            cs 0.

(** The last container that sets a request decides in [Dynamic]. *)
Definition lastSetGpuRequest (cs : list Container) : Z :=
  fold_left (λ requestGPUs container,
               match Requests container !! "nvidia.com/gpu" with
               | Some gpuRequest => gpuRequest
               | None => requestGPUs
               end) cs 0.

Definition allocatedOnPod (allocatedGPUcount : Z) (pod : Pod) : Z :=
  fold_left (λ acc container,
               match Requests container !! "nvidia.com/gpu" with
               | Some gpuRequest => wrap64 (acc + gpuRequest)
               | None => acc
               end) (Containers pod) allocatedGPUcount.

Definition idleGPUsinNodes (client : ClientSet) (nodes : list Node) : Z :=
  let '(capacityGPUcount, allocatedGPUcount) :=
    fold_left
      (λ '(cap, alloc) node,
         let cap :=
           match Capacity node !! "nvidia.com/gpu" with
           | Some val => wrap64 (cap + val)
           | None => cap
           end in
         match ListPods client (NodeName node) with
         | None => (cap, alloc)
         | Some pods => (cap, fold_left allocatedOnPod pods alloc)
         end)
      nodes (0, 0) in
  wrap64 (capacityGPUcount - allocatedGPUcount).

(** One pod of [ListRunningMPIJob]. *)
Definition addRunningMPIJob (ListofRunningMPIJob : list string) (pod : Pod)
  : option (list string) :=
  let podNameSlice := Split (Name pod) "-" in
  let n := Z.of_nat (length podNameSlice) in
  if n <? 2 then Some ListofRunningMPIJob
  else
    last1 ← index podNameSlice (n - 1);
    last2 ← index podNameSlice (n - 2);
    let addJob (k : Z) :=
      let MPIJobName := Join (take (Z.to_nat k) podNameSlice) "-" in
      if Contains ListofRunningMPIJob MPIJobName then ListofRunningMPIJob
      else ListofRunningMPIJob ++ [MPIJobName] in
    if String.eqb last1 "launcher" && String.eqb last2 "elastic" then
      Some (addJob (n - 1))
    else if String.eqb last2 "worker" then
      last3 ← index podNameSlice (n - 3);
      if String.eqb last3 "elastic" then Some (addJob (n - 2))
      else Some ListofRunningMPIJob
    else Some ListofRunningMPIJob.

Fixpoint addRunningMPIJobs (acc : list string) (pods : list Pod)
  : option (list string) :=
  match pods with
  | [] => Some acc
  | pod :: rest => acc' ← addRunningMPIJob acc pod; addRunningMPIJobs acc' rest
  end.

Fixpoint listRunningFrom (client : ClientSet) (acc : list string)
  (nodes : list Node) : option (list string) :=
  match nodes with
  | [] => Some acc
  | node :: rest =>
      match ListPods client (NodeName node) with
      | None => listRunningFrom client acc rest
      | Some pods =>
          acc' ← addRunningMPIJobs acc pods; listRunningFrom client acc' rest
      end
  end.

Definition ListRunningMPIJob (client : ClientSet) (nodes : list Node)
  : option (list string) :=
  listRunningFrom client [] nodes.

(** *** The retrieval engine *)

(** [scalableModelData], the table [Dynamic] builds. *)
Definition scalableModelData : gmap string (list float) :=
  <[ "VGG16" := [4.232; 3.499; 4.61; 4.526; 5.396; 6.363]%float ]>
  (<[ "VGG19" := [3.693; 2.793; 3.6294; 4.3105; 5.2051; 5.934]%float ]>
  (<[ "inceptionv3" := [3.5; 5.495; 6.29; 8.449; 9.693; 11.262]%float ]>
  (<[ "alex-net" := [15.969; 7.496; 9.002; 10.572; 13.005; 14.708]%float ]>
  (<[ "resnet50" :=
        [6.78098; 7.777; 12.4701; 12.18717; 15.90254; 18.968]%float ]>
  (<[ "resnet101" := [4.253; 5.519; 8.863; 8.8171; 9.686; 12.904]%float ]>
     ∅))))).

(** [table[model][i]]: a missing model is the nil slice, which has no
    element to index. *)
Definition throughput (table : gmap string (list float)) (model : string)
  (i : Z) : option float :=
  index (default [] (table !! model)) i.

(** [m[key]] on a string map: the empty string for a missing key. *)
Definition annotation (m : gmap string string) (key : string) : string :=
  default EmptyString (m !! key).

(** One retrieve candidate, the four integers the source keeps in a
    slice: [kind] at position 0 (0 retract, 1 scale down), [ref] at 1
    (the index into the list the candidate was built from), [gpus] at 2
    and [cost] at 3. *)
Record retrieveCandidate := {
  kind : Z;
  ref : Z;
  gpus : Z;
  cost : Z;
}.

(** [sort.SliceStable]: a stable sort, here by insertion from the right;
    an element goes in front of the first one that is not less than it,
    so equal elements keep their order.  The result of a stable sort does
    not depend on the algorithm. *)
Fixpoint insertStable {A} (less : A → A → bool) (x : A) (l : list A)
  : list A :=
  match l with
  | [] => [x]
  | y :: l' => if less y x then y :: insertStable less x l' else x :: l
  end.

Definition SliceStable {A} (less : A → A → bool) (l : list A) : list A :=
  foldr (insertStable less) [] l.

Section WithParser.
(** [time.Parse(time.RFC3339, _)]; [None] is a parse error. *)
Variable time_Parse : string → option Time.

Definition getPodTimestamp (pod : Pod) : Time :=
  match Annotations pod !! "retract-check-var" with
  | Some timestampStr =>
      match time_Parse timestampStr with
      | Some timestamp => timestamp
      | None => CreationTimestamp pod
      end
  | None => CreationTimestamp pod
  end.

(** The pods of one node that [Retrieve] keeps. *)
Fixpoint backfilledAmong (podNow : Pod) (pods : list Pod) : list Pod :=
  match pods with
  | [] => []
  | pod :: rest =>
      let keep :=
        match Annotations pod !! "scheduling-state" with
        | Some schedStateOfPod =>
            String.eqb schedStateOfPod "backfilled"
            && Before (getPodTimestamp podNow) (getPodTimestamp pod)
        | None => false
        end in
      if keep then pod :: backfilledAmong podNow rest
      else backfilledAmong podNow rest
  end.

Fixpoint gatherBackfilled (client : ClientSet) (podNow : Pod)
  (nodes : list Node) : list Pod :=
  match nodes with
  | [] => []
  | node :: rest =>
      match ListPods client (NodeName node) with
      | None => gatherBackfilled client podNow rest
      | Some pods =>
          backfilledAmong podNow pods ++ gatherBackfilled client podNow rest
      end
  end.

(** The running jobs that carry a [scale-out] annotation. *)
Fixpoint gatherScaleOut (runningMPIJobs : list string)
  : M (list MPIJob) :=
  match runningMPIJobs with
  | [] => ret []
  | MPIJobName :: rest =>
      let* got := GetMPIJob "my-ns" MPIJobName in
      let* MPIJob := lift got in
      let annotations := default ∅ (annotations MPIJob) in
      let* more := gatherScaleOut rest in
      match annotations !! "scale-out" with
      | Some _ => ret (MPIJob :: more)
      | None => ret more
      end
  end.

Definition backfilledInfo (table : gmap string (list float))
  (i : Z) (pod : Pod) : option retrieveCandidate :=
  let gpuRequest := lastGpuRequest (Containers pod) in
  t ← throughput table (annotation (Annotations pod) "model-name") gpuRequest;
  Some {| kind := 0; ref := i; gpus := gpuRequest; cost := float_to_int t |}.

Definition scaleInfo (table : gmap string (list float))
  (i : Z) (job : MPIJob) : option retrieveCandidate :=
  replicas ← replicas job;
  let annotations := default ∅ (annotations job) in
  let scaleOutGpus := Atoi (annotation annotations "scale-out") in
  let model := annotation annotations "model-name" in
  s1 ← throughput table model replicas;
  s2 ← throughput table model (wrap64 (replicas - scaleOutGpus));
  Some {| kind := 1; ref := i; gpus := scaleOutGpus;
          cost := float_to_int (s1 - s2)%float |}.

(** [for i := 0; i < len(xs); i++ { ... append ... }]. *)
Fixpoint numbered {A} (info : Z → A → option retrieveCandidate)
  (i : Z) (xs : list A) : option (list retrieveCandidate) :=
  match xs with
  | [] => Some []
  | x :: rest =>
      c ← info i x;
      cs ← numbered info (i + 1) rest;
      Some (c :: cs)
  end.

Definition buildCandidates (table : gmap string (list float))
  (backfilledPods : list Pod) (scaleOutMPIJobs : list MPIJob)
  : option (list retrieveCandidate) :=
  fromPods ← numbered (backfilledInfo table) 0 backfilledPods;
  fromJobs ← numbered (scaleInfo table) 0 scaleOutMPIJobs;
  Some (fromPods ++ fromJobs).

(** The two stable sorts, by position 3 and then by position 2. *)
Definition sortCandidates (cs : list retrieveCandidate)
  : list retrieveCandidate :=
  SliceStable (λ a b, gpus a <? gpus b)
    (SliceStable (λ a b, cost a <? cost b) cs).

(** The first pass over the sorted candidates. *)
Fixpoint coversDeficit (needGPUsTemp : Z) (cs : list retrieveCandidate)
  : bool :=
  match cs with
  | [] => false
  | candidate :: rest =>
      let needGPUsTemp := wrap64 (needGPUsTemp - gpus candidate) in
      if needGPUsTemp <=? 0 then true else coversDeficit needGPUsTemp rest
  end.

(** What the second pass does with one candidate. *)
Definition act (backfilledPods : list Pod) (candidate : retrieveCandidate)
  : M unit :=
  if kind candidate =? 0 then
    let* pod := lift (index backfilledPods (ref candidate)) in
    RetractPod pod
  else
    MPIJobScaling "my-ns" "tensorflow-mnist-elastic"
                  (wrap64 (- gpus candidate)).

(** The second pass. *)
Fixpoint applyCandidates (backfilledPods : list Pod) (needGPUsTemp : Z)
  (cs : list retrieveCandidate) : M (bool * string) :=
  match cs with
  | [] => ret (false, EmptyString)
  | candidate :: rest =>
      run act backfilledPods candidate then
      let needGPUsTemp := wrap64 (needGPUsTemp - gpus candidate) in
      if needGPUsTemp <=? 0 then ret (true, EmptyString)
      else applyCandidates backfilledPods needGPUsTemp rest
  end.

Definition Retrieve (client : ClientSet) (podNow : Pod)
  (table : gmap string (list float)) (nodes : list Node)
  (idleGPUs requestGPUs : Z) (runningMPIJobs : list string)
  : M (bool * string) :=
  let backfilledPods := gatherBackfilled client podNow nodes in
  let* scaleOutMPIJobs := gatherScaleOut runningMPIJobs in
  let* retrieveCandidates :=
    lift (buildCandidates table backfilledPods scaleOutMPIJobs) in
  if Z.of_nat (length retrieveCandidates) =? 0 then ret (false, EmptyString)
  else
    let needGPUs := wrap64 (requestGPUs - idleGPUs) in
    let retrieveCandidates := sortCandidates retrieveCandidates in
    if negb (coversDeficit needGPUs retrieveCandidates)
    then ret (false, EmptyString)
    else applyCandidates backfilledPods needGPUs retrieveCandidates.

(** The loop of [Dynamic] over the running jobs, carrying the best job
    and its gain. *)
Fixpoint bestScaleOut (table : gmap string (list float))
  (runningMPIJobs : list string) (scaleOutMPIJobName : string)
  (maxThroughput : float) : M (string * float) :=
  match runningMPIJobs with
  | [] => ret (scaleOutMPIJobName, maxThroughput)
  | MPIJobName :: rest =>
      let* got := GetMPIJob "my-ns" MPIJobName in
      let* MPIJob := lift got in
      let annotations := default ∅ (annotations MPIJob) in
      let usingGPUs := wrap64 (default 0 (replicas MPIJob) + 1) in
      if 5 <? usingGPUs then
        bestScaleOut table rest scaleOutMPIJobName maxThroughput
      else
        let model := annotation annotations "model-name" in
        let* hi := lift (throughput table model usingGPUs) in
        let* lo := lift (throughput table model (usingGPUs - 1)) in
        if PrimFloat.ltb maxThroughput (hi - lo)%float then
          match annotations !! "scale-out" with
          | None => bestScaleOut table rest MPIJobName (hi - lo)%float
          | Some _ =>
              bestScaleOut table rest scaleOutMPIJobName maxThroughput
          end
        else bestScaleOut table rest scaleOutMPIJobName maxThroughput
  end.

(** A failed node listing is logged, and after the running jobs are listed
    the same error ends the process with a fatal log. *)
Definition Dynamic (client : ClientSet) (pod : Pod)
  : M (PostFilterResult * Status) :=
  let* nodes := lift (ListNodes client) in
  let requestGPUs := lastSetGpuRequest (Containers pod) in
  let* runningMPIJobs := lift (ListRunningMPIJob client nodes) in
  let idleGPUs := idleGPUsinNodes client nodes in
  let* (resourceRetrieve, allocatableNodeName) :=
    Retrieve client pod scalableModelData nodes idleGPUs requestGPUs
             runningMPIJobs in
  if resourceRetrieve : bool then
    ret (NewPostFilterResultWithNominatedNode allocatableNodeName,
         NewStatus Success [])
  else if idleGPUs =? 0 then
    ret (NewPostFilterResultWithNominatedNode EmptyString,
         NewStatus Unschedulable ["Nothing can do"])
  else
    let* (scaleOutMPIJobName, maxThroughput) :=
      bestScaleOut scalableModelData runningMPIJobs EmptyString 0%float in
    run (if PrimFloat.ltb 0 maxThroughput
         then MPIJobScaling "my-ns" scaleOutMPIJobName 1
         else ret tt) then
    ret (NewPostFilterResultWithNominatedNode EmptyString,
         NewStatus Unschedulable ["Scale-Out MPIJob"]).

End WithParser.

(** *** The tie-break scorer *)

Section Scorer.
(** [util.GetEarliestPodStartTime], which is not part of the sources at
    hand: the earliest start time among the highest-priority victims,
    or nil. *)
Variable GetEarliestPodStartTime : Victims → option Time.

(** The five default score functions; a node missing from the map is a
    nil pointer, and an empty victim list has no first pod. *)
Definition minNumPDBViolatingScoreFunc (nodesToVictims : gmap string Victims)
  (node : string) : option Z :=
  v ← nodesToVictims !! node;
  Some (wrap64 (- NumPDBViolations v)).

Definition minHighestPriorityScoreFunc (nodesToVictims : gmap string Victims)
  (node : string) : option Z :=
  v ← nodesToVictims !! node;
  first ← index (Pods v) 0;
  let highestPodPriority := PodPriority first in
  Some (- highestPodPriority).

Definition minSumPrioritiesScoreFunc (nodesToVictims : gmap string Victims)
  (node : string) : option Z :=
  v ← nodesToVictims !! node;
  let sumPriorities :=
    fold_left (λ sum pod, wrap64 (sum + (PodPriority pod + (MaxInt32 + 1))))
              (Pods v) 0 in
  Some (wrap64 (- sumPriorities)).

Definition minNumPodsScoreFunc (nodesToVictims : gmap string Victims)
  (node : string) : option Z :=
  v ← nodesToVictims !! node;
  Some (- Z.of_nat (length (Pods v))).

Definition latestStartTimeScoreFunc (nodesToVictims : gmap string Victims)
  (node : string) : option Z :=
  v ← nodesToVictims !! node;
  match GetEarliestPodStartTime v with
  | None => Some MinInt64
  | Some earliestStartTimeOnNode => Some (UnixNano earliestStartTimeOnNode)
  end.

Definition defaultScoreFuncs (nodesToVictims : gmap string Victims)
  : list (string → option Z) :=
  [ minNumPDBViolatingScoreFunc nodesToVictims;
    minHighestPriorityScoreFunc nodesToVictims;
    minSumPrioritiesScoreFunc nodesToVictims;
    minNumPodsScoreFunc nodesToVictims;
    latestStartTimeScoreFunc nodesToVictims ].

(** The inner loop: the nodes of the highest score, in the order they
    come. *)
Fixpoint selectHighest (f : string → option Z) (allCandidates : list string)
  (maxScore : Z) (selectedNodes : list string) : option (list string) :=
  match allCandidates with
  | [] => Some selectedNodes
  | node :: rest =>
      score ← f node;
      let '(maxScore, selectedNodes) :=
        if maxScore <? score then (score, []) else (maxScore, selectedNodes) in
      let selectedNodes :=
        if score =? maxScore then selectedNodes ++ [node] else selectedNodes in
      selectHighest f rest maxScore selectedNodes
  end.

(** The outer loop over the score functions. *)
Fixpoint pickAmong (scoreFuncs : list (string → option Z))
  (allCandidates : list string) : option string :=
  match scoreFuncs with
  | [] => index allCandidates 0
  | f :: rest =>
      selectedNodes ← selectHighest f allCandidates MinInt64 [];
      match selectedNodes with
      | [only] => Some only
      | _ => pickAmong rest selectedNodes
      end
  end.

(** [pickOneNodeForPreemption].  [keys] is the order in which this run
    ranges over the keys of [nodesToVictims]; Go leaves that order
    open, so it is an input. *)
Definition pickOneNodeForPreemption (keys : list string)
  (nodesToVictims : gmap string Victims)
  (scoreFuncs : list (string → option Z)) : option string :=
  if Z.of_nat (size nodesToVictims) =? 0 then Some EmptyString
  else
    let allCandidates := keys in
    let scoreFuncs :=
      if Z.of_nat (length scoreFuncs) =? 0
      then defaultScoreFuncs nodesToVictims else scoreFuncs in
    pickAmong scoreFuncs allCandidates.

(** [keys] is a possible iteration order of the map. *)
Definition iterationOrder (keys : list string)
  (nodesToVictims : gmap string Victims) : Prop :=
  keys ≡ₚ (map_to_list nodesToVictims).*1.

End Scorer.

(** *** The dry run *)

(** [framework.NodeInfo], as far as the dry run looks: the node. *)
Record NodeInfo := { InfoNode : Node }.

(** How the framework's [Parallelizer().Until] runs the pieces
    [0 .. n-1].  [Sequential] is one worker taking one piece at a time and
    stopping once the context is cancelled.  [Interleaved sched] is a pool
    of workers: [sched] lists the pieces that were started before the
    cancellation reached their worker, in the order of their effects. *)
Inductive Parallelizer :=
| Sequential
| Interleaved (sched : list nat).

Section DryRun.
(** The plugin's [SelectVictimsOnNode]: the victims, the number of PDB
    violations and the status for a node. *)
Variable SelectVictimsOnNode : Pod → NodeInfo → list Pod * Z * Status.

(** What the pieces of a dry run share. *)
Record DryRunState := {
  nonViolatingCandidates : candidateList;
  violatingCandidates : candidateList;
  cancelled : bool;
  nodeStatuses : gmap string Status;
  errs : list Status;
}.

Definition checkNode (pod : Pod) (potentialNodes : list NodeInfo)
  (offset numCandidates : Z) (i : nat) (st : DryRunState)
  : option DryRunState :=
  let len := Z.of_nat (length potentialNodes) in
  if len =? 0 then None
  else
    nodeInfoCopy ← index potentialNodes (Z.rem (offset + Z.of_nat i) len);
    let '(pods, numPDBViolations, status) :=
      SelectVictimsOnNode pod nodeInfoCopy in
    if IsSuccess status && negb (Z.of_nat (length pods) =? 0) then
      let c := {| victims := {| Pods := pods;
                                NumPDBViolations := numPDBViolations |};
                  name := NodeName (InfoNode nodeInfoCopy) |} in
      '(nv, v) ←
        (if numPDBViolations =? 0 then
           nv ← candidateList_add (nonViolatingCandidates st) c;
           Some (nv, violatingCandidates st)
         else
           v ← candidateList_add (violatingCandidates st) c;
           Some (nonViolatingCandidates st, v));
      let nvcSize := candidateList_size nv in
      let vcSize := candidateList_size v in
      let cancel :=
        (0 <? nvcSize) && (numCandidates <=? wrap32 (nvcSize + vcSize)) in
      Some {| nonViolatingCandidates := nv;
              violatingCandidates := v;
              cancelled := cancelled st || cancel;
              nodeStatuses := nodeStatuses st;
              errs := errs st |}
    else
      let status :=
        if IsSuccess status && (Z.of_nat (length pods) =? 0)
        then NewStatus Error ["expected at least one victim pod on node"]
        else status in
      let errs :=
        match code status with
        | Error => errs st ++ [status]
        | _ => errs st
        end in
      Some {| nonViolatingCandidates := nonViolatingCandidates st;
              violatingCandidates := violatingCandidates st;
              cancelled := cancelled st;
              nodeStatuses :=
                <[ NodeName (InfoNode nodeInfoCopy) := status ]>
                  (nodeStatuses st);
              errs := errs |}.

(** One worker: pieces in order, none started after cancellation. *)
Fixpoint runSequential (piece : nat → DryRunState → option DryRunState)
  (pieces : list nat) (st : DryRunState) : option DryRunState :=
  match pieces with
  | [] => Some st
  | i :: rest =>
      if cancelled st then Some st
      else st' ← piece i st; runSequential piece rest st'
  end.

(** A pool: every scheduled piece runs. *)
Fixpoint runScheduled (piece : nat → DryRunState → option DryRunState)
  (pieces : list nat) (st : DryRunState) : option DryRunState :=
  match pieces with
  | [] => Some st
  | i :: rest => st' ← piece i st; runScheduled piece rest st'
  end.

Definition Until (par : Parallelizer) (n : nat)
  (piece : nat → DryRunState → option DryRunState) (st : DryRunState)
  : option DryRunState :=
  match par with
  | Sequential => runSequential piece (seq 0 n) st
  | Interleaved sched => runScheduled piece sched st
  end.

(** A schedule of [n] pieces: each piece at most once. *)
Definition validSchedule (par : Parallelizer) (n : nat) : Prop :=
  match par with
  | Sequential => True
  | Interleaved sched => NoDup sched ∧ Forall (λ i, (i < n)%nat) sched
  end.

Definition DryRunPreemption (par : Parallelizer) (pod : Pod)
  (potentialNodes : list NodeInfo) (offset numCandidates : Z)
  : option (list (option candidate) * gmap string Status * list Status) :=
  nonViolating ← newCandidateList numCandidates;
  violating ← newCandidateList numCandidates;
  let st := {| nonViolatingCandidates := nonViolating;
               violatingCandidates := violating;
               cancelled := false;
               nodeStatuses := ∅;
               errs := [] |} in
  st' ← Until par (length potentialNodes)
              (checkNode pod potentialNodes offset numCandidates) st;
  nv ← candidateList_get (nonViolatingCandidates st');
  v ← candidateList_get (violatingCandidates st');
  Some (nv ++ v, nodeStatuses st', errs st').

End DryRun.

End Preemption.

(** ** Vocabulary of the statements *)

Module Spec.
Import GoLib API Preemption.

(** *** Retrieval *)

(** The second pass of [Retrieve] over a list of candidates, all of
    them acted upon. *)
Fixpoint actAll (backfilledPods : list Pod) (cs : list retrieveCandidate)
  : M unit :=
  match cs with
  | [] => ret tt
  | c :: rest => run act backfilledPods c then actAll backfilledPods rest
  end.

Definition sumGpus (cs : list retrieveCandidate) : Z :=
  foldr (λ c acc, gpus c + acc) 0 cs.

(** A GPU count: an [int64] that is not negative. *)
Definition gpuCount (z : Z) : Prop := 0 ≤ z ≤ MaxInt64.

(** A computation that hands to the retraction helper only pods
    satisfying [P], whether it returns or panics. *)
Definition retractsOnly (P : Pod → Prop) {A} (m : M A) : Prop :=
  ∀ w, ∃ new, retracted (m w).2 = retracted w ++ new ∧ Forall P new.

(** [pod] has an effective timestamp strictly later than [podNow]'s. *)
Definition later (time_Parse : string → option Time) (podNow pod : Pod)
  : Prop :=
  Before (getPodTimestamp time_Parse podNow) (getPodTimestamp time_Parse pod)
  = true.

(** *** Ordering of the candidates *)

Definition byKey {A} (k : A → Z) (a b : A) : bool := k a <? k b.
Definition keyLe {A} (k : A → Z) (a b : A) : Prop := k a ≤ k b.

(** Smaller first key, or the same first key and a second key that is
    not larger. *)
Definition lexLe {A} (k1 k2 : A → Z) (a b : A) : Prop :=
  k1 a < k1 b ∨ (k1 a = k1 b ∧ k2 a ≤ k2 b).

(** The GPU contribution of a candidate, read off the object it was built
    from: the pod's request for a retract candidate, the [scale-out]
    count for a scale-down candidate. *)
Definition contribution (backfilledPods : list Pod)
  (scaleOutMPIJobs : list MPIJob) (c : retrieveCandidate) : option Z :=
  if kind c =? 0 then
    pod ← index backfilledPods (ref c);
    Some (lastGpuRequest (Containers pod))
  else
    job ← index scaleOutMPIJobs (ref c);
    Some (Atoi (annotation (default ∅ (annotations job)) "scale-out")).

(** The cost of a candidate in the words of the specification: the
    table entry [T[model][gpuRequest]] for a retract candidate,
    [T[replicas] - T[replicas - scaleOut]] for a scale-down candidate. *)
Definition throughputCost (table : gmap string (list float))
  (backfilledPods : list Pod) (scaleOutMPIJobs : list MPIJob)
  (c : retrieveCandidate) : option float :=
  if kind c =? 0 then
    pod ← index backfilledPods (ref c);
    throughput table (annotation (Annotations pod) "model-name")
               (lastGpuRequest (Containers pod))
  else
    job ← index scaleOutMPIJobs (ref c);
    replicas ← replicas job;
    let annotations := default ∅ (annotations job) in
    let model := annotation annotations "model-name" in
    s1 ← throughput table model replicas;
    s2 ← throughput table model
           (wrap64 (replicas - Atoi (annotation annotations "scale-out")));
    Some (s1 - s2)%float.

(** The order the specification words describe: a later candidate never
    contributes fewer GPUs, and at equal GPUs never has the smaller
    throughput cost. *)
Definition orderedByThroughputCost (table : gmap string (list float))
  (backfilledPods : list Pod) (scaleOutMPIJobs : list MPIJob)
  (cs : list retrieveCandidate) : Prop :=
  ∀ (i j : nat) a b ca cb,
    (i < j)%nat → cs !! i = Some a → cs !! j = Some b →
    throughputCost table backfilledPods scaleOutMPIJobs a = Some ca →
    throughputCost table backfilledPods scaleOutMPIJobs b = Some cb →
    gpus a < gpus b ∨ (gpus a = gpus b ∧ PrimFloat.ltb cb ca = false).

(** What a built candidate records: its contribution, and its throughput
    cost truncated to an integer. *)
Definition recordsTruncatedCost (table : gmap string (list float))
  (backfilledPods : list Pod) (scaleOutMPIJobs : list MPIJob)
  (c : retrieveCandidate) : Prop :=
  contribution backfilledPods scaleOutMPIJobs c = Some (gpus c)
  ∧ ∃ x, throughputCost table backfilledPods scaleOutMPIJobs c = Some x
         ∧ cost c = float_to_int x.

(** *** The scorer *)

(** The highest score met in [l], starting from [m]. *)
Fixpoint highest (f : string → option Z) (l : list string) (m : Z) : Z :=
  match l with
  | [] => m
  | x :: rest => highest f rest (Z.max m (default m (f x)))
  end.

(** Every node of [l] gets a score. *)
Definition scored (f : string → option Z) (l : list string) : Prop :=
  Forall (λ x, is_Some (f x)) l.

(** Two nodes that no score function tells apart. *)
Definition tied (fs : list (string → option Z)) (r1 r2 : string) : Prop :=
  Forall (λ f, f r1 = f r2) fs.

(** [r] is the first of [keys] among the nodes it is tied with: every
    node before it is told apart from it by some score function. *)
Definition firstTied (fs : list (string → option Z)) (keys : list string)
  (r : string) : Prop :=
  ∃ pre post, keys = pre ++ r :: post ∧ Forall (λ x, ¬ tied fs r x) pre.

(** The score functions a call works with: the defaults for an empty
    list. *)
Definition scoreFuncsUsed (GetEarliestPodStartTime : Victims → option Time)
  (nodesToVictims : gmap string Victims)
  (scoreFuncs : list (string → option Z)) : list (string → option Z) :=
  if Z.of_nat (length scoreFuncs) =? 0
  then defaultScoreFuncs GetEarliestPodStartTime nodesToVictims
  else scoreFuncs.

(** *** The dry run *)



End Spec.

(** ** Worked scenarios *)

Module Scenarios.
Import GoLib API Preemption QueueSort.

Definition T0 : Time := 1704103080000000000.

Definition gpuPod (n : string) (ann : gmap string string) (created : Time)
  (g : Z) : Pod :=
  {| Name := n; Namespace := "my-ns"; Annotations := ann;
     CreationTimestamp := created; Priority := Some 1;
     Containers := [ {| Requests := {[ "nvidia.com/gpu" := g ]} |} ] |}.

Definition gpuNode (n : string) (g : Z) : Node :=
  {| NodeName := n; Capacity := {[ "nvidia.com/gpu" := g ]} |}.

Definition backfilled (model : string) : gmap string string :=
  <[ "scheduling-state" := "backfilled" ]> {[ "model-name" := model ]}.

Definition emptyWorld : World := {| mpijobs := ∅; retracted := [] |}.

(** Retrieval by retraction: a node of four GPUs with the backfilled
    pods [podX] (two GPUs, created one second after the preemptor) and
    [podY] (one GPU, two seconds after); the preemptor asks for two. *)
Definition podX : Pod := gpuPod "x" (backfilled "resnet50") (T0 + 10 ^ 9) 2.
Definition podY : Pod := gpuPod "y" (backfilled "resnet50") (T0 + 2 * 10 ^ 9) 1.
Definition preemptor2 : Pod := gpuPod "p" ∅ T0 2.
Definition preemptor1 : Pod := gpuPod "p" ∅ T0 1.

Definition clusterXY : ClientSet :=
  {| ListNodes := Some [gpuNode "n1" 4];
     ListPods := λ n, if String.eqb n "n1" then Some [podX; podY] else Some [] |}.

(** One idle GPU, no pods and no elastic job. *)
Definition clusterIdle : ClientSet :=
  {| ListNodes := Some [gpuNode "n1" 1]; ListPods := λ _, Some [] |}.

(** The elastic job [resnet-elastic] was scaled out by one worker and
    fills its node; [tensorflow-mnist-elastic] exists with two workers. *)
Definition scaledOutJob : MPIJob :=
  {| replicas := Some 3;
     annotations := Some (<[ "scale-out" := "1" ]>
                            {[ "model-name" := "resnet50" ]}) |}.
Definition mnistJob : MPIJob :=
  {| replicas := Some 2;
     annotations := Some {[ "model-name" := "resnet50" ]} |}.

Definition worldElastic : World :=
  {| mpijobs := <[ ("my-ns", "resnet-elastic") := scaledOutJob ]>
                  {[ ("my-ns", "tensorflow-mnist-elastic") := mnistJob ]};
     retracted := [] |}.

Definition clusterElastic : ClientSet :=
  {| ListNodes := Some [gpuNode "n1" 3];
     ListPods := λ n,
       if String.eqb n "n1" then
         Some [ gpuPod "resnet-elastic-launcher" ∅ (T0 - 10 ^ 9) 0;
                gpuPod "resnet-elastic-worker-0" ∅ (T0 - 10 ^ 9) 1;
                gpuPod "resnet-elastic-worker-1" ∅ (T0 - 10 ^ 9) 1;
                gpuPod "resnet-elastic-worker-2" ∅ (T0 - 10 ^ 9) 1 ]
       else Some [] |}.

(** Two backfilled one-GPU pods, the ResNet-50 one listed first. *)
Definition podResnet : Pod :=
  gpuPod "r" (backfilled "resnet50") (T0 + 10 ^ 9) 1.
Definition podAlex : Pod :=
  gpuPod "a" (backfilled "alex-net") (T0 + 10 ^ 9) 1.

(** Queue ordering: the job [job] has its launcher on a node, the job
    [other] has no pod on any node. *)
Definition plainPod (n : string) : Pod :=
  {| Name := n; Namespace := "my-ns"; Annotations := ∅;
     CreationTimestamp := 0; Priority := None; Containers := [] |}.

Definition queued (n : string) : QueuedPodInfo :=
  {| QPod := plainPod n; Timestamp := 0 |}.

Definition clusterWithJob : ClientSet :=
  {| ListNodes := Some [gpuNode "n1" 4];
     ListPods := λ _, Some [plainPod "job-launcher"] |}.

(** Dry run: on [n1] the only victim set breaks a disruption budget, on
    every other node it does not. *)
Definition nodeInfo (n : string) : NodeInfo :=
  {| InfoNode := gpuNode n 2 |}.

Definition selectOneVictim (pod : Pod) (nodeInfo : NodeInfo)
  : list Pod * Z * Status :=
  if String.eqb (NodeName (InfoNode nodeInfo)) "n1"
  then ([plainPod "v"], 1, NewStatus Success [])
  else ([plainPod "v"], 0, NewStatus Success []).

(** Scorer: two nodes whose victims score alike on every criterion. *)
Definition twoAlike : gmap string Victims :=
  <[ "n1" := {| Pods := [plainPod "v1"]; NumPDBViolations := 0 |} ]>
    {[ "n2" := {| Pods := [plainPod "v2"]; NumPDBViolations := 0 |} ]}.

Definition startedTogether (v : Victims) : option Time := Some T0.

End Scenarios.

(** ** Package queuesort before the residency test *)

(** The second version of [priority_sort.go], without [checkMPIJob] and
    [isMPIJobInNode]. *)
Module QueueSortUpstream.
Import GoLib API.

Section WithParser.
Variable time_Parse : string → option Time.

Definition Less (pInfo1 pInfo2 : QueuedPodInfo) : bool :=
  let p1 := PodPriority (QPod pInfo1) in
  let p2 := PodPriority (QPod pInfo2) in
  match Annotations (QPod pInfo1) !! "retract-check-var" with
  | Some a1 =>
      match Annotations (QPod pInfo2) !! "retract-check-var" with
      | Some a2 =>
          let p1Timestamp := default zeroTime (time_Parse a1) in
          let p2Timestamp := default zeroTime (time_Parse a2) in
          (p2 <? p1) || ((p1 =? p2) && Before p1Timestamp p2Timestamp)
      | None =>
          let p1Timestamp := default zeroTime (time_Parse a1) in
          (p2 <? p1) || ((p1 =? p2) && Before p1Timestamp (Timestamp pInfo2))
      end
  | None =>
      match Annotations (QPod pInfo2) !! "retract-check-var" with
      | Some a2 =>
          let p2Timestamp := default zeroTime (time_Parse a2) in
          (p2 <? p1) || ((p1 =? p2) && Before (Timestamp pInfo1) p2Timestamp)
      | None =>
          (p2 <? p1)
          || ((p1 =? p2) && Before (Timestamp pInfo1) (Timestamp pInfo2))
      end
  end.

End WithParser.

End QueueSortUpstream.

(** ** Package preemption: from the nodes to the selected candidate *)

Module Evaluator.
Import GoLib API Preemption.

(** [m[name].Code()]: a node without a status has the nil status, whose
    code is [Success]. *)
Definition statusCode (m : gmap string Status) (name : string) : Code :=
  match m !! name with
  | Some s => code s
  | None => Success
  end.

Definition nodesWherePreemptionMightHelp (nodes : list NodeInfo)
  (m : gmap string Status) : list NodeInfo * gmap string Status :=
  fold_left
    (λ '(potentialNodes, nodeStatuses) node,
       let name := NodeName (InfoNode node) in
       match statusCode m name with
       | UnschedulableAndUnresolvable =>
           (potentialNodes,
            <[ NodeName (InfoNode node) :=
                 NewStatus UnschedulableAndUnresolvable
                           ["Preemption is not helpful for scheduling"] ]>
              nodeStatuses)
       | _ => (potentialNodes ++ [node], nodeStatuses)
       end)
    nodes ([], ∅).

(** The errors [findCandidates] hands back: that of the node lister,
    [no nodes available], that of the budget lister, and the aggregate of
    the dry run's errors. *)
Inductive error :=
| ListError
| NoNodesAvailable
| PdbListError
| Aggregate (errs : list Status).

(** [utilerrors.NewAggregate]: nil for an empty list. *)
Definition NewAggregate (errs : list Status) : option error :=
  if Z.of_nat (length errs) =? 0 then None else Some (Aggregate errs).

Section WithPlugin.
(** [policy.PodDisruptionBudget], which the code only passes on. *)
Variable PodDisruptionBudget : Type.
(** The methods of the plugin's [Interface] that the code below calls;
    the budgets are an argument of [SelectVictimsOnNode]. *)
Variable SelectVictimsOnNode :
  list PodDisruptionBudget → Pod → NodeInfo → list Pod * Z * Status.
Variable GetOffsetAndNumCandidates : Z → Z * Z.
Variable CandidatesToVictimsMap : list (option candidate) → gmap string Victims.
Variable OrderedScoreFuncs : gmap string Victims → list (string → option Z).
(** [util.GetEarliestPodStartTime], as for the scorer. *)
Variable GetEarliestPodStartTime : Victims → option Time.

(** [getPodDisruptionBudgets]: no lister, no budgets; otherwise what the
    lister returns, [None] being its error. *)
Definition getPodDisruptionBudgets
  (pdbLister : option (option (list PodDisruptionBudget)))
  : list PodDisruptionBudget + error :=
  match pdbLister with
  | Some (Some pdbs) => inl pdbs
  | Some None => inr PdbListError
  | None => inl []
  end.

(** [findCandidates].  [allNodes] is what the snapshot's node lister
    returns, [None] being its error; [cleared] lists the pods handed to
    [util.ClearNominatedNodeName] so far, whose error is only logged.  The
    sample of node names is only logged.  A nil slice is the empty list, a
    nil map the empty map. *)
Definition findCandidates (par : Parallelizer)
  (allNodes : option (list NodeInfo))
  (pdbLister : option (option (list PodDisruptionBudget)))
  (pod : Pod) (m : gmap string Status) (cleared : list Pod)
  : option (list (option candidate) * gmap string Status * option error
            * list Pod) :=
  match allNodes with
  | None => Some ([], ∅, Some ListError, cleared)
  | Some allNodes =>
      if Z.of_nat (length allNodes) =? 0
      then Some ([], ∅, Some NoNodesAvailable, cleared)
      else
        let '(potentialNodes, unschedulableNodeStatus) :=
          nodesWherePreemptionMightHelp allNodes m in
        if Z.of_nat (length potentialNodes) =? 0
        then Some ([], unschedulableNodeStatus, None, cleared ++ [pod])
        else
          match getPodDisruptionBudgets pdbLister with
          | inr err => Some ([], ∅, Some err, cleared)
          | inl pdbs =>
              let '(offset, numCandidates) :=
                GetOffsetAndNumCandidates
                  (wrap32 (Z.of_nat (length potentialNodes))) in
              '(candidates, nodeStatuses, errs) ←
                DryRunPreemption (SelectVictimsOnNode pdbs) par pod
                                 potentialNodes offset numCandidates;
              let nodeStatuses :=
                map_fold (λ node nodeStatus acc, <[ node := nodeStatus ]> acc)
                         nodeStatuses unschedulableNodeStatus in
              Some (candidates, nodeStatuses, NewAggregate errs, cleared)
          end
  end.

(** [SelectCandidate]; [keys] is the order in which the scorer ranges
    over the victims map.  The outer [None] is a panic, the inner one the
    nil candidate. *)
Definition SelectCandidate (keys : list string)
  (candidates : list (option candidate)) : option (option candidate) :=
  if Z.of_nat (length candidates) =? 0 then Some None
  else if Z.of_nat (length candidates) =? 1 then index candidates 0
  else
    let victimsMap := CandidatesToVictimsMap candidates in
    let scoreFuncs := OrderedScoreFuncs victimsMap in
    candidateNode ←
      pickOneNodeForPreemption GetEarliestPodStartTime keys victimsMap
                               scoreFuncs;
    match victimsMap !! candidateNode with
    | Some victims =>
        Some (Some {| victims := victims; name := candidateNode |})
    | None => index candidates 0
    end.

End WithPlugin.

End Evaluator.

(** ** Further vocabulary *)

Module Notions.
Import GoLib API QueueSort Preemption Spec.

(** *** Pod names *)

(** The separator occurs in the string. *)
Fixpoint hasSep (sep : ascii) (s : string) : bool :=
  match s with
  | EmptyString => false
  | String c s' => Ascii.eqb c sep || hasSep sep s'
  end.

(** A name [checkMPIJob] can read: one with a hyphen, or [launcher]. *)
Definition wellNamed (name : string) : Prop :=
  hasSep "-" name = true ∨ name = "launcher".

(** A name that reads as that of a pod of an elastic job: its last field
    is [launcher], or the field before the last is [worker]. *)
Definition elasticName (name : string) : bool :=
  match reverse (Split name "-") with
  | [] => false
  | x :: r =>
      String.eqb x "launcher"
      || match r with
         | [] => false
         | y :: _ => String.eqb y "worker"
         end
  end.

(** [checkMPIJob] on the fields of the name, last field first. *)
Definition classify (rfields : list string) : option (string * bool) :=
  match rfields with
  | [] => None
  | x :: r =>
      if String.eqb x "launcher" then Some (Join (reverse r) "-", true)
      else match r with
           | [] => None
           | y :: r' =>
               if String.eqb y "worker" then Some (Join (reverse r') "-", true)
               else Some (EmptyString, false)
           end
  end.

(** A job name whose last field is [elastic]. *)
Definition endsElastic (job : string) : Prop :=
  job = "elastic" ∨ ∃ p, job = p +:+ "-elastic".

(** [name] is the launcher or a worker of the elastic job [job]. *)
Definition elasticPodOf (job name : string) : Prop :=
  endsElastic job
  ∧ (name = job +:+ "-launcher"
     ∨ ∃ i, hasSep "-" i = false ∧ name = job +:+ "-worker-" +:+ i).

(** [addRunningMPIJob]'s reading of a name, on its fields, last first:
    panic, not a pod of an elastic job, or the job. *)
Definition runningJobOf (rfields : list string) : option (option string) :=
  match rfields with
  | [] | [_] => Some None
  | x :: y :: r =>
      if String.eqb x "launcher" && String.eqb y "elastic"
      then Some (Some (Join (reverse (y :: r)) "-"))
      else if String.eqb y "worker" then
        match r with
        | [] => None
        | z :: r' =>
            if String.eqb z "elastic"
            then Some (Some (Join (reverse r) "-")) else Some None
        end
      else Some None
  end.

Definition jobOfPod (pod : Pod) : option (option string) :=
  runningJobOf (reverse (Split (Name pod) "-")).

Definition noteJob (acc : list string) (j : option string) : list string :=
  match j with
  | Some n => if Contains acc n then acc else acc ++ [n]
  | None => acc
  end.

(** *** Clusters *)

(** A pod of the namespace [my-ns] that [isMPIJobInNode] comes across. *)
Definition listed (client : ClientSet) (pod : Pod) : Prop :=
  ∃ nodes node pods,
    ListNodes client = Some nodes ∧ node ∈ nodes
    ∧ ListPods client (NodeName node) = Some pods ∧ pod ∈ pods
    ∧ Namespace pod = "my-ns".

Definition clusterWellNamed (client : ClientSet) : Prop :=
  ∀ pod, listed client pod → wellNamed (Name pod).

(** A pod listed on one of the nodes. *)
Definition onNode (client : ClientSet) (nodes : list Node) (pod : Pod) : Prop :=
  ∃ node pods, node ∈ nodes ∧ ListPods client (NodeName node) = Some pods
               ∧ pod ∈ pods.

Definition gpuCapacity (node : Node) : Z :=
  default 0 (Capacity node !! "nvidia.com/gpu").

Definition gpuRequests (pod : Pod) : Z :=
  foldr (λ container sum,
           default 0 (Requests container !! "nvidia.com/gpu") + sum)
        0 (Containers pod).

(** The requests of the pods listed on a node; none when the listing of
    the node fails. *)
Definition gpuRequestsOn (client : ClientSet) (node : Node) : Z :=
  match ListPods client (NodeName node) with
  | Some pods => foldr (λ pod sum, gpuRequests pod + sum) 0 pods
  | None => 0
  end.

Definition totalCapacity (nodes : list Node) : Z :=
  foldr (λ node sum, gpuCapacity node + sum) 0 nodes.

Definition totalRequests (client : ClientSet) (nodes : list Node) : Z :=
  foldr (λ node sum, gpuRequestsOn client node + sum) 0 nodes.

(** *** Retrieval *)

(** A GPU count that an [int32] holds. *)
Definition modest (z : Z) : Prop := 0 ≤ z ≤ MaxInt32.

(** Candidates the two sorts do not tell apart. *)
Definition sameKeys (g t : Z) (c : retrieveCandidate) : Prop :=
  gpus c = g ∧ cost c = t.

(** [Dynamic] scaled out one running job without a [scale-out]
    annotation by one worker, and did nothing else. *)
Definition scaledOutOne (client : ClientSet) (w w' : World) : Prop :=
  ∃ nodes jobs name job,
    ListNodes client = Some nodes
    ∧ ListRunningMPIJob client nodes = Some jobs
    ∧ idleGPUsinNodes client nodes ≠ 0
    ∧ name ∈ jobs
    ∧ mpijobs w !! ("my-ns", name) = Some job
    ∧ default ∅ (annotations job) !! "scale-out" = None
    ∧ 0 ≤ wrap64 (default 0 (replicas job) + 1) ≤ 5
    ∧ w' = {| mpijobs :=
                <[ ("my-ns", name) :=
                     {| replicas :=
                          Some (wrap64 (default 0 (replicas job) + 1));
                        annotations :=
                          Some (<[ "scale-out" := "1" ]>
                                  (default ∅ (annotations job))) |} ]>
                  (mpijobs w);
              retracted := retracted w |}.

(** *** The candidate list *)

(** [add] called for each candidate in turn. *)
Fixpoint addAll (cl : candidateList) (cs : list candidate)
  : option candidateList :=
  match cs with
  | [] => Some cl
  | c :: rest => cl' ← candidateList_add cl c; addAll cl' rest
  end.

(** A list of capacity [cap] to which the candidates [cs] were added, in
    this order. *)
Definition holds (cap : nat) (cl : candidateList) (cs : list candidate)
  : Prop :=
  idx cl = Z.of_nat (length cs) - 1
  ∧ items cl = (Some <$> take cap cs) ++ replicate (cap - length cs) None.

(** *** The dry run *)

Section DryRunVocabulary.
Variable SelectVictimsOnNode : Pod → NodeInfo → list Pod * Z * Status.
Variables (pod : Pod) (potentialNodes : list NodeInfo).

(** [c] is what the plugin proposed for one of the potential nodes: a
    success with at least one victim. *)
Definition proposal (c : candidate) : Prop :=
  ∃ nodeInfo status,
    nodeInfo ∈ potentialNodes
    ∧ SelectVictimsOnNode pod nodeInfo
      = (Pods (victims c), NumPDBViolations (victims c), status)
    ∧ IsSuccess status = true
    ∧ Pods (victims c) ≠ []
    ∧ name c = NodeName (InfoNode nodeInfo).

Definition clean (c : candidate) : Prop :=
  proposal c ∧ NumPDBViolations (victims c) = 0.

Definition violating (c : candidate) : Prop :=
  proposal c ∧ NumPDBViolations (victims c) ≠ 0.

(** [status] is what the dry run records for a node the plugin had no
    proposal for: the plugin's status, or an error for a success without
    victims. *)
Definition failure (node : string) (status : Status) : Prop :=
  ∃ nodeInfo pods n st,
    nodeInfo ∈ potentialNodes
    ∧ NodeName (InfoNode nodeInfo) = node
    ∧ SelectVictimsOnNode pod nodeInfo = (pods, n, st)
    ∧ ((IsSuccess st = false ∧ status = st)
       ∨ (IsSuccess st = true ∧ pods = [] ∧ code status = Error)).

(** The name of the node that piece [i] looks at. *)
Definition pieceName (offset : Z) (i : nat) : string :=
  default EmptyString
    (NodeName ∘ InfoNode
       <$> index potentialNodes
             (Z.rem (offset + Z.of_nat i) (Z.of_nat (length potentialNodes)))).

(** The state of a dry run whose pieces [done] have run: the two lists
    hold [cs1] and [cs2], proposals of the plugin for nodes that were
    looked at; the statuses are failures and the errors have the code
    [Error]; every node looked at has a candidate or a status. *)
Definition dryRunInv (cap : nat) (offset : Z) (st : DryRunState)
  (done : list nat) (cs1 cs2 : list candidate) : Prop :=
  holds cap (nonViolatingCandidates st) cs1
  ∧ holds cap (violatingCandidates st) cs2
  ∧ Forall clean cs1 ∧ Forall violating cs2
  ∧ (name <$> cs1 ++ cs2) ⊆+ (pieceName offset <$> done)
  ∧ (∀ node status, nodeStatuses st !! node = Some status → failure node status)
  ∧ Forall (λ s, code s = Error) (errs st)
  ∧ Forall (λ i, pieceName offset i ∈ (name <$> cs1 ++ cs2)
                 ∨ is_Some (nodeStatuses st !! pieceName offset i)) done.

(** What one worker keeps: until the run is cancelled, no clean candidate
    or fewer than [cap] candidates; afterwards at most one more. *)
Definition withinCap (cap : nat) (st : DryRunState)
  (cs1 cs2 : list candidate) : Prop :=
  if cancelled st
  then (length cs1 `min` cap + length cs2 `min` cap ≤ cap + 1)%nat
  else ((length cs1 `min` cap = 0)%nat ∨ (length cs1 + length cs2 < cap)%nat).

End DryRunVocabulary.

(** *** The scorer *)

(** [r] is ahead of [x] in the lexicographic order of the scores, the
    first score function counting most. *)
Fixpoint prefers (fs : list (string → option Z)) (r x : string) : Prop :=
  match fs with
  | [] => True
  | f :: rest =>
      ∃ sr sx, f r = Some sr ∧ f x = Some sx
               ∧ (sx < sr ∨ (sx = sr ∧ prefers rest r x))
  end.

(** Victims as the dry run hands them over: at least one pod, priorities
    that are [int32] values, a length and a number of violations that an
    [int64] holds. *)
Definition wellFormedVictims (v : Victims) : Prop :=
  Pods v ≠ []
  ∧ Forall (λ p, - 2 ^ 31 ≤ PodPriority p ≤ MaxInt32) (Pods v)
  ∧ Z.of_nat (length (Pods v)) ≤ MaxInt64
  ∧ MinInt64 < NumPDBViolations v ≤ MaxInt64.

(** *** The way to the dry run *)

(** The node is marked [UnschedulableAndUnresolvable] in [m]. *)
Definition unresolvable (m : gmap string Status) (nodeInfo : NodeInfo) : Prop :=
  Evaluator.statusCode m (NodeName (InfoNode nodeInfo))
  = UnschedulableAndUnresolvable.

#[export] Instance Code_eq_dec : EqDecision Code.
Proof. solve_decision. Defined.

#[export] Instance unresolvable_dec m nodeInfo :
  Decision (unresolvable m nodeInfo).
Proof. unfold unresolvable. apply _. Defined.

Definition notHelpful : Status :=
  NewStatus UnschedulableAndUnresolvable
            ["Preemption is not helpful for scheduling"].

End Notions.

(** ** Further scenarios *)

Module Cases.
Import GoLib API Preemption Scenarios.

(** A backfilled pod of a model the table does not know. *)
Definition podUnknown : Pod :=
  gpuPod "u" (backfilled "bert") (T0 + 10 ^ 9) 1.

Definition clusterUnknown : ClientSet :=
  {| ListNodes := Some [gpuNode "n1" 4];
     ListPods := λ n, if String.eqb n "n1" then Some [podUnknown] else Some [] |}.

(** The elastic job [mnist-elastic] runs one worker on a node of four
    GPUs and was never scaled out. *)
Definition growingJob : MPIJob :=
  {| replicas := Some 1;
     annotations := Some {[ "model-name" := "resnet50" ]} |}.

Definition worldGrowing : World :=
  {| mpijobs := {[ ("my-ns", "mnist-elastic") := growingJob ]};
     retracted := [] |}.

Definition clusterGrowing : ClientSet :=
  {| ListNodes := Some [gpuNode "n1" 4];
     ListPods := λ n,
       if String.eqb n "n1" then
         Some [ gpuPod "mnist-elastic-launcher" ∅ (T0 - 10 ^ 9) 0;
                gpuPod "mnist-elastic-worker-0" ∅ (T0 - 10 ^ 9) 1 ]
       else Some [] |}.

Definition preemptor4 : Pod := gpuPod "p" ∅ T0 4.

(** Two candidates, for [n1] and [n2]. *)
Definition candidateOn (n : string) : candidate :=
  {| victims := {| Pods := [plainPod "v"]; NumPDBViolations := 0 |};
     name := n |}.

(** A plugin that refuses [n1], finds no victim on [n2] and one victim
    on every other node. *)
Definition selectOrFail (pod : Pod) (nodeInfo : NodeInfo)
  : list Pod * Z * Status :=
  if String.eqb (NodeName (InfoNode nodeInfo)) "n1"
  then ([], 0, NewStatus Unschedulable ["no victims help"])
  else if String.eqb (NodeName (InfoNode nodeInfo)) "n2"
  then ([], 0, NewStatus Success [])
  else ([plainPod "v"], 0, NewStatus Success []).

(** A plugin's [CandidatesToVictimsMap]: the victims by node name. *)
Definition victimsByName (candidates : list (option candidate))
  : gmap string Victims :=
  foldr (λ c m, match c with
                | Some c => <[ name c := victims c ]> m
                | None => m
                end) ∅ candidates.

End Cases.

(** ** Facts about the Go library model *)

Import GoLib API.

Lemma wrap32_small z : - 2 ^ 31 ≤ z ≤ MaxInt32 → wrap32 z = z.
Proof. unfold wrap32, MaxInt32. intros H. rewrite Z.mod_small; lia. Qed.

Lemma wrap64_small z : MinInt64 ≤ z ≤ MaxInt64 → wrap64 z = z.
Proof.
  unfold wrap64, MinInt64, MaxInt64. intros H. rewrite Z.mod_small; lia.
Qed.

Lemma wrap64_range z : MinInt64 ≤ wrap64 z ≤ MaxInt64.
Proof.
  unfold wrap64, MinInt64, MaxInt64.
  pose proof (Z.mod_pos_bound (z + 2 ^ 63) (2 ^ 64)). lia.
Qed.

Lemma index_elem_of {A} (l : list A) i x : index l i = Some x → x ∈ l.
Proof.
  unfold index. destruct (i <? 0); [done|].
  intros H. by eapply list_elem_of_lookup_2.
Qed.

Lemma index_of_nat {A} (l : list A) (p : nat) : index l (Z.of_nat p) = l !! p.
Proof.
  unfold index. destruct (Z.ltb_spec (Z.of_nat p) 0); [lia|].
  by rewrite Nat2Z.id.
Qed.

(** ** The queue ordering *)

Section QueueSortFacts.
Import QueueSort.
Variable time_Parse : string → option Time.

Lemma lessByPriorityAndTime_key (a b : QueuedPodInfo) :
  lessByPriorityAndTime time_Parse a b
  = (PodPriority (QPod b) <? PodPriority (QPod a))
    || ((PodPriority (QPod a) =? PodPriority (QPod b))
        && (queueTimestamp time_Parse a <? queueTimestamp time_Parse b)).
Proof.
  unfold lessByPriorityAndTime, queueTimestamp, Before.
  destruct (Annotations (QPod a) !! "retract-check-var"),
           (Annotations (QPod b) !! "retract-check-var"); reflexivity.
Qed.

(** The plugin as [New] builds it has no client, so the residency test
    panics: a returning [Less] has compared two pods that are both pods of
    elastic jobs, or both not, by priority and time. *)
Lemma Less_New_cases a b r :
  Less time_Parse New a b = Some r →
  ∃ na nb kind,
    checkMPIJob (Name (QPod a)) = Some (na, kind)
    ∧ checkMPIJob (Name (QPod b)) = Some (nb, kind)
    ∧ r = lessByPriorityAndTime time_Parse a b.
Proof.
  unfold Less. intros H.
  destruct (checkMPIJob (Name (QPod a))) as [[na isa]|]; [|discriminate].
  destruct (checkMPIJob (Name (QPod b))) as [[nb isb]|]; [|discriminate].
  simpl in H. destruct isa, isb; simpl in H; try discriminate;
    injection H as <-; by eexists _, _, _.
Qed.

Lemma Less_New_same_kind a b na nb kind :
  checkMPIJob (Name (QPod a)) = Some (na, kind) →
  checkMPIJob (Name (QPod b)) = Some (nb, kind) →
  Less time_Parse New a b = Some (lessByPriorityAndTime time_Parse a b).
Proof.
  intros Ea Eb. unfold Less. rewrite Ea, Eb. simpl. by destruct kind.
Qed.


(** C10 at a pod named [nginx]: the name has a single field, the test for
    [worker] indexes the field before it, and [Less] panics, whatever the
    plugin's client, the other pod and the parser. *)
Theorem Less_panics_on_name_without_separator
  (pl : PrioritySort) (other : QueuedPodInfo) :
  Less time_Parse pl (Scenarios.queued "nginx") other = None
  ∧ Less time_Parse pl other (Scenarios.queued "nginx") = None.
Proof.
  unfold Less. split; [reflexivity|].
  by destruct (checkMPIJob (Name (QPod other))) as [[? ?]|].
Qed.

End QueueSortFacts.


(** The retracted pod with the earlier retraction time goes first at equal
    priority. *)
Example Less_retracted_earlier_first :
  let plain :=
    {| QPod := Scenarios.gpuPod "a-0" ∅ 0 0;
       Timestamp := 1704103200000000000 |} in
  let retractedPod :=
    {| QPod := Scenarios.gpuPod "b-0"
                 {[ "retract-check-var" := "2024-01-01T09:58:00Z" ]} 0 0;
       Timestamp := 1704103200000000000 |} in
  QueueSort.Less parseUTC QueueSort.New retractedPod plain = Some true.
Proof. vm_compute. reflexivity. Qed.

(** ** Stable sorting by two keys *)

Import Preemption Spec.

Section StableSort.
Context {A : Type} (k1 k2 : A → Z).

Lemma insertStable_Permutation (less : A → A → bool) x l :
  insertStable less x l ≡ₚ x :: l.
Proof.
  induction l as [|y l IH]; simpl; [done|].
  destruct (less y x); [|done].
  rewrite IH. apply Permutation_swap.
Qed.

Lemma SliceStable_Permutation (less : A → A → bool) l :
  SliceStable less l ≡ₚ l.
Proof.
  induction l as [|x l IH]; simpl; [done|].
  unfold SliceStable in *. simpl.
  by rewrite insertStable_Permutation, IH.
Qed.

Lemma insertStable_keyLe (k : A → Z) x l :
  StronglySorted (keyLe k) l →
  StronglySorted (keyLe k) (insertStable (byKey k) x l).
Proof.
  induction 1 as [|y l Hs IH Hall]; simpl.
  - repeat constructor.
  - unfold byKey at 1. destruct (Z.ltb_spec (k y) (k x)).
    + constructor; [done|].
      rewrite insertStable_Permutation. constructor; [unfold keyLe; lia|done].
    + constructor; [by constructor|].
      constructor; [done|].
      eapply Forall_impl; [exact Hall|]. unfold keyLe. intros; simpl in *; lia.
Qed.

Lemma SliceStable_keyLe (k : A → Z) l :
  StronglySorted (keyLe k) (SliceStable (byKey k) l).
Proof.
  induction l as [|x l IH]; [constructor|].
  apply insertStable_keyLe, IH.
Qed.

(** Inserting, by the first key, an element whose second key is below
    all that are there keeps the list ordered by both keys. *)
Lemma insertStable_lexLe x l :
  StronglySorted (lexLe k1 k2) l →
  Forall (keyLe k2 x) l →
  StronglySorted (lexLe k1 k2) (insertStable (byKey k1) x l).
Proof.
  induction 1 as [|y l Hs IH Hall]; simpl; intros Hx.
  - repeat constructor.
  - apply Forall_cons in Hx as [Hxy Hx].
    unfold byKey at 1. destruct (Z.ltb_spec (k1 y) (k1 x)).
    + constructor; [by apply IH|].
      rewrite insertStable_Permutation. constructor; [by left|done].
    + constructor; [by constructor|].
      constructor; [unfold lexLe, keyLe in *; lia|].
      rewrite Forall_forall in Hall, Hx. apply Forall_forall. intros z Hz.
      specialize (Hall z Hz). specialize (Hx z Hz).
      unfold lexLe, keyLe in *. lia.
Qed.

(** A stable sort by the second key followed by one by the first key
    orders by the first key and, at equal first keys, by the second. *)
Lemma SliceStable_twice l :
  StronglySorted (lexLe k1 k2)
    (SliceStable (byKey k1) (SliceStable (byKey k2) l)).
Proof.
  generalize (SliceStable_keyLe k2 l).
  generalize (SliceStable (byKey k2) l). clear l.
  induction 1 as [|x l Hs IH Hall]; [constructor|].
  change (StronglySorted (lexLe k1 k2)
            (insertStable (byKey k1) x (SliceStable (byKey k1) l))).
  apply insertStable_lexLe; [done|].
  by rewrite SliceStable_Permutation.
Qed.
End StableSort.

(** ** The retrieval engine *)

Section RetrievalFacts.
Variable time_Parse : string → option Time.

Lemma retractsOnly_ret P {A} (a : A) : retractsOnly P (ret a).
Proof. intros w. exists []. by rewrite app_nil_r. Qed.

Lemma retractsOnly_lift P {A} (o : option A) : retractsOnly P (lift o).
Proof. intros w. exists []. by rewrite app_nil_r. Qed.

Lemma retractsOnly_bind P {A B} (m : M A) (k : A → M B) :
  retractsOnly P m → (∀ a, retractsOnly P (k a)) → retractsOnly P (bind m k).
Proof.
  intros Hm Hk w. unfold bind.
  destruct (Hm w) as (n1 & E1 & F1).
  destruct (m w) as [[a|] w1]; simpl in *.
  - destruct (Hk a w1) as (n2 & E2 & F2).
    exists (n1 ++ n2). rewrite E2, E1, app_assoc. split; [done|].
    by apply Forall_app.
  - by exists n1.
Qed.

Lemma retractsOnly_GetMPIJob P ns n : retractsOnly P (GetMPIJob ns n).
Proof. intros w. exists []. by rewrite app_nil_r. Qed.

Lemma retractsOnly_MPIJobScaling P ns n d :
  retractsOnly P (MPIJobScaling ns n d).
Proof.
  intros w. exists []. rewrite app_nil_r. unfold MPIJobScaling.
  by destruct (mpijobs w !! (ns, n)).
Qed.

Lemma retractsOnly_RetractPod (P : Pod → Prop) pod :
  P pod → retractsOnly P (RetractPod pod).
Proof. intros HP w. exists [pod]. split; [done|]. by constructor. Qed.

Lemma retractsOnly_gatherScaleOut P jobs :
  retractsOnly P (gatherScaleOut jobs).
Proof.
  induction jobs as [|j jobs IH]; simpl; [apply retractsOnly_ret|].
  apply retractsOnly_bind; [apply retractsOnly_GetMPIJob|]. intros got.
  apply retractsOnly_bind; [apply retractsOnly_lift|]. intros job.
  apply retractsOnly_bind; [apply IH|]. intros more.
  destruct (_ !! _); apply retractsOnly_ret.
Qed.

Lemma retractsOnly_act P backfilledPods c :
  Forall P backfilledPods → retractsOnly P (act backfilledPods c).
Proof.
  intros HP. unfold act. destruct (kind c =? 0).
  - intros w. unfold bind, lift.
    destruct (index backfilledPods (ref c)) as [pod|] eqn:E.
    + apply retractsOnly_RetractPod.
      rewrite Forall_forall in HP. eapply HP, index_elem_of, E.
    + exists []. by rewrite app_nil_r.
  - apply retractsOnly_MPIJobScaling.
Qed.

Lemma retractsOnly_applyCandidates P backfilledPods t cs :
  Forall P backfilledPods →
  retractsOnly P (applyCandidates backfilledPods t cs).
Proof.
  intros HP. revert t. induction cs as [|c cs IH]; intros t; simpl.
  - apply retractsOnly_ret.
  - apply retractsOnly_bind; [by apply retractsOnly_act|]. intros _.
    destruct (_ <=? 0); [apply retractsOnly_ret|apply IH].
Qed.

Lemma backfilledAmong_later podNow pods :
  Forall (later time_Parse podNow) (backfilledAmong time_Parse podNow pods).
Proof.
  induction pods as [|pod pods IH]; simpl; [constructor|].
  destruct (Annotations pod !! "scheduling-state") as [st|]; [|done].
  destruct (String.eqb st "backfilled"); simpl; [|done].
  destruct (Before _ _) eqn:E; [|done]. by constructor.
Qed.

Lemma gatherBackfilled_later client podNow nodes :
  Forall (later time_Parse podNow)
         (gatherBackfilled time_Parse client podNow nodes).
Proof.
  induction nodes as [|node nodes IH]; simpl; [constructor|].
  destruct (ListPods client (NodeName node)); [|done].
  apply Forall_app. split; [apply backfilledAmong_later|done].
Qed.

(** C4.  Whatever [Retrieve] is called with, and whether it returns or
    panics on the way, the pods it hands to retraction all have an
    effective timestamp ([getPodTimestamp]: the parsed [retract-check-var]
    annotation, else the creation timestamp) strictly later than the
    preemptor's. *)
Theorem Retrieve_retracts_only_later
  (client : ClientSet) (podNow : Pod) (table : gmap string (list float))
  (nodes : list Node) (idleGPUs requestGPUs : Z)
  (runningMPIJobs : list string) (w : World) :
  ∃ new,
    retracted (Retrieve time_Parse client podNow table nodes idleGPUs
                        requestGPUs runningMPIJobs w).2
    = retracted w ++ new
    ∧ Forall (λ pod,
                Before (getPodTimestamp time_Parse podNow)
                       (getPodTimestamp time_Parse pod) = true) new.
Proof.
  revert w.
  change (retractsOnly (later time_Parse podNow)
            (Retrieve time_Parse client podNow table nodes idleGPUs
                      requestGPUs runningMPIJobs)).
  unfold Retrieve.
  apply retractsOnly_bind; [apply retractsOnly_gatherScaleOut|]. intros jobs.
  apply retractsOnly_bind; [apply retractsOnly_lift|]. intros cands.
  destruct (_ =? 0); [apply retractsOnly_ret|].
  destruct (negb _); [apply retractsOnly_ret|].
  apply retractsOnly_applyCandidates, gatherBackfilled_later.
Qed.

(** The gathering of scale-out jobs only reads the store. *)
Lemma gatherScaleOut_reads jobs w :
  (gatherScaleOut jobs w).2 = w
  ∧ ∀ js, (gatherScaleOut jobs w).1 = Some js →
      Forall (λ job, ∃ n, n ∈ jobs ∧ mpijobs w !! ("my-ns", n) = Some job) js.
Proof.
  induction jobs as [|j jobs [IHw IHj]]; simpl.
  - split; [done|]. intros js [= <-]. constructor.
  - unfold bind, GetMPIJob, lift, ret. simpl.
    destruct (mpijobs w !! ("my-ns", j)) as [job|] eqn:Ej; [|done].
    destruct (gatherScaleOut jobs w) as [[more|] w1]; simpl in *; subst w1;
      [|done].
    specialize (IHj _ eq_refl).
    assert (Forall (λ job, ∃ n, n ∈ j :: jobs
                           ∧ mpijobs w !! ("my-ns", n) = Some job) more) as IH'.
    { eapply Forall_impl; [exact IHj|]. intros ? (n & ? & ?).
      exists n. split; [by right|done]. }
    destruct (default ∅ (annotations job) !! "scale-out"); simpl;
      (split; [done|]); intros js [= <-]; [|done].
    constructor; [|done]. exists j. split; [left|done].
Qed.

Lemma numbered_Forall2 {A} (info : Z → A → option retrieveCandidate) i xs cs :
  numbered info i xs = Some cs →
  Forall2 (λ x c, ∃ j, info j x = Some c) xs cs.
Proof.
  revert i cs. induction xs as [|x xs IH]; intros i cs; simpl.
  - intros [= <-]. constructor.
  - destruct (info i x) as [c|] eqn:E; [|done]. simpl.
    destruct (numbered info (i + 1) xs) as [cs'|] eqn:E'; [|done]. simpl.
    intros [= <-]. constructor; [by exists i|by eapply IH].
Qed.

(** The [p]-th candidate is built from the [p]-th object, under the
    number [i + p]. *)
Lemma numbered_lookup {A} (info : Z → A → option retrieveCandidate) xs :
  ∀ i cs (p : nat) c,
    numbered info i xs = Some cs → cs !! p = Some c →
    ∃ x, xs !! p = Some x ∧ info (i + Z.of_nat p) x = Some c.
Proof.
  induction xs as [|x xs IH]; intros i cs p c; simpl.
  - intros [= <-]. done.
  - destruct (info i x) as [c0|] eqn:E; [|done]. simpl.
    destruct (numbered info (i + 1) xs) as [cs'|] eqn:E'; [|done]. simpl.
    intros [= <-]. destruct p as [|p]; simpl.
    + intros [= <-]. exists x. split; [done|]. by rewrite Z.add_0_r.
    + intros Hp. destruct (IH _ _ _ _ E' Hp) as (y & Hy & Hinfo).
      exists y. split; [done|].
      by replace (i + Z.of_nat (S p)) with (i + 1 + Z.of_nat p) by lia.
Qed.

(** A successful second pass acted on a prefix that covers what was
    needed. *)
Lemma applyCandidates_success backfilledPods cs : ∀ t w w' s,
  applyCandidates backfilledPods t cs w = (Some (true, s), w') →
  Forall (λ c, gpuCount (gpus c)) cs →
  t ≤ MaxInt64 →
  ∃ sel rest,
    cs = sel ++ rest
    ∧ actAll backfilledPods sel w = (Some tt, w')
    ∧ (0 < t → t ≤ sumGpus sel) ∧ 0 ≤ sumGpus sel.
Proof.
  unfold gpuCount.
  induction cs as [|c cs IH]; intros t w w' s; simpl; [done|].
  intros Hrun Hall Ht. apply Forall_cons in Hall as [Hc Hall].
  unfold bind in Hrun at 1.
  destruct (act backfilledPods c w) as [[[]|] w1] eqn:Eact; [|done].
  pose proof (wrap64_range (t - gpus c)) as Hr.
  assert (Hw : 0 < t → wrap64 (t - gpus c) = t - gpus c).
  { intros Hpos. apply wrap64_small.
    unfold MinInt64, MaxInt64 in *. lia. }
  destruct (Z.leb_spec (wrap64 (t - gpus c)) 0) as [Hle|Hgt].
  - injection Hrun as <- <-.
    exists [c], cs. split; [done|]. simpl. unfold bind. rewrite Eact.
    split; [done|]. split; [|lia]. intros Hpos. rewrite Hw in Hle by done. lia.
  - destruct (IH _ _ _ _ Hrun Hall) as (sel & rest & -> & Hact & Hsum & Hpos);
      [lia|].
    exists (c :: sel), rest. split; [done|]. simpl. unfold bind at 1.
    rewrite Eact. split; [done|]. split; [|lia].
    intros Ht0. rewrite Hw in Hgt, Hsum by done. lia.
Qed.

(** C6.  With GPU counts that are counts (the requests of the backfilled
    pods and the [scale-out] numbers of the running jobs are not negative)
    and a difference [requestGPUs - idleGPUs] that fits an [int64]: when
    [Retrieve] returns success, it acted on exactly a prefix [selected] of
    the sorted candidates, and the GPUs these contribute sum to at least
    [max(0, requestGPUs - idleGPUs)]. *)
Theorem Retrieve_success_covers_deficit
  (client : ClientSet) (podNow : Pod) (table : gmap string (list float))
  (nodes : list Node) (idleGPUs requestGPUs : Z)
  (runningMPIJobs : list string) (w w' : World) (s : string) :
  MinInt64 ≤ requestGPUs - idleGPUs ≤ MaxInt64 →
  Forall (λ pod, gpuCount (lastGpuRequest (Containers pod)))
         (gatherBackfilled time_Parse client podNow nodes) →
  (∀ n job, n ∈ runningMPIJobs → mpijobs w !! ("my-ns", n) = Some job →
     gpuCount (Atoi (annotation (default ∅ (annotations job)) "scale-out"))) →
  Retrieve time_Parse client podNow table nodes idleGPUs requestGPUs
           runningMPIJobs w = (Some (true, s), w') →
  ∃ scaleOutMPIJobs candidates selected rest,
    (gatherScaleOut runningMPIJobs w).1 = Some scaleOutMPIJobs
    ∧ buildCandidates table (gatherBackfilled time_Parse client podNow nodes)
                      scaleOutMPIJobs = Some candidates
    ∧ sortCandidates candidates = selected ++ rest
    ∧ actAll (gatherBackfilled time_Parse client podNow nodes) selected w
      = (Some tt, w')
    ∧ Z.max 0 (requestGPUs - idleGPUs) ≤ sumGpus selected.
Proof.
  intros Hdiff Hpods Hjobs. unfold Retrieve.
  destruct (gatherScaleOut_reads runningMPIJobs w) as [Hw Hjs].
  unfold bind at 1.
  destruct (gatherScaleOut runningMPIJobs w) as [[js|] w1]; simpl in *;
    subst w1; [|done].
  specialize (Hjs _ eq_refl).
  unfold bind at 1. unfold lift at 1.
  destruct (buildCandidates table _ js) as [cands|] eqn:Eb; [|done].
  destruct (_ =? 0); [done|].
  destruct (coversDeficit _ _); simpl; [|done].
  intros Hrun.
  assert (Hg : Forall (λ c, gpuCount (gpus c)) cands).
  { unfold buildCandidates in Eb.
    destruct (numbered (backfilledInfo table) 0 _) as [c1|] eqn:E1; [|done].
    destruct (numbered (scaleInfo table) 0 _) as [c2|] eqn:E2; [|done].
    simpl in Eb. injection Eb as <-.
    apply numbered_Forall2 in E1, E2. apply Forall_app. split.
    - eapply Forall2_Forall_r; [exact E1|].
      eapply Forall_impl; [exact Hpods|].
      intros pod Hp c (j & Hinfo). unfold backfilledInfo in Hinfo.
      destruct (throughput _ _ _); [|done]. by injection Hinfo as <-.
    - eapply Forall2_Forall_r; [exact E2|].
      eapply Forall_impl; [exact Hjs|].
      intros job (n & Hn & Hjob) c (j & Hinfo). unfold scaleInfo in Hinfo.
      destruct (replicas job); simpl in Hinfo; [|done].
      repeat (destruct (throughput _ _ _); simpl in Hinfo; try done).
      injection Hinfo as <-.
      simpl. by eapply Hjobs. }
  assert (Hg' : Forall (λ c, gpuCount (gpus c)) (sortCandidates cands)).
  { unfold sortCandidates. by rewrite !SliceStable_Permutation. }
  rewrite wrap64_small in Hrun by done.
  apply applyCandidates_success in Hrun as (sel & rest & E & Hact & H1 & H2);
    [|done|lia].
  exists js, cands, sel, rest. repeat (split; [done|]). lia.
Qed.

End RetrievalFacts.

(** ** The order of the reclaim candidates *)

Section CandidateOrder.
Variable table : gmap string (list float).

Lemma backfilledInfo_records backfilledPods scaleOutMPIJobs (p : nat) pod c :
  backfilledPods !! p = Some pod →
  backfilledInfo table (Z.of_nat p) pod = Some c →
  recordsTruncatedCost table backfilledPods scaleOutMPIJobs c.
Proof.
  intros Hp Hinfo. unfold backfilledInfo in Hinfo.
  destruct (throughput _ _ _) as [t|] eqn:Et; [|done].
  injection Hinfo as <-.
  unfold recordsTruncatedCost, contribution, throughputCost. simpl.
  rewrite index_of_nat, Hp. simpl. split; [done|]. by exists t.
Qed.

Lemma scaleInfo_records backfilledPods scaleOutMPIJobs (p : nat) job c :
  scaleOutMPIJobs !! p = Some job →
  scaleInfo table (Z.of_nat p) job = Some c →
  recordsTruncatedCost table backfilledPods scaleOutMPIJobs c.
Proof.
  intros Hp Hinfo. unfold scaleInfo in Hinfo.
  destruct (replicas job) as [r|] eqn:Er; simpl in Hinfo; [|done].
  destruct (throughput table _ r) as [s1|] eqn:E1; simpl in Hinfo; [|done].
  destruct (throughput table _ (wrap64 _)) as [s2|] eqn:E2; simpl in Hinfo;
    [|done].
  injection Hinfo as <-.
  unfold recordsTruncatedCost, contribution, throughputCost. simpl.
  rewrite index_of_nat, Hp. simpl. split; [done|].
  rewrite Er. simpl. rewrite E1. simpl. rewrite E2. simpl. by eexists.
Qed.

(** C5, as the code has it.  The candidates [Retrieve] works through are
    the built ones in another order: by contributed GPUs, smallest first,
    and at equal GPUs by recorded cost, smallest first.  The recorded cost
    is the throughput cost of the specification ([T[model][gpuRequest]],
    respectively [T[replicas] - T[replicas - scaleOut]]) truncated to an
    integer. *)
Theorem sortCandidates_by_gpus_then_truncated_cost
  (backfilledPods : list Pod) (scaleOutMPIJobs : list MPIJob)
  (candidates : list retrieveCandidate) :
  buildCandidates table backfilledPods scaleOutMPIJobs = Some candidates →
  sortCandidates candidates ≡ₚ candidates
  ∧ StronglySorted (lexLe gpus cost) (sortCandidates candidates)
  ∧ Forall (recordsTruncatedCost table backfilledPods scaleOutMPIJobs)
           (sortCandidates candidates).
Proof.
  intros Hb.
  assert (Hperm : sortCandidates candidates ≡ₚ candidates).
  { unfold sortCandidates. by rewrite !SliceStable_Permutation. }
  split; [done|]. split; [apply (SliceStable_twice gpus cost)|].
  rewrite Hperm. unfold buildCandidates in Hb.
  destruct (numbered (backfilledInfo table) 0 _) as [c1|] eqn:E1; [|done].
  destruct (numbered (scaleInfo table) 0 _) as [c2|] eqn:E2; [|done].
  simpl in Hb. injection Hb as <-. apply Forall_app. split.
  - apply Forall_lookup. intros p c Hc.
    destruct (numbered_lookup _ _ _ _ _ _ E1 Hc) as (pod & Hpod & Hinfo).
    by eapply backfilledInfo_records.
  - apply Forall_lookup. intros p c Hc.
    destruct (numbered_lookup _ _ _ _ _ _ E2 Hc) as (job & Hjob & Hinfo).
    by eapply scaleInfo_records.
Qed.

End CandidateOrder.

(** Two one-GPU pods, ResNet-50 (7.777) gathered before AlexNet (7.496):
    both costs are recorded as 7, the pods stay as gathered, and the order
    by throughput cost is broken. *)
Lemma sorted_ties_not_by_throughput_cost :
  let backfilledPods := [Scenarios.podResnet; Scenarios.podAlex] in
  ∃ candidates,
    buildCandidates scalableModelData backfilledPods [] = Some candidates
    ∧ ¬ orderedByThroughputCost scalableModelData backfilledPods []
          (sortCandidates candidates).
Proof.
  eexists. split; [vm_compute; reflexivity|].
  intros H.
  destruct (H 0%nat 1%nat
              {| kind := 0; ref := 0; gpus := 1; cost := 7 |}
              {| kind := 0; ref := 1; gpus := 1; cost := 7 |}
              7.777%float 7.496%float) as [Hlt|[_ Hcost]];
    try (vm_compute; reflexivity).
  - simpl in Hlt. lia.
  - vm_compute in Hcost. discriminate.
Qed.

Lemma sortCandidates_by_gpus_then_truncated_cost_witness :
  let backfilledPods := [Scenarios.podX; Scenarios.podY] in
  let candidates := [ {| kind := 0; ref := 0; gpus := 2; cost := 12 |};
                      {| kind := 0; ref := 1; gpus := 1; cost := 7 |} ] in
  buildCandidates scalableModelData backfilledPods [] = Some candidates
  ∧ StronglySorted (lexLe gpus cost) (sortCandidates candidates).
Proof.
  assert (H : buildCandidates scalableModelData
                [Scenarios.podX; Scenarios.podY] []
              = Some [ {| kind := 0; ref := 0; gpus := 2; cost := 12 |};
                       {| kind := 0; ref := 1; gpus := 1; cost := 7 |} ])
    by (vm_compute; reflexivity).
  split; [exact H|].
  apply (sortCandidates_by_gpus_then_truncated_cost scalableModelData _ _ _ H).
Defined.

(** ** Retrieval on the worked scenarios *)

(** Retraction of the smaller pod covers a deficit of one GPU. *)
Example Retrieve_retracts_the_one_GPU_pod :
  Dynamic parseUTC Scenarios.clusterXY Scenarios.preemptor2 Scenarios.emptyWorld
  = (Some (NewPostFilterResultWithNominatedNode "", NewStatus Success []),
     {| mpijobs := ∅; retracted := [Scenarios.podY] |}).
Proof. vm_compute. reflexivity. Qed.

Lemma Retrieve_success_covers_deficit_witness :
  ∃ selected,
    actAll [Scenarios.podX; Scenarios.podY] selected Scenarios.emptyWorld
    = (Some tt, {| mpijobs := ∅; retracted := [Scenarios.podY] |})
    ∧ Z.max 0 (2 - 1) ≤ sumGpus selected.
Proof.
  destruct (Retrieve_success_covers_deficit parseUTC Scenarios.clusterXY
              Scenarios.preemptor2 scalableModelData [Scenarios.gpuNode "n1" 4]
              1 2 [] Scenarios.emptyWorld
              {| mpijobs := ∅; retracted := [Scenarios.podY] |} "")
    as (jobs & candidates & selected & rest & _ & _ & _ & Hact & Hsum).
  - vm_compute. split; discriminate.
  - repeat constructor; vm_compute; discriminate.
  - intros n job Hn. by apply elem_of_nil in Hn.
  - vm_compute. reflexivity.
  - exists selected. split; [exact Hact|exact Hsum].
Defined.

(** C1 at a cluster whose only scale-down candidate is built from the job
    [resnet-elastic], with the arguments [Dynamic] passes for a preemptor
    asking for one GPU: [Retrieve] succeeds, the replicas of
    [resnet-elastic] stay at 3, and the replicas of
    [tensorflow-mnist-elastic], the name written into the call, go from 2
    to 1. *)
Theorem Retrieve_scales_down_the_named_job_only :
  let outcome :=
    Retrieve parseUTC Scenarios.clusterElastic Scenarios.preemptor1
             scalableModelData [Scenarios.gpuNode "n1" 3] 0 1
             ["resnet-elastic"] Scenarios.worldElastic in
  ListRunningMPIJob Scenarios.clusterElastic [Scenarios.gpuNode "n1" 3]
  = Some ["resnet-elastic"]
  ∧ idleGPUsinNodes Scenarios.clusterElastic [Scenarios.gpuNode "n1" 3] = 0
  ∧ (gatherScaleOut ["resnet-elastic"] Scenarios.worldElastic).1
    = Some [Scenarios.scaledOutJob]
  ∧ buildCandidates scalableModelData [] [Scenarios.scaledOutJob]
    = Some [ {| kind := 1; ref := 0; gpus := 1; cost := 0 |} ]
  ∧ outcome.1 = Some (true, EmptyString)
  ∧ replicas <$> mpijobs outcome.2 !! ("my-ns", "resnet-elastic") = Some (Some 3)
  ∧ replicas <$> mpijobs Scenarios.worldElastic
                   !! ("my-ns", "tensorflow-mnist-elastic") = Some (Some 2)
  ∧ replicas <$> mpijobs outcome.2 !! ("my-ns", "tensorflow-mnist-elastic")
    = Some (Some 1).
Proof. repeat split; vm_compute; reflexivity. Qed.

(** Whatever the candidate, a scale-down touches no job but the named
    one. *)
Lemma act_scales_the_named_job_only backfilledPods c w key :
  kind c ≠ 0 → key ≠ ("my-ns", "tensorflow-mnist-elastic") →
  mpijobs (act backfilledPods c w).2 !! key = mpijobs w !! key.
Proof.
  intros Hk Hkey. unfold act.
  destruct (Z.eqb_spec (kind c) 0); [done|].
  unfold MPIJobScaling. destruct (mpijobs w !! _); [|done].
  simpl. by rewrite lookup_insert_ne.
Qed.

(** C3 at one idle GPU, no pod and no elastic job, for a preemptor asking
    for two GPUs: the reclaim step fails, no job is eligible for scale-out,
    nothing is scaled, and [Dynamic] answers [Scale-Out MPIJob]. *)
Theorem Dynamic_reports_scale_out_when_nothing_scales :
  (Retrieve parseUTC Scenarios.clusterIdle Scenarios.preemptor2
            scalableModelData [Scenarios.gpuNode "n1" 1] 1 2 []
            Scenarios.emptyWorld).1 = Some (false, EmptyString)
  ∧ ListRunningMPIJob Scenarios.clusterIdle [Scenarios.gpuNode "n1" 1] = Some []
  ∧ Dynamic parseUTC Scenarios.clusterIdle Scenarios.preemptor2
            Scenarios.emptyWorld
    = (Some (NewPostFilterResultWithNominatedNode "",
             NewStatus Unschedulable ["Scale-Out MPIJob"]),
       Scenarios.emptyWorld).
Proof. repeat split; vm_compute; reflexivity. Qed.

(** C9 at a job with two workers and no [scale-out] annotation: after one
    scale-out by one the annotation reads [1], after a second it reads
    [11], while the replicas went from 2 to 4. *)
Theorem MPIJobScaling_twice_appends_digits :
  let scaleOut := MPIJobScaling "my-ns" "tensorflow-mnist-elastic" 1 in
  let once := (scaleOut Scenarios.worldElastic).2 in
  let twice := (scaleOut once).2 in
  let job w := mpijobs w !! ("my-ns", "tensorflow-mnist-elastic") in
  let scaleOutOf w :=
    j ← job w; a ← annotations j; a !! "scale-out" in
  scaleOutOf Scenarios.worldElastic = None
  ∧ scaleOutOf once = Some "1"
  ∧ scaleOutOf twice = Some "11"
  ∧ replicas <$> job twice = Some (Some 4)
  ∧ Atoi "11" = 11.
Proof. repeat split; vm_compute; reflexivity. Qed.

(** ** The tie-break scorer *)

Section ScorerFacts.
Implicit Types (f : string → option Z) (l sel : list string).

Lemma highest_ge f l m : m ≤ highest f l m.
Proof.
  revert m. induction l as [|x l IH]; intros m; simpl; [lia|].
  specialize (IH (Z.max m (default m (f x)))). lia.
Qed.

(** With every node scored, the inner loop keeps the nodes of the
    highest score, in the order they came. *)
Lemma selectHighest_filter f l m sel :
  scored f l →
  selectHighest f l m sel
  = Some ((if highest f l m =? m then sel else [])
          ++ filter (λ x, f x = Some (highest f l m)) l).
Proof.
  intros Hl. revert m sel.
  induction Hl as [|x l [s Hs] Hl IH]; intros m sel; simpl.
  - by rewrite Z.eqb_refl, app_nil_r.
  - rewrite Hs. simpl. rewrite filter_cons, Hs.
    destruct (Z.ltb_spec m s) as [Hlt|Hle].
    + rewrite Z.max_r by lia. rewrite Z.eqb_refl, IH.
      pose proof (highest_ge f l s) as Hge.
      destruct (Z.eqb_spec (highest f l s) m) as [?|_]; [lia|].
      destruct (Z.eqb_spec (highest f l s) s) as [->|Hne].
      * by rewrite decide_True.
      * rewrite decide_False; [done|]. congruence.
    + rewrite Z.max_l by lia.
      pose proof (highest_ge f l m) as Hge.
      destruct (Z.eqb_spec s m) as [->|Hne]; rewrite IH.
      * destruct (Z.eqb_spec (highest f l m) m) as [->|Hhm].
        -- rewrite decide_True by done. by rewrite <- app_assoc.
        -- rewrite decide_False; [done|]. congruence.
      * rewrite decide_False; [done|]. intros [= ->]. lia.
Qed.

(** A node without a score makes the inner loop panic. *)
Lemma selectHighest_unscored f l m sel :
  ¬ scored f l → selectHighest f l m sel = None.
Proof.
  revert m sel. induction l as [|x l IH]; intros m sel Hn; simpl.
  - destruct Hn. constructor.
  - destruct (f x) as [s|] eqn:Hs; simpl; [|done].
    destruct (m <? s); apply IH; intros Hl; apply Hn;
      (constructor; [by eexists|done]).
Qed.

Lemma highest_Permutation f l1 l2 m :
  l1 ≡ₚ l2 → highest f l1 m = highest f l2 m.
Proof.
  intros Hp. revert m.
  induction Hp as [|x l1 l2 _ IH|x y l|l1 l2 l3 _ IH1 _ IH2]; intros m; simpl.
  - done.
  - apply IH.
  - f_equal. destruct (f x), (f y); simpl; lia.
  - by rewrite IH1.
Qed.

(** The inner loop on two orders of the same nodes: the same nodes are
    kept, all of one score. *)
Lemma selectHighest_Permutation f l1 l2 :
  l1 ≡ₚ l2 →
  match selectHighest f l1 MinInt64 [], selectHighest f l2 MinInt64 [] with
  | Some s1, Some s2 =>
      s1 ≡ₚ s2 ∧ s1 ⊆ l1 ∧ ∃ h, Forall (λ x, f x = Some h) s1
  | None, None => True
  | _, _ => False
  end.
Proof.
  intros Hp.
  destruct (decide (scored f l1)) as [H1|H1].
  - assert (H2 : scored f l2) by (unfold scored; by rewrite <- Hp).
    rewrite !selectHighest_filter by done.
    rewrite <- (highest_Permutation f l1 l2 _ Hp).
    destruct (_ =? _); simpl; (split; [by rewrite Hp|]);
      (split; [apply list_subseteq_filter|]);
      eexists; apply Forall_forall; intros x Hx;
      by apply list_elem_of_filter in Hx as [? _].
  - assert (H2 : ¬ scored f l2) by (unfold scored; by rewrite <- Hp).
    by rewrite !selectHighest_unscored.
Qed.

(** The outer loop on two orders of the same nodes. *)
Lemma pickAmong_Permutation fs l1 l2 :
  l1 ≡ₚ l2 →
  match pickAmong fs l1, pickAmong fs l2 with
  | Some r1, Some r2 => r1 = r2 ∨ (r1 ∈ l1 ∧ r2 ∈ l1 ∧ tied fs r1 r2)
  | None, None => True
  | _, _ => False
  end.
Proof.
  revert l1 l2. induction fs as [|f fs IH]; intros l1 l2 Hp; simpl.
  - unfold index. simpl.
    destruct l1 as [|x1 l1], l2 as [|x2 l2]; simpl; try done.
    + by apply Permutation_nil_cons in Hp.
    + symmetry in Hp. by apply Permutation_nil_cons in Hp.
    + right. split; [left|]. split; [|constructor].
      rewrite Hp. left.
  - pose proof (selectHighest_Permutation f l1 l2 Hp) as Hs.
    destruct (selectHighest f l1 MinInt64 []) as [s1|],
             (selectHighest f l2 MinInt64 []) as [s2|]; simpl; try done.
    destruct Hs as (Hs & Hsub & h & Hh).
    specialize (IH _ _ Hs).
    assert (Hlift : ∀ r1 r2,
               r1 = r2 ∨ r1 ∈ s1 ∧ r2 ∈ s1 ∧ tied fs r1 r2 →
               r1 = r2 ∨ r1 ∈ l1 ∧ r2 ∈ l1 ∧ tied (f :: fs) r1 r2).
    { intros r1 r2 [->|(Hr1 & Hr2 & Ht)]; [by left|right].
      split; [by apply Hsub|]. split; [by apply Hsub|].
      constructor; [|done].
      rewrite Forall_forall in Hh. by rewrite (Hh _ Hr1), (Hh _ Hr2). }
    destruct s1 as [|a [|b s1]].
    + apply Permutation_nil_l in Hs as <-.
      destruct (pickAmong fs []); [|done]. by apply Hlift.
    + apply Permutation_singleton_l in Hs as <-. by left.
    + destruct s2 as [|a' [|b' s2]].
      * by apply Permutation_nil_r in Hs.
      * symmetry in Hs. by apply Permutation_singleton_l in Hs.
      * destruct (pickAmong fs (a :: b :: s1)) as [r1|],
                 (pickAmong fs (a' :: b' :: s2)) as [r2|]; try done.
        by apply Hlift.
Qed.

(** Where a kept element stood before the filtering. *)
Lemma filter_split (P : string → Prop) `{!∀ x, Decision (P x)} l :
  ∀ kept r rest,
    filter P l = kept ++ r :: rest →
    ∃ pre post, l = pre ++ r :: post ∧ filter P pre = kept.
Proof.
  induction l as [|x l IH]; intros kept r rest; [by destruct kept|].
  rewrite filter_cons. destruct (decide (P x)) as [Px|Px].
  - destruct kept as [|k kept]; simpl.
    + intros [= -> _]. by exists [], l.
    + intros [= -> Hl]. destruct (IH _ _ _ Hl) as (pre & post & -> & Hpre).
      exists (k :: pre), post. split; [done|].
      by rewrite filter_cons, decide_True, Hpre.
  - intros Hl. destruct (IH _ _ _ Hl) as (pre & post & -> & Hpre).
    exists (x :: pre), post. split; [done|].
    by rewrite filter_cons, decide_False.
Qed.

(** The two loops return the first, in the order they range in, of the
    nodes that no score function tells apart from it. *)
Lemma pickAmong_firstTied fs : ∀ l r,
  pickAmong fs l = Some r → firstTied fs l r.
Proof.
  induction fs as [|f fs IH]; intros l r; simpl.
  - destruct l as [|x l]; [done|]. intros [= ->]. by exists [], l.
  - destruct (decide (scored f l)) as [Hsc|Hsc];
      [|by rewrite selectHighest_unscored].
    rewrite selectHighest_filter by done. simpl.
    replace (if highest f l MinInt64 =? MinInt64 then [] else [])
      with (@nil string) by (by destruct (_ =? _)).
    simpl. set (h := highest f l MinInt64).
    intros Hr.
    assert (∃ kept rest,
              filter (λ x, f x = Some h) l = kept ++ r :: rest
              ∧ Forall (λ x, ¬ tied fs r x) kept)
      as (kept & rest & Hsel & Hkept).
    { destruct (filter (λ x, f x = Some h) l) as [|a [|b sel]] eqn:Esel.
      - destruct (IH _ _ Hr) as (pre & post & E & _). by destruct pre.
      - injection Hr as ->. by exists [], [].
      - destruct (IH _ _ Hr) as (pre & post & -> & Hpre). by exists pre, post. }
    assert (Hfr : f r = Some h).
    { assert (Hin : r ∈ filter (λ x, f x = Some h) l).
      { rewrite Hsel. apply elem_of_app. right. left. }
      by apply list_elem_of_filter in Hin as [? _]. }
    destruct (filter_split _ l kept r rest Hsel) as (pre & post & -> & Hpre).
    exists pre, post. split; [done|].
    apply Forall_forall. intros x Hx Htied.
    apply Forall_cons in Htied as [Hf Hrest].
    assert (Hxk : x ∈ kept).
    { rewrite <- Hpre. apply list_elem_of_filter. split; [congruence|done]. }
    rewrite Forall_forall in Hkept. by apply (Hkept x Hxk).
Qed.

Variable GetEarliestPodStartTime : Victims → option Time.

(** C7, as the code has it.  Two runs over the same map, each ranging
    over the keys in its own order, both return or both panic; when they
    return, they return the same node, or two nodes of the map that every
    score function in use scores alike; and on a map that is not empty
    each run returns the first, in its own order, of the keys that no
    score function in use tells apart from the one it returns. *)
Theorem pickOneNodeForPreemption_same_up_to_ties
  (keys1 keys2 : list string) (nodesToVictims : gmap string Victims)
  (scoreFuncs : list (string → option Z)) :
  iterationOrder keys1 nodesToVictims →
  iterationOrder keys2 nodesToVictims →
  match pickOneNodeForPreemption GetEarliestPodStartTime keys1
                                 nodesToVictims scoreFuncs,
        pickOneNodeForPreemption GetEarliestPodStartTime keys2
                                 nodesToVictims scoreFuncs with
  | Some r1, Some r2 =>
      (r1 = r2
       ∨ (r1 ∈ keys1 ∧ r2 ∈ keys1
          ∧ tied (scoreFuncsUsed GetEarliestPodStartTime nodesToVictims
                                 scoreFuncs) r1 r2))
      ∧ (nodesToVictims ≠ ∅ →
         firstTied (scoreFuncsUsed GetEarliestPodStartTime nodesToVictims
                                   scoreFuncs) keys1 r1
         ∧ firstTied (scoreFuncsUsed GetEarliestPodStartTime nodesToVictims
                                     scoreFuncs) keys2 r2)
  | None, None => True
  | _, _ => False
  end.
Proof.
  unfold iterationOrder, pickOneNodeForPreemption, scoreFuncsUsed.
  intros H1 H2.
  destruct (Z.eqb_spec (Z.of_nat (size nodesToVictims)) 0) as [Hz|Hnz].
  { split; [by left|]. intros Hne. destruct Hne.
    apply map_size_empty_iff. lia. }
  set (fs := if Z.of_nat (length scoreFuncs) =? 0
             then defaultScoreFuncs GetEarliestPodStartTime nodesToVictims
             else scoreFuncs).
  pose proof (pickAmong_Permutation fs keys1 keys2) as Hp.
  pose proof (pickAmong_firstTied fs keys1) as Hf1.
  pose proof (pickAmong_firstTied fs keys2) as Hf2.
  destruct (pickAmong fs keys1) as [r1|], (pickAmong fs keys2) as [r2|];
    try (apply Hp; by rewrite H1, H2).
  split; [apply Hp; by rewrite H1, H2|]. intros _. split; auto.
Qed.

End ScorerFacts.

(** Two nodes with like victims: ranging over [n1] first returns [n1],
    ranging over [n2] first returns [n2]. *)
Lemma pickOneNodeForPreemption_depends_on_order :
  iterationOrder ["n1"; "n2"] Scenarios.twoAlike
  ∧ iterationOrder ["n2"; "n1"] Scenarios.twoAlike
  ∧ pickOneNodeForPreemption Scenarios.startedTogether ["n1"; "n2"]
                             Scenarios.twoAlike [] = Some "n1"
  ∧ pickOneNodeForPreemption Scenarios.startedTogether ["n2"; "n1"]
                             Scenarios.twoAlike [] = Some "n2".
Proof.
  unfold iterationOrder.
  replace ((map_to_list Scenarios.twoAlike).*1) with ["n1"; "n2"]
    by (vm_compute; reflexivity).
  split; [done|]. split; [apply Permutation_swap|].
  split; vm_compute; reflexivity.
Qed.

Lemma pickOneNodeForPreemption_same_up_to_ties_witness :
  let fs := scoreFuncsUsed Scenarios.startedTogether Scenarios.twoAlike [] in
  tied fs "n1" "n2"
  ∧ firstTied fs ["n1"; "n2"] "n1"
  ∧ firstTied fs ["n2"; "n1"] "n2".
Proof.
  assert (H1 : iterationOrder ["n1"; "n2"] Scenarios.twoAlike).
  { unfold iterationOrder.
    replace ((map_to_list Scenarios.twoAlike).*1) with ["n1"; "n2"]
      by (vm_compute; reflexivity).
    reflexivity. }
  assert (H2 : iterationOrder ["n2"; "n1"] Scenarios.twoAlike).
  { unfold iterationOrder.
    replace ((map_to_list Scenarios.twoAlike).*1) with ["n1"; "n2"]
      by (vm_compute; reflexivity).
    apply Permutation_swap. }
  pose proof (pickOneNodeForPreemption_same_up_to_ties
                Scenarios.startedTogether _ _ _ [] H1 H2) as H.
  change (pickOneNodeForPreemption Scenarios.startedTogether ["n1"; "n2"]
            Scenarios.twoAlike []) with (Some "n1") in H.
  change (pickOneNodeForPreemption Scenarios.startedTogether ["n2"; "n1"]
            Scenarios.twoAlike []) with (Some "n2") in H.
  destruct H as [[H|(_ & _ & H)] Hfirst]; [discriminate H|].
  split; [exact H|]. apply Hfirst.
  intros E. apply (f_equal (λ m : gmap string Victims, m !! "n1")) in E.
  vm_compute in E. discriminate E.
Defined.

(** ** The dry run *)

Section DryRunFacts.
Variable SelectVictimsOnNode : Pod → NodeInfo → list Pod * Z * Status.
Variable numCandidates : Z.
Hypothesis cap_range : 0 ≤ numCandidates ≤ MaxInt32.








Lemma validSchedule_length (sched : list nat) n :
  NoDup sched → Forall (λ i, (i < n)%nat) sched → (length sched ≤ n)%nat.
Proof.
  intros Hnd Hall.
  assert (H : sched ⊆+ seq 0 n).
  { apply NoDup_submseteq; [done|].
    intros i Hi. rewrite Forall_forall in Hall. apply elem_of_seq.
    specialize (Hall i Hi). lia. }
  apply submseteq_length in H. by rewrite length_seq in H.
Qed.


End DryRunFacts.



Import Notions.

(** ** Go strings: splitting and joining *)

Lemma append_cons a s t : String a s +:+ t = String a (s +:+ t).
Proof. reflexivity. Qed.

Lemma append_assoc s t u : (s +:+ t) +:+ u = s +:+ (t +:+ u).
Proof.
  induction s as [|a s IH]; [done|]. by rewrite !append_cons, IH.
Qed.

Section SplitJoin.
Variable sep : ascii.

Lemma Split_nonempty s : Split s sep ≠ [].
Proof.
  destruct s as [|c s]; simpl; [done|].
  destruct (Ascii.eqb c sep); [done|]. by destruct (Split s sep).
Qed.

Lemma Split_cons_other c s :
  Ascii.eqb c sep = false →
  ∃ w ws, Split s sep = w :: ws ∧ Split (String c s) sep = String c w :: ws.
Proof.
  intros Hc. simpl. rewrite Hc.
  destruct (Split s sep) as [|w ws] eqn:E; [by apply Split_nonempty in E|].
  by exists w, ws.
Qed.

Lemma Split_app s t :
  Split (s +:+ String sep t) sep = Split s sep ++ Split t sep.
Proof.
  induction s as [|c s IH]; simpl.
  - by rewrite Ascii.eqb_refl.
  - destruct (Ascii.eqb c sep); [by rewrite IH|].
    rewrite IH. destruct (Split s sep) as [|w ws] eqn:E; [|done].
    by apply Split_nonempty in E.
Qed.

Lemma Split_no_sep s : hasSep sep s = false → Split s sep = [s].
Proof.
  induction s as [|c s IH]; simpl; [done|].
  destruct (Ascii.eqb c sep); simpl; [done|].
  intros H. by rewrite (IH H).
Qed.

Lemma Split_length_sep s : hasSep sep s = true → (2 ≤ length (Split s sep))%nat.
Proof.
  induction s as [|c s IH]; simpl; [done|].
  destruct (Ascii.eqb c sep); simpl.
  - intros _. pose proof (Split_nonempty s). destruct (Split s sep); [done|simpl; lia].
  - intros H. specialize (IH H). destruct (Split s sep); simpl in *; lia.
Qed.

Lemma Join_cons x y l :
  Join (x :: y :: l) (String sep "") = x +:+ String sep (Join (y :: l) (String sep "")).
Proof. reflexivity. Qed.

Lemma Join_Split s : Join (Split s sep) (String sep "") = s.
Proof.
  induction s as [|c s IH]; simpl; [done|].
  destruct (Ascii.eqb_spec c sep) as [->|Hne].
  - destruct (Split s sep) as [|w ws] eqn:E; [by apply Split_nonempty in E|].
    by rewrite Join_cons, IH.
  - destruct (Split s sep) as [|w ws] eqn:E; [by apply Split_nonempty in E|].
    destruct ws as [|w' ws]; [by rewrite <- IH|].
    rewrite Join_cons in *. by rewrite <- IH.
Qed.

Lemma Join_cons_nonempty x l :
  l ≠ [] →
  Join (x :: l) (String sep "") = x +:+ String sep (Join l (String sep "")).
Proof. by destruct l. Qed.

Lemma Join_snoc l x :
  l ≠ [] → Join (l ++ [x]) (String sep "") = Join l (String sep "") +:+ String sep x.
Proof.
  induction l as [|y l IH]; [done|]. intros _.
  destruct l as [|z l]; [done|].
  change ((y :: z :: l) ++ [x]) with (y :: ((z :: l) ++ [x])).
  rewrite (Join_cons_nonempty y ((z :: l) ++ [x])) by done.
  rewrite IH by done. rewrite (Join_cons_nonempty y (z :: l)) by done.
  by rewrite append_assoc.
Qed.
End SplitJoin.


Section SplitFieldsFacts.
Variable sep : ascii.
Lemma Split_fields s : Forall (λ w, hasSep sep w = false) (Split s sep).
Proof.
  induction s as [|c s IH]; simpl; [by constructor|].
  destruct (Ascii.eqb c sep) eqn:Hc; [by constructor|].
  destruct (Split s sep) as [|w ws]; [by repeat constructor; simpl; rewrite Hc|].
  apply Forall_cons in IH as [Hw Hws]. constructor; [|done].
  simpl. by rewrite Hc.
Qed.
End SplitFieldsFacts.

Section CheckMPIJob.
Import QueueSort.

Lemma checkMPIJob_classify name :
  checkMPIJob name = classify (reverse (Split name "-")).
Proof.
  unfold checkMPIJob.
  destruct (reverse (Split name "-")) as [|x r] eqn:E.
  { apply (f_equal reverse) in E. rewrite reverse_involutive in E.
    by apply Split_nonempty in E. }
  apply (f_equal reverse) in E. rewrite reverse_involutive, reverse_cons in E.
  rewrite E, length_app. simpl length.
  replace (Z.of_nat (length (reverse r) + 1) - 1)
    with (Z.of_nat (length (reverse r))) by lia.
  rewrite index_of_nat, lookup_app_r, Nat.sub_diag by done. simpl.
  rewrite Nat2Z.id, take_app_length.
  destruct (String.eqb x "launcher"); [done|].
  destruct r as [|y r'].
  - simpl. done.
  - rewrite reverse_cons, length_app. simpl length.
    replace (Z.of_nat (length (reverse r') + 1 + 1) - 2)
      with (Z.of_nat (length (reverse r'))) by lia.
    rewrite index_of_nat, <- app_assoc, lookup_app_r, Nat.sub_diag by done.
    simpl. rewrite Nat2Z.id, take_app_length. done.
Qed.

Lemma reverse_Split_no_sep name :
  hasSep "-" name = false → reverse (Split name "-") = [name].
Proof. intros H. by rewrite Split_no_sep. Qed.

Lemma reverse_Split_sep name :
  hasSep "-" name = true → ∃ x y r, reverse (Split name "-") = x :: y :: r.
Proof.
  intros H. apply Split_length_sep in H.
  rewrite <- length_reverse in H.
  destruct (reverse (Split name "-")) as [|x [|y r]]; simpl in H; try lia.
  by exists x, y, r.
Qed.

(** X1.  [checkMPIJob] panics exactly on the names that have no hyphen
    and are not [launcher]: such a name is a single field other than
    [launcher], and the field before the last is indexed at -1. *)
Theorem checkMPIJob_panics_iff (name : string) :
  checkMPIJob name = None ↔ hasSep "-" name = false ∧ name ≠ "launcher".
Proof.
  rewrite checkMPIJob_classify.
  destruct (hasSep "-" name) eqn:Hs.
  - destruct (reverse_Split_sep _ Hs) as (x & y & r & ->). simpl.
    destruct (String.eqb x "launcher"); [naive_solver|].
    destruct (String.eqb y "worker"); naive_solver.
  - rewrite reverse_Split_no_sep by done. simpl.
    destruct (String.eqb_spec name "launcher"); naive_solver.
Qed.

(** The name a list of fields comes from. *)
Lemma Split_Join_eq name l : Split name "-" = l → name = Join l "-".
Proof. intros <-. by rewrite Join_Split. Qed.

(** X2.  [checkMPIJob] takes a name for a pod of the job [job]
    exactly when the name is [job-launcher], or [job-worker-i] for a last
    field [i] without hyphen other than [launcher]; [launcher] and
    [worker-i] alone count as pods of the job with the empty name. *)
Theorem checkMPIJob_elastic_iff (name job : string) :
  checkMPIJob name = Some (job, true)
  ↔ (name = "launcher" ∧ job = "")
    ∨ name = job +:+ "-launcher"
    ∨ ∃ i, hasSep "-" i = false ∧ i ≠ "launcher"
           ∧ (name = job +:+ "-worker-" +:+ i
              ∨ (job = "" ∧ name = "worker-" +:+ i)).
Proof.
  split.
  - rewrite checkMPIJob_classify.
    destruct (reverse (Split name "-")) as [|x r] eqn:E; [done|].
    apply (f_equal reverse) in E. rewrite reverse_involutive, reverse_cons in E.
    pose proof (Split_fields "-" name) as Hf. rewrite E in Hf.
    apply Split_Join_eq in E. simpl.
    destruct (String.eqb_spec x "launcher") as [->|Hx].
    + intros [= <-]. destruct r as [|y r]; [by left|right; left].
      rewrite E, reverse_cons. apply Join_snoc.
      intros H. by apply app_nil in H as [_ ?].
    + destruct r as [|y r]; [done|].
      destruct (String.eqb_spec y "worker") as [->|Hy]; [|done].
      intros [= <-]. right; right. exists x.
      apply Forall_app in Hf as [_ Hx']. apply Forall_inv in Hx'.
      split; [done|]. split; [done|].
      rewrite reverse_cons in E. destruct r as [|z r].
      * right. by split.
      * left. rewrite E, !Join_snoc.
        -- by rewrite append_assoc.
        -- rewrite reverse_cons. intros H. by apply app_nil in H as [_ ?].
        -- intros H. by apply app_nil in H as [_ ?].
  - intros [[-> ->]|[->|(i & Hi & Hl & [->|[-> ->]])]].
    + reflexivity.
    + rewrite checkMPIJob_classify.
      change (job +:+ "-launcher") with (job +:+ String "-" "launcher").
      rewrite Split_app. change (Split "launcher" "-") with ["launcher"%string].
      rewrite reverse_app. simpl. by rewrite reverse_involutive, Join_Split.
    + rewrite checkMPIJob_classify.
      change (job +:+ "-worker-" +:+ i)
        with (job +:+ String "-" ("worker" +:+ String "-" i)).
      rewrite !Split_app, (Split_no_sep _ i Hi).
      change (Split "worker" "-") with ["worker"%string].
      rewrite !reverse_app. simpl.
      destruct (String.eqb_spec i "launcher"); [done|].
      by rewrite reverse_involutive, Join_Split.
    + rewrite checkMPIJob_classify.
      change ("worker-" +:+ i) with ("worker" +:+ String "-" i).
      rewrite !Split_app, (Split_no_sep _ i Hi).
      change (Split "worker" "-") with ["worker"%string]. simpl.
      by destruct (String.eqb_spec i "launcher").
Qed.
End CheckMPIJob.

(** ** The queue ordering, continued *)

Section QueueSortMore.
Import QueueSort.
Variable time_Parse : string → option Time.

Lemma upstream_Less_key a b :
  QueueSortUpstream.Less time_Parse a b
  = (PodPriority (QPod b) <? PodPriority (QPod a))
    || ((PodPriority (QPod a) =? PodPriority (QPod b))
        && (queueTimestamp time_Parse a <? queueTimestamp time_Parse b)).
Proof.
  unfold QueueSortUpstream.Less, queueTimestamp, parseOrZero, Before.
  destruct (Annotations (QPod a) !! "retract-check-var"),
           (Annotations (QPod b) !! "retract-check-var"); reflexivity.
Qed.

(** X7.  [Less] of the version without the residency test is a strict
    weak order: no pod goes before itself, going before is transitive, and
    so is being ordered neither way. *)
Theorem upstream_Less_strict_weak_order (a b c : QueuedPodInfo) :
  let less := QueueSortUpstream.Less time_Parse in
  less a a = false
  ∧ (less a b = true → less b c = true → less a c = true)
  ∧ (less a b = false → less b a = false →
     less b c = false → less c b = false →
     less a c = false ∧ less c a = false).
Proof.
  simpl. rewrite !upstream_Less_key. repeat split; intros; lia.
Qed.

Lemma wellNamed_checkMPIJob name :
  wellNamed name → ∃ r, checkMPIJob name = Some r.
Proof.
  intros [Hs| ->]; [|eexists; reflexivity].
  rewrite checkMPIJob_classify.
  destruct (reverse_Split_sep _ Hs) as (x & y & r & ->). simpl.
  destruct (String.eqb x "launcher"); [by eexists|].
  destruct (String.eqb y "worker"); by eexists.
Qed.

Lemma jobAmongPods_spec job pods :
  (∀ pod, pod ∈ pods → Namespace pod = "my-ns" → wellNamed (Name pod)) →
  ∃ b, jobAmongPods job pods = Some b
       ∧ (b = true ↔ ∃ pod, pod ∈ pods ∧ Namespace pod = "my-ns"
                             ∧ checkMPIJob (Name pod) = Some (job, true)).
Proof.
  induction pods as [|pod pods IH]; intros Hw; simpl.
  - exists false. split; [done|]. split; [done|].
    intros (pod & Hp & _). by apply elem_of_nil in Hp.
  - destruct IH as (b & Hb & Hiff).
    { intros p Hp. apply Hw. by right. }
    destruct (String.eqb_spec (Namespace pod) "my-ns") as [Hns|Hns]; simpl.
    + destruct (wellNamed_checkMPIJob (Name pod)) as ([j isj] & Ej).
      { apply Hw; [left|done]. }
      rewrite Ej. simpl.
      destruct isj; simpl.
      * destruct (String.eqb_spec j job) as [->|Hj].
        -- exists true. split; [done|]. split; [|done]. intros _.
           exists pod. split; [left|done].
        -- exists b. split; [done|]. rewrite Hiff. split.
           ++ intros (p & Hp & ?). exists p. split; [by right|done].
           ++ intros (p & Hp & Hn & Hc).
              apply elem_of_cons in Hp as [->|Hp]; [congruence|].
              by exists p.
      * exists b. split; [done|]. rewrite Hiff. split.
        -- intros (p & Hp & ?). exists p. split; [by right|done].
        -- intros (p & Hp & Hn & Hc).
           apply elem_of_cons in Hp as [->|Hp]; [congruence|].
           by exists p.
    + exists b. split; [done|]. rewrite Hiff. split.
      * intros (p & Hp & ?). exists p. split; [by right|done].
      * intros (p & Hp & Hn & Hc).
        apply elem_of_cons in Hp as [->|Hp]; [congruence|].
        by exists p.
Qed.

Lemma jobAmongNodes_spec client job nodes :
  (∀ node pods pod, node ∈ nodes → ListPods client (NodeName node) = Some pods →
     pod ∈ pods → Namespace pod = "my-ns" → wellNamed (Name pod)) →
  ∃ b, jobAmongNodes client job nodes = Some b
       ∧ (b = true ↔ ∃ node pods pod,
             node ∈ nodes ∧ ListPods client (NodeName node) = Some pods
             ∧ pod ∈ pods ∧ Namespace pod = "my-ns"
             ∧ checkMPIJob (Name pod) = Some (job, true)).
Proof.
  induction nodes as [|node nodes IH]; intros Hw; simpl.
  - exists false. split; [done|]. split; [done|].
    intros (n & ? & ? & Hn & _). by apply elem_of_nil in Hn.
  - destruct IH as (b & Hb & Hiff).
    { intros n ps p Hn. apply Hw. by right. }
    assert (Hlift : (∃ node0 pods pod, node0 ∈ nodes
                   ∧ ListPods client (NodeName node0) = Some pods
                   ∧ pod ∈ pods ∧ Namespace pod = "my-ns"
                   ∧ checkMPIJob (Name pod) = Some (job, true)) →
               ∃ node0 pods pod, node0 ∈ node :: nodes
                   ∧ ListPods client (NodeName node0) = Some pods
                   ∧ pod ∈ pods ∧ Namespace pod = "my-ns"
                   ∧ checkMPIJob (Name pod) = Some (job, true)).
    { intros (n & ps & p & Hn & ?). exists n, ps, p. split; [by right|done]. }
    destruct (ListPods client (NodeName node)) as [pods|] eqn:El.
    + destruct (jobAmongPods_spec job pods) as (b1 & -> & Hiff1).
      { intros p. by apply (Hw node pods p); [left|]. }
      simpl. destruct b1.
      * exists true. split; [done|]. split; [|done]. intros _.
        destruct (proj1 Hiff1 eq_refl) as (p & ?).
        exists node, pods, p. split; [left|done].
      * exists b. split; [done|]. rewrite Hiff. split; [done|].
        intros (n & ps & p & Hn & Hl & Hp).
        apply elem_of_cons in Hn as [->|Hn]; [|by exists n, ps, p].
        rewrite El in Hl. injection Hl as <-.
        assert (false = true); [|done]. apply Hiff1. by exists p.
    + exists b. split; [done|]. rewrite Hiff. split; [done|].
      intros (n & ps & p & Hn & Hl & Hp).
      apply elem_of_cons in Hn as [->|Hn]; [congruence|by exists n, ps, p].
Qed.

(** X3.  [isMPIJobInNode] panics for a plugin without client, which is
    the plugin [New] builds: the listing is called on the nil interface.
    For a plugin that has a client, in a cluster whose pods of the
    namespace [my-ns] all have names that [checkMPIJob] can read, it
    returns, and it returns true exactly when a pod of [my-ns] listed on
    some listed node is read as a pod of the job. *)
Theorem isMPIJobInNode_needs_client_finds_listed_pod
  (pl : PrioritySort) (job : string) :
  (client pl = None → isMPIJobInNode pl job = None)
  ∧ (∀ clientset,
       client pl = Some clientset → clusterWellNamed clientset →
       ∃ b, isMPIJobInNode pl job = Some b
            ∧ (b = true ↔ ∃ pod, listed clientset pod
                                  ∧ checkMPIJob (Name pod) = Some (job, true))).
Proof.
  unfold isMPIJobInNode. split; [by intros ->|].
  intros clientset -> Hw. simpl.
  destruct (ListNodes clientset) as [nodes|] eqn:En.
  - destruct (jobAmongNodes_spec clientset job nodes) as (b & -> & Hiff).
    { intros n ps p Hn Hl Hp Hns. apply Hw. by exists nodes, n, ps. }
    exists b. split; [done|]. rewrite Hiff. split.
    + intros (n & ps & p & ? & ? & ? & ? & ?). exists p. split; [|done].
      by exists nodes, n, ps.
    + intros (p & (ns & n & ps & Hns & ? & ? & ? & ?) & ?).
      rewrite En in Hns. injection Hns as <-. by exists n, ps, p.
  - exists false. split; [done|]. split; [done|].
    intros (p & (ns & n & ps & Hns & _) & _). congruence.
Qed.

(** What [checkMPIJob] answers with a name it can read. *)
Lemma checkMPIJob_kind name job kind :
  checkMPIJob name = Some (job, kind) →
  wellNamed name ∧ kind = elasticName name.
Proof.
  rewrite checkMPIJob_classify. unfold elasticName, wellNamed.
  destruct (hasSep "-" name) eqn:Hs.
  - intros H. split; [by left|].
    destruct (reverse (Split name "-")) as [|x [|y r]]; simpl in *;
      [done| |].
    + destruct (String.eqb x "launcher"); [|done]. by injection H as _ <-.
    + destruct (String.eqb x "launcher"); [by injection H as _ <-|].
      destruct (String.eqb y "worker"); by injection H as _ <-.
  - rewrite reverse_Split_no_sep by done. simpl.
    destruct (String.eqb_spec name "launcher") as [->|]; [|done].
    intros [= _ <-]. split; [by right|done].
Qed.

(** X4.  The plugin as [New] builds it returns from [Less] exactly on two
    names that [checkMPIJob] can read and that both read as names of pods
    of elastic jobs, or both not; on every other pair it panics. *)
Theorem Less_as_built_returns_iff (a b : QueuedPodInfo) :
  (∃ r, Less time_Parse New a b = Some r)
  ↔ wellNamed (Name (QPod a)) ∧ wellNamed (Name (QPod b))
    ∧ elasticName (Name (QPod a)) = elasticName (Name (QPod b)).
Proof.
  split.
  - intros [r Hr]. unfold Less in Hr.
    destruct (checkMPIJob (Name (QPod a))) as [[na ka]|] eqn:Ea; [|done].
    destruct (checkMPIJob (Name (QPod b))) as [[nb kb]|] eqn:Eb; [|done].
    apply checkMPIJob_kind in Ea as [Ha ->].
    apply checkMPIJob_kind in Eb as [Hb ->].
    do 2 (split; [done|]).
    simpl in Hr.
    by destruct (elasticName (Name (QPod a))),
                (elasticName (Name (QPod b))).
  - intros (Ha & Hb & Hk). unfold Less.
    destruct (wellNamed_checkMPIJob _ Ha) as ([na ka] & Ea).
    destruct (wellNamed_checkMPIJob _ Hb) as ([nb kb] & Eb).
    rewrite Ea, Eb. simpl.
    apply checkMPIJob_kind in Ea as [_ ->].
    apply checkMPIJob_kind in Eb as [_ ->].
    rewrite Hk. rewrite eqb_reflx. simpl. by eexists.
Qed.

End QueueSortMore.

Section QueueSortAsBuilt.
Import QueueSort.
Variable time_Parse : string → option Time.

(** X6.  Whenever the plugin as [New] builds it returns from [Less], it
    returns what the version of the file without the residency test
    returns. *)
Theorem Less_as_built_agrees_with_upstream (a b : QueuedPodInfo) (r : bool) :
  Less time_Parse New a b = Some r →
  r = QueueSortUpstream.Less time_Parse a b.
Proof.
  intros H. apply Less_New_cases in H as (_ & _ & _ & _ & _ & ->).
  by rewrite upstream_Less_key, lessByPriorityAndTime_key.
Qed.

(** X5.  For the plugin as [New] builds it, two pods are left unordered,
    both comparisons returning false, exactly when the comparison of the
    two returns and they have the same priority and the same time: the
    retraction time of a pod that carries one, parsed, its time of entry
    in the queue otherwise. *)
Theorem Less_as_built_unordered_iff_same_key (a b : QueuedPodInfo) :
  incomparable time_Parse New a b
  ↔ (∃ r, Less time_Parse New a b = Some r)
    ∧ PodPriority (QPod a) = PodPriority (QPod b)
    ∧ queueTimestamp time_Parse a = queueTimestamp time_Parse b.
Proof.
  split.
  - intros [Hab Hba]. split; [by eexists|].
    apply Less_New_cases in Hab as (_ & _ & _ & _ & _ & Kab).
    apply Less_New_cases in Hba as (_ & _ & _ & _ & _ & Kba).
    rewrite lessByPriorityAndTime_key in Kab, Kba.
    unfold Time in *. lia.
  - intros ([r Hr] & Hp & Ht).
    apply Less_New_cases in Hr as (na & nb & k & Ea & Eb & _).
    split.
    + rewrite (Less_New_same_kind time_Parse a b na nb k Ea Eb). f_equal.
      rewrite lessByPriorityAndTime_key, Hp, Ht. unfold Time in *. lia.
    + rewrite (Less_New_same_kind time_Parse b a nb na k Eb Ea). f_equal.
      rewrite lessByPriorityAndTime_key, Hp, Ht. unfold Time in *. lia.
Qed.

End QueueSortAsBuilt.

(** ** The running elastic jobs *)

Lemma index_app_at {A} (l k : list A) (i : nat) :
  index (l ++ k) (Z.of_nat (length l + i)) = k !! i.
Proof.
  rewrite index_of_nat, lookup_app_r by lia. f_equal. lia.
Qed.

Lemma addRunningMPIJob_runningJobOf acc pod :
  addRunningMPIJob acc pod
  = noteJob acc <$> runningJobOf (reverse (Split (Name pod) "-")).
Proof.
  unfold addRunningMPIJob.
  destruct (reverse (Split (Name pod) "-")) as [|x r] eqn:E.
  { apply (f_equal reverse) in E. rewrite reverse_involutive in E.
    by apply Split_nonempty in E. }
  apply (f_equal reverse) in E. rewrite reverse_involutive, reverse_cons in E.
  destruct r as [|y r].
  { by rewrite E. }
  rewrite reverse_cons, <- app_assoc in E. simpl in E.
  rewrite E, length_app. simpl length.
  destruct (Z.ltb_spec (Z.of_nat (length (reverse r) + 2)) 2); [lia|].
  replace (Z.of_nat (length (reverse r) + 2) - 1)
    with (Z.of_nat (length (reverse r) + 1)) by lia.
  replace (Z.of_nat (length (reverse r) + 2) - 2)
    with (Z.of_nat (length (reverse r) + 0)) by lia.
  rewrite !index_app_at. simpl.
  replace (Z.to_nat (Z.of_nat (length (reverse r) + 1)))
    with (length (reverse r) + 1)%nat by lia.
  replace (Z.to_nat (Z.of_nat (length (reverse r) + 0)))
    with (length (reverse r)) by lia.
  rewrite take_app_length, take_app_add'; [|done]. simpl take.
  rewrite <- reverse_cons.
  destruct (String.eqb x "launcher" && String.eqb y "elastic"); [done|].
  destruct (String.eqb y "worker"); [|done].
  replace (Z.of_nat (length (reverse r) + 2) - 3)
    with (Z.of_nat (length (reverse r)) - 1) by lia.
  destruct r as [|z r'].
  - done.
  - rewrite (reverse_cons r' z) at 1 2. rewrite length_app. simpl length.
    replace (Z.of_nat (length (reverse r') + 1) - 1)
      with (Z.of_nat (length (reverse r') + 0)) by lia.
    rewrite <- (app_assoc (reverse r') [z]), index_app_at. simpl.
    by destruct (String.eqb z "elastic").
Qed.

Lemma endsElastic_fields job :
  endsElastic job → ∃ r, reverse (Split job "-") = "elastic"%string :: r.
Proof.
  intros [->|[p ->]].
  - by exists [].
  - change (p +:+ "-elastic") with (p +:+ String "-" "elastic").
    rewrite Split_app. change (Split "elastic" "-") with ["elastic"%string].
    rewrite reverse_app. simpl. by eexists.
Qed.

Lemma Join_reverse_Split job r :
  reverse (Split job "-") = r → Join (reverse r) "-" = job.
Proof. intros <-. by rewrite reverse_involutive, Join_Split. Qed.

Lemma snoc_nonempty {A} (l : list A) x : l ++ [x] ≠ [].
Proof. intros H. by apply app_nil in H as [_ ?]. Qed.

Lemma runningJobOf_job name job :
  runningJobOf (reverse (Split name "-")) = Some (Some job)
  ↔ elasticPodOf job name.
Proof.
  split.
  - destruct (reverse (Split name "-")) as [|x [|y r]] eqn:E; try done.
    apply (f_equal reverse) in E.
    rewrite reverse_involutive, !reverse_cons in E.
    pose proof (Split_fields "-" name) as Hf. rewrite E in Hf.
    apply Split_Join_eq in E. simpl.
    destruct (String.eqb_spec x "launcher") as [->|Hx];
      [destruct (String.eqb_spec y "elastic") as [->|Hy]|]; simpl.
    + intros [= <-]. split.
      * rewrite reverse_cons. destruct r as [|z r]; [by left|right].
        exists (Join (reverse (z :: r)) "-"). apply Join_snoc.
        rewrite reverse_cons. apply snoc_nonempty.
      * left. rewrite E, reverse_cons. apply Join_snoc, snoc_nonempty.
    + destruct (String.eqb_spec y "worker") as [->|Hw]; [|done].
      destruct r as [|z r]; [done|].
      destruct (String.eqb_spec z "elastic") as [->|Hz]; [|done].
      intros [= <-]. split.
      * rewrite reverse_cons. destruct r as [|z r]; [by left|right].
        exists (Join (reverse (z :: r)) "-"). apply Join_snoc.
        rewrite reverse_cons. apply snoc_nonempty.
      * right. exists "launcher"%string. split; [done|].
        rewrite E, !Join_snoc, append_assoc; [done| |apply snoc_nonempty].
        rewrite reverse_cons. apply snoc_nonempty.
    + destruct (String.eqb_spec y "worker") as [->|Hw]; [|done].
      destruct r as [|z r]; [done|].
      destruct (String.eqb_spec z "elastic") as [->|Hz]; [|done].
      intros [= <-]. split.
      * rewrite reverse_cons. destruct r as [|z r]; [by left|right].
        exists (Join (reverse (z :: r)) "-"). apply Join_snoc.
        rewrite reverse_cons. apply snoc_nonempty.
      * right. exists x.
        apply Forall_app in Hf as [_ Hx']. apply Forall_inv in Hx'.
        split; [done|].
        rewrite E, !Join_snoc, append_assoc; [done| |apply snoc_nonempty].
        rewrite reverse_cons. apply snoc_nonempty.
  - intros [He [->|(i & Hi & ->)]].
    + destruct (endsElastic_fields _ He) as (r & Hr).
      change (job +:+ "-launcher") with (job +:+ String "-" "launcher").
      rewrite Split_app. change (Split "launcher" "-") with ["launcher"%string].
      rewrite reverse_app, Hr. simpl.
      by rewrite (Join_reverse_Split job ("elastic"%string :: r)).
    + destruct (endsElastic_fields _ He) as (r & Hr).
      change (job +:+ "-worker-" +:+ i)
        with (job +:+ String "-" ("worker" +:+ String "-" i)).
      rewrite !Split_app, (Split_no_sep _ i Hi).
      change (Split "worker" "-") with ["worker"%string].
      rewrite !reverse_app, Hr. simpl.
      rewrite andb_false_r.
      by rewrite (Join_reverse_Split job ("elastic"%string :: r)).
Qed.

Lemma runningJobOf_panics name :
  runningJobOf (reverse (Split name "-")) = None
  ↔ ∃ x, hasSep "-" x = false ∧ name = "worker-" +:+ x.
Proof.
  split.
  - destruct (reverse (Split name "-")) as [|x [|y r]] eqn:E; try done.
    apply (f_equal reverse) in E.
    rewrite reverse_involutive, !reverse_cons in E.
    pose proof (Split_fields "-" name) as Hf. rewrite E in Hf.
    apply Split_Join_eq in E. simpl.
    destruct (String.eqb x "launcher" && String.eqb y "elastic"); [done|].
    destruct (String.eqb_spec y "worker") as [->|Hw]; [|done].
    destruct r as [|z r]; [|by destruct (String.eqb z "elastic")].
    intros _. exists x.
    apply Forall_app in Hf as [_ Hx']. apply Forall_inv in Hx'.
    by split.
  - intros (x & Hx & ->).
    change ("worker-" +:+ x) with ("worker" +:+ String "-" x).
    rewrite Split_app, (Split_no_sep _ x Hx).
    change (Split "worker" "-") with ["worker"%string]. simpl.
    by rewrite andb_false_r.
Qed.

Lemma Contains_elem_of slice target :
  Contains slice target = true ↔ target ∈ slice.
Proof.
  unfold Contains. rewrite existsb_exists. split.
  - intros (x & Hx & He). apply String.eqb_eq in He as <-.
    by apply list_elem_of_In.
  - intros H. exists target. split; [by apply list_elem_of_In|].
    apply String.eqb_refl.
Qed.

Lemma noteJob_spec acc j :
  NoDup acc →
  NoDup (noteJob acc j)
  ∧ ∀ n, n ∈ noteJob acc j ↔ n ∈ acc ∨ j = Some n.
Proof.
  intros Hnd. destruct j as [m|]; simpl; [|naive_solver].
  destruct (Contains acc m) eqn:E.
  - apply Contains_elem_of in E. split; [done|]. naive_solver.
  - assert (m ∉ acc) by (rewrite <- Contains_elem_of; congruence).
    split.
    + apply NoDup_app. split; [done|]. split; [|apply NoDup_singleton].
      intros x Hx ->%list_elem_of_singleton. done.
    + intros n. rewrite elem_of_app, list_elem_of_singleton. naive_solver.
Qed.

Lemma addRunningMPIJobs_spec pods : ∀ acc,
  NoDup acc →
  match addRunningMPIJobs acc pods with
  | Some l =>
      NoDup l
      ∧ (∀ n, n ∈ l ↔ n ∈ acc ∨ ∃ pod, pod ∈ pods ∧ jobOfPod pod = Some (Some n))
      ∧ ∀ pod, pod ∈ pods → jobOfPod pod ≠ None
  | None => ∃ pod, pod ∈ pods ∧ jobOfPod pod = None
  end.
Proof.
  induction pods as [|pod pods IH]; intros acc Hnd; simpl.
  - split; [done|]. split; [|by intros ? ?%elem_of_nil].
    intros n. split; [by left|]. intros [?|(? & ?%elem_of_nil & _)]; done.
  - rewrite addRunningMPIJob_runningJobOf. fold (jobOfPod pod).
    destruct (jobOfPod pod) as [j|] eqn:Ej; simpl.
    + destruct (noteJob_spec acc j Hnd) as [Hnd' Hin].
      specialize (IH _ Hnd').
      destruct (addRunningMPIJobs (noteJob acc j) pods) as [l|].
      * destruct IH as (Hl & Hiff & Hsome). split; [done|]. split.
        -- intros n. rewrite Hiff, Hin. split.
           ++ intros [[?| ->]|(p & Hp & ?)]; [by left|right ..].
              ** exists pod. split; [left|done].
              ** exists p. split; [by right|done].
           ++ intros [?|(p & Hp & Hj)]; [by left; left|].
              apply elem_of_cons in Hp as [->|Hp].
              ** left; right. congruence.
              ** right. by exists p.
        -- intros p [-> |Hp]%elem_of_cons; [congruence|by apply Hsome].
      * destruct IH as (p & Hp & ?). exists p. split; [by right|done].
    + exists pod. split; [left|done].
Qed.

Lemma listRunningFrom_spec client nodes : ∀ acc,
  NoDup acc →
  match listRunningFrom client acc nodes with
  | Some l =>
      NoDup l
      ∧ (∀ n, n ∈ l ↔ n ∈ acc ∨ ∃ pod, onNode client nodes pod
                                       ∧ jobOfPod pod = Some (Some n))
      ∧ ∀ pod, onNode client nodes pod → jobOfPod pod ≠ None
  | None => ∃ pod, onNode client nodes pod ∧ jobOfPod pod = None
  end.
Proof.
  induction nodes as [|node nodes IH]; intros acc Hnd; simpl.
  - split; [done|]. split.
    + intros n. split; [by left|].
      intros [?|(? & (? & ? & ?%elem_of_nil & _) & _)]; done.
    + by intros ? (? & ? & ?%elem_of_nil & _).
  - assert (Hweak : ∀ pod, onNode client nodes pod →
                           onNode client (node :: nodes) pod).
    { intros pod (n & ps & ? & ?). exists n, ps. split; [by right|done]. }
    destruct (ListPods client (NodeName node)) as [pods|] eqn:El.
    + pose proof (addRunningMPIJobs_spec pods acc Hnd) as H1.
      assert (Hhere : ∀ pod, pod ∈ pods → onNode client (node :: nodes) pod).
      { intros pod ?. exists node, pods. split; [left|done]. }
      assert (Hsplit : ∀ pod, onNode client (node :: nodes) pod →
                              pod ∈ pods ∨ onNode client nodes pod).
      { intros pod (n & ps & [-> |Hn]%elem_of_cons & Hl & Hp).
        - left. congruence.
        - right. by exists n, ps. }
      destruct (addRunningMPIJobs acc pods) as [acc'|]; simpl.
      * destruct H1 as (Hnd' & Hiff1 & Hsome1). specialize (IH _ Hnd').
        destruct (listRunningFrom client acc' nodes) as [l|].
        -- destruct IH as (Hl & Hiff & Hsome). split; [done|]. split.
           ++ intros n. rewrite Hiff, Hiff1. split.
              ** intros [[?|(p & ? & ?)]|(p & ? & ?)]; [by left|right ..];
                   exists p; auto.
              ** intros [?|(p & [?|?]%Hsplit & ?)]; [by left; left| |].
                 --- left; right. by exists p.
                 --- right. by exists p.
           ++ intros p [?|?]%Hsplit; auto.
        -- destruct IH as (p & ? & ?). exists p. auto.
      * destruct H1 as (p & ? & ?). exists p. auto.
    + assert (Hsplit : ∀ pod, onNode client (node :: nodes) pod →
                              onNode client nodes pod).
      { intros pod (n & ps & [-> |Hn]%elem_of_cons & Hl & Hp); [congruence|].
        by exists n, ps. }
      specialize (IH _ Hnd).
      destruct (listRunningFrom client acc nodes) as [l|].
      * destruct IH as (Hl & Hiff & Hsome). split; [done|]. split.
        -- intros n. rewrite Hiff. naive_solver.
        -- intros p ?%Hsplit. auto.
      * destruct IH as (p & ? & ?). exists p. auto.
Qed.

(** X8.  When [ListRunningMPIJob] returns, it lists each job once,
    and a job is listed exactly when its name ends in the field [elastic]
    and some pod listed on one of the nodes, of whatever namespace, is its
    launcher or one of its workers. *)
Theorem ListRunningMPIJob_lists_each_elastic_job_once
  (client : ClientSet) (nodes : list Node) (jobs : list string) :
  ListRunningMPIJob client nodes = Some jobs →
  NoDup jobs
  ∧ ∀ job, job ∈ jobs ↔ ∃ pod, onNode client nodes pod
                                 ∧ elasticPodOf job (Name pod).
Proof.
  intros H. pose proof (listRunningFrom_spec client nodes [] (NoDup_nil_2)) as Hs.
  unfold ListRunningMPIJob in H. rewrite H in Hs.
  destruct Hs as (Hnd & Hiff & _). split; [done|].
  intros job. rewrite Hiff. unfold jobOfPod.
  setoid_rewrite runningJobOf_job. split.
  - intros [?%elem_of_nil|?]; done.
  - by right.
Qed.

(** X9.  [ListRunningMPIJob] panics exactly when some pod on one of
    the nodes is named [worker-x] with [x] free of hyphens: the third field
    from the end is then indexed at -1. *)
Theorem ListRunningMPIJob_panics_iff (client : ClientSet) (nodes : list Node) :
  ListRunningMPIJob client nodes = None
  ↔ ∃ pod x, onNode client nodes pod ∧ hasSep "-" x = false
             ∧ Name pod = "worker-" +:+ x.
Proof.
  pose proof (listRunningFrom_spec client nodes [] (NoDup_nil_2)) as Hs.
  unfold ListRunningMPIJob. split.
  - intros H. rewrite H in Hs. destruct Hs as (pod & Hp & Hj).
    apply runningJobOf_panics in Hj as (x & ? & ?). by exists pod, x.
  - intros (pod & x & Hp & Hx & Hn).
    destruct (listRunningFrom client [] nodes) as [l|]; [|done].
    destruct Hs as (_ & _ & Hsome). destruct (Hsome pod Hp).
    apply runningJobOf_panics. by exists x.
Qed.

(** ** Idle GPUs and GPU requests *)

Lemma wrap64_add_l a b : wrap64 (wrap64 a + b) = wrap64 (a + b).
Proof.
  unfold wrap64. f_equal.
  replace ((a + 2 ^ 63) mod 2 ^ 64 - 2 ^ 63 + b + 2 ^ 63)
    with ((a + 2 ^ 63) mod 2 ^ 64 + b) by lia.
  rewrite Zplus_mod_idemp_l. f_equal. lia.
Qed.


Lemma wrap64_add_r a b : wrap64 (a + wrap64 b) = wrap64 (a + b).
Proof. by rewrite Z.add_comm, wrap64_add_l, Z.add_comm. Qed.

Lemma wrap64_idemp a : wrap64 (wrap64 a) = wrap64 a.
Proof. apply wrap64_small, wrap64_range. Qed.

Lemma wrap64_sub a b : wrap64 (wrap64 a - wrap64 b) = wrap64 (a - b).
Proof.
  unfold wrap64.
  replace ((a + 2 ^ 63) `mod` 2 ^ 64 - 2 ^ 63
           - ((b + 2 ^ 63) `mod` 2 ^ 64 - 2 ^ 63) + 2 ^ 63)
    with ((a + 2 ^ 63) `mod` 2 ^ 64 - (b + 2 ^ 63) `mod` 2 ^ 64 + 2 ^ 63)
    by lia.
  f_equal.
  rewrite <- Zplus_mod_idemp_l, <- Zminus_mod, Zplus_mod_idemp_l.
  f_equal. lia.
Qed.

Lemma allocatedOnPod_sum pod : ∀ acc,
  wrap64 (allocatedOnPod acc pod) = wrap64 (acc + gpuRequests pod).
Proof.
  unfold allocatedOnPod, gpuRequests.
  induction (Containers pod) as [|c cs IH]; intros acc; simpl.
  - f_equal. lia.
  - destruct (Requests c !! "nvidia.com/gpu") as [r|]; simpl.
    + rewrite IH, wrap64_add_l. f_equal. lia.
    + by rewrite IH.
Qed.

Lemma allocatedOnPods_sum pods : ∀ acc,
  wrap64 (fold_left allocatedOnPod pods acc)
  = wrap64 (acc + foldr (λ pod sum, gpuRequests pod + sum) 0 pods).
Proof.
  induction pods as [|pod pods IH]; intros acc; simpl.
  - f_equal. lia.
  - rewrite IH, <- wrap64_add_l, allocatedOnPod_sum, wrap64_add_l.
    f_equal. lia.
Qed.

(** X10.  [idleGPUsinNodes] is the capacity of all nodes less the
    requests of all containers of the pods listed on them, in [int64]
    arithmetic; a node whose pods cannot be listed counts with its whole
    capacity. *)
Theorem idleGPUsinNodes_is_capacity_less_requests
  (client : ClientSet) (nodes : list Node) :
  idleGPUsinNodes client nodes
  = wrap64 (totalCapacity nodes - totalRequests client nodes).
Proof.
  unfold idleGPUsinNodes.
  assert (H : ∀ cap alloc,
    let '(c, a) :=
      fold_left
        (λ '(cap, alloc) node,
           let cap :=
             match Capacity node !! "nvidia.com/gpu" with
             | Some val => wrap64 (cap + val)
             | None => cap
             end in
           match ListPods client (NodeName node) with
           | None => (cap, alloc)
           | Some pods => (cap, fold_left allocatedOnPod pods alloc)
           end)
        nodes (cap, alloc) in
    wrap64 c = wrap64 (cap + totalCapacity nodes)
    ∧ wrap64 a = wrap64 (alloc + totalRequests client nodes)).
  { induction nodes as [|node nodes IH]; intros cap alloc; simpl.
    - split; f_equal; lia.
    - unfold gpuCapacity at 1, gpuRequestsOn at 1.
      set (cap' := match Capacity node !! "nvidia.com/gpu" with
                   | Some val => wrap64 (cap + val) | None => cap end).
      assert (Hcap : wrap64 cap' = wrap64 (cap + default 0
                       (Capacity node !! "nvidia.com/gpu"))).
      { unfold cap'. destruct (Capacity node !! _); simpl.
        - apply wrap64_idemp.
        - f_equal. lia. }
      destruct (ListPods client (NodeName node)) as [pods|].
      + specialize (IH cap' (fold_left allocatedOnPod pods alloc)).
        destruct (fold_left _ nodes _) as [c a]. destruct IH as [-> ->].
        split.
        * rewrite <- wrap64_add_l, Hcap, wrap64_add_l. f_equal. lia.
        * rewrite <- wrap64_add_l, allocatedOnPods_sum, wrap64_add_l.
          f_equal. lia.
      + specialize (IH cap' alloc).
        destruct (fold_left _ nodes _) as [c a]. destruct IH as [-> ->].
        split.
        * rewrite <- wrap64_add_l, Hcap, wrap64_add_l. f_equal. lia.
        * f_equal; lia. }
  specialize (H 0 0). destruct (fold_left _ nodes _) as [c a].
  destruct H as [Hc Ha]. simpl in Hc, Ha.
  by rewrite <- wrap64_sub, Hc, Ha, wrap64_sub.
Qed.

Lemma lastGpuRequest_snoc cs c :
  lastGpuRequest (cs ++ [c]) = default 0 (Requests c !! "nvidia.com/gpu").
Proof. unfold lastGpuRequest. by rewrite fold_left_app. Qed.

(** X11.  [Dynamic] reads the request of the preemptor off the last
    container that sets one, [Retrieve] reads the request of a backfilled
    pod off the last container; for a pod whose last container sets the
    request the two readings agree. *)
Theorem request_readings_agree_when_last_container_sets
  (cs : list Container) :
  (∀ c, last cs = Some c → is_Some (Requests c !! "nvidia.com/gpu")) →
  lastSetGpuRequest cs = lastGpuRequest cs.
Proof.
  destruct cs as [|c0 cs0] using rev_ind; [done|]. clear IHcs0.
  rewrite last_snoc. intros H. destruct (H _ eq_refl) as [r Hr].
  rewrite lastGpuRequest_snoc. unfold lastSetGpuRequest.
  rewrite fold_left_app. simpl. by rewrite Hr.
Qed.

(** ** Scaling, retrieval and [Dynamic], continued *)

Section ScalingFacts.
Lemma MPIJobScaling_found ns n d w job :
  mpijobs w !! (ns, n) = Some job →
  MPIJobScaling ns n d w
  = (Some tt,
     {| mpijobs :=
          <[ (ns, n) :=
               {| replicas := Some (wrap64 (default 0 (replicas job) + d));
                  annotations :=
                    if 0 <? d then
                      Some (<[ "scale-out" :=
                                 annotation (default ∅ (annotations job))
                                            "scale-out" +:+ Itoa d ]>
                              (default ∅ (annotations job)))
                    else annotations job |} ]> (mpijobs w);
        retracted := retracted w |}).
Proof.
  intros Hj. unfold MPIJobScaling. rewrite Hj.
  destruct (0 <? d); [|done].
  destruct (annotations job) as [a|]; simpl; [done|].
  by rewrite insert_empty.
Qed.

(** X12.  Scaling a job up by [d] and down by [d] again brings the
    replicas back to where they were and leaves the [scale-out] annotation
    behind, extended by the digits of [d]; no other job and no pod is
    touched. *)
Theorem MPIJobScaling_up_then_down_keeps_annotation
  (ns n : string) (d r : Z) (w : World) (job : MPIJob) :
  mpijobs w !! (ns, n) = Some job →
  replicas job = Some r → MinInt64 ≤ r ≤ MaxInt64 → 0 < d →
  let w' := (MPIJobScaling ns n (- d) (MPIJobScaling ns n d w).2).2 in
  mpijobs w' !! (ns, n)
  = Some {| replicas := Some r;
            annotations :=
              Some (<[ "scale-out" :=
                         annotation (default ∅ (annotations job)) "scale-out"
                         +:+ Itoa d ]> (default ∅ (annotations job))) |}
  ∧ (∀ key, key ≠ (ns, n) → mpijobs w' !! key = mpijobs w !! key)
  ∧ retracted w' = retracted w.
Proof.
  intros Hj Hr Hrange Hd. simpl.
  rewrite (MPIJobScaling_found _ _ d w job Hj). simpl.
  erewrite MPIJobScaling_found; [|apply lookup_insert_eq]. simpl.
  rewrite Hr. simpl.
  destruct (Z.ltb_spec 0 d); [|lia]. destruct (Z.ltb_spec 0 (- d)); [lia|].
  split; [|split; [|done]].
  - rewrite lookup_insert_eq. do 3 f_equal.
    rewrite wrap64_add_l. replace (r + d + - d) with r by lia.
    by apply wrap64_small.
  - intros key Hk. by rewrite !lookup_insert_ne.
Qed.
End ScalingFacts.

Section RetrieveMore.
Variable time_Parse : string → option Time.

Lemma gatherScaleOut_world jobs w : (gatherScaleOut jobs w).2 = w.
Proof.
  induction jobs as [|j jobs IH]; simpl; [done|].
  unfold bind, GetMPIJob, lift, ret. simpl.
  destruct (mpijobs w !! ("my-ns", j)) as [job|]; [|done].
  destruct (gatherScaleOut jobs w) as [[more|] w1]; simpl in *; subst w1;
    [|done].
  by destruct (default ∅ (annotations job) !! "scale-out").
Qed.

(** What the first pass accepts, the second pass never gives up on. *)
Lemma applyCandidates_after_coversDeficit backfilledPods cs : ∀ t w,
  coversDeficit t cs = true →
  (applyCandidates backfilledPods t cs w).1 = None
  ∨ (applyCandidates backfilledPods t cs w).1 = Some (true, EmptyString).
Proof.
  induction cs as [|c cs IH]; intros t w; simpl; [done|].
  intros Hc. unfold bind.
  destruct (act backfilledPods c w) as [[[]|] w1]; [|by left].
  destruct (wrap64 (t - gpus c) <=? 0); [by right|]. by apply IH.
Qed.

(** What [Retrieve] can come to: a panic, a failure that left the world
    as it was, or a success. *)
Lemma Retrieve_outcome
  (client : ClientSet) (podNow : Pod) (table : gmap string (list float))
  (nodes : list Node) (idleGPUs requestGPUs : Z)
  (runningMPIJobs : list string) (w w' : World)
  (r : option (bool * string)) :
  Retrieve time_Parse client podNow table nodes idleGPUs requestGPUs
           runningMPIJobs w = (r, w') →
  r = None
  ∨ (r = Some (false, EmptyString) ∧ w' = w)
  ∨ r = Some (true, EmptyString).
Proof.
  unfold Retrieve. unfold bind at 1.
  pose proof (gatherScaleOut_world runningMPIJobs w) as Hw.
  destruct (gatherScaleOut runningMPIJobs w) as [[js|] w1]; simpl in Hw;
    subst w1; [|intros [= <- <-]; by left].
  unfold bind at 1. unfold lift at 1.
  destruct (buildCandidates table _ js) as [cands|];
    [|intros [= <- <-]; by left].
  destruct (_ =? 0); [intros [= <- <-]; right; by left|].
  destruct (coversDeficit _ _) eqn:Ec; simpl;
    [|intros [= <- <-]; right; by left].
  intros Hrun.
  destruct (applyCandidates_after_coversDeficit
              (gatherBackfilled time_Parse client podNow nodes) _ _ w Ec)
    as [H|H]; rewrite Hrun in H; simpl in H; [by left|right; by right].
Qed.

(** X13.  A returning [Retrieve] names no node, and when it reports
    failure it has retracted no pod and scaled no job. *)
Theorem Retrieve_failure_changes_nothing
  (client : ClientSet) (podNow : Pod) (table : gmap string (list float))
  (nodes : list Node) (idleGPUs requestGPUs : Z)
  (runningMPIJobs : list string) (w w' : World) (ok : bool) (s : string) :
  Retrieve time_Parse client podNow table nodes idleGPUs requestGPUs
           runningMPIJobs w = (Some (ok, s), w') →
  s = EmptyString ∧ (ok = false → w' = w).
Proof.
  intros Hrun.
  destruct (Retrieve_outcome _ _ _ _ _ _ _ _ _ _ Hrun)
    as [H|[[H ->]|H]]; [discriminate| |];
    injection H as -> ->; by split.
Qed.

Lemma sumGpus_app l k : sumGpus (l ++ k) = sumGpus l + sumGpus k.
Proof. induction l as [|c l IH]; simpl; [done|]. unfold sumGpus in *. simpl. lia. Qed.

Lemma sumGpus_Permutation l k : l ≡ₚ k → sumGpus l = sumGpus k.
Proof.
  induction 1 as [|x l k _ IH|x y l|l k m _ IH1 _ IH2]; unfold sumGpus in *;
    simpl; lia.
Qed.

Lemma sumGpus_nonneg l : Forall (λ c, modest (gpus c)) l → 0 ≤ sumGpus l.
Proof.
  induction 1 as [|c l [? ?] _ IH]; unfold sumGpus in *; simpl; lia.
Qed.

(** The first pass accepts exactly the lists that are not empty and
    cover what is needed. *)
Lemma coversDeficit_iff cs : ∀ t,
  Forall (λ c, modest (gpus c)) cs → - 2 ^ 62 ≤ t ≤ 2 ^ 62 →
  coversDeficit t cs = true ↔ cs ≠ [] ∧ t ≤ Z.max 0 (sumGpus cs).
Proof.
  induction cs as [|c cs IH]; intros t Hall Ht; simpl; [naive_solver|].
  apply Forall_cons in Hall as [[Hc1 Hc2] Hall].
  pose proof (sumGpus_nonneg cs Hall) as Hs.
  rewrite wrap64_small
    by (unfold MinInt64, MaxInt64, MaxInt32 in *; lia).
  change (sumGpus (c :: cs)) with (gpus c + sumGpus cs).
  destruct (Z.leb_spec (t - gpus c) 0) as [Hle|Hgt].
  - split; [|done]. intros _. split; [done|]. lia.
  - rewrite IH; [|done|unfold MaxInt32 in *; lia]. split.
    + intros [_ H]. split; [done|]. lia.
    + intros [_ H]. split; [|lia].
      intros ->. unfold sumGpus in H. simpl in H. lia.
Qed.

(** The prefix a successful second pass acted on: nothing shorter
    covers. *)
Lemma applyCandidates_minimal backfilledPods cs : ∀ t w w' s,
  applyCandidates backfilledPods t cs w = (Some (true, s), w') →
  Forall (λ c, modest (gpus c)) cs →
  - 2 ^ 62 ≤ t ≤ 2 ^ 62 →
  ∃ init last rest,
    cs = init ++ last :: rest
    ∧ actAll backfilledPods (init ++ [last]) w = (Some tt, w')
    ∧ t ≤ sumGpus (init ++ [last])
    ∧ (init ≠ [] → sumGpus init < t)
    ∧ (t ≤ 0 → init = []).
Proof.
  induction cs as [|c cs IH]; intros t w w' s; simpl; [done|].
  intros Hrun Hall Ht. apply Forall_cons in Hall as [[Hc1 Hc2] Hall].
  unfold bind in Hrun at 1.
  destruct (act backfilledPods c w) as [[[]|] w1] eqn:Eact; [|done].
  rewrite wrap64_small in Hrun
    by (unfold MinInt64, MaxInt64, MaxInt32 in *; lia).
  destruct (Z.leb_spec (t - gpus c) 0) as [Hle|Hgt].
  - injection Hrun as <- <-.
    exists [], c, cs. split; [done|]. simpl. unfold bind. rewrite Eact.
    split; [done|]. unfold sumGpus. simpl. split; [lia|done].
  - destruct (IH _ _ _ _ Hrun Hall)
      as (init & last & rest & -> & Hact & Hsum & Hmin & _);
      [unfold MaxInt32 in *; lia|].
    exists (c :: init), last, rest. split; [done|]. simpl. unfold bind at 1.
    rewrite Eact. split; [done|].
    change (sumGpus (c :: init ++ [last])) with (gpus c + sumGpus (init ++ [last])).
    change (sumGpus (c :: init)) with (gpus c + sumGpus init).
    split; [lia|]. split; [|lia]. intros _.
    destruct init as [|c' init]; [unfold sumGpus; simpl; lia|].
    specialize (Hmin ltac:(done)). lia.
Qed.

(** The GPU counts of the built candidates are those of the pods and
    jobs they were built from. *)
Lemma buildCandidates_gpus (P : Z → Prop) table backfilledPods jobs w js cands :
  Forall (λ pod, P (lastGpuRequest (Containers pod))) backfilledPods →
  (∀ n job, n ∈ jobs → mpijobs w !! ("my-ns", n) = Some job →
     P (Atoi (annotation (default ∅ (annotations job)) "scale-out"))) →
  (gatherScaleOut jobs w).1 = Some js →
  buildCandidates table backfilledPods js = Some cands →
  Forall (λ c, P (gpus c)) cands.
Proof.
  intros Hpods Hjobs Hjs Eb.
  destruct (gatherScaleOut_reads jobs w) as [_ Hfrom].
  specialize (Hfrom _ Hjs).
  unfold buildCandidates in Eb.
  destruct (numbered (backfilledInfo table) 0 _) as [c1|] eqn:E1; [|done].
  destruct (numbered (scaleInfo table) 0 _) as [c2|] eqn:E2; [|done].
  simpl in Eb. injection Eb as <-.
  apply numbered_Forall2 in E1, E2. apply Forall_app. split.
  - eapply Forall2_Forall_r; [exact E1|].
    eapply Forall_impl; [exact Hpods|].
    intros pod Hp c (j & Hinfo). unfold backfilledInfo in Hinfo.
    destruct (throughput _ _ _); [|done]. by injection Hinfo as <-.
  - eapply Forall2_Forall_r; [exact E2|].
    eapply Forall_impl; [exact Hfrom|].
    intros job (n & Hn & Hjob) c (j & Hinfo). unfold scaleInfo in Hinfo.
    destruct (replicas job); simpl in Hinfo; [|done].
    repeat (destruct (throughput _ _ _); simpl in Hinfo; try done).
    injection Hinfo as <-.
    simpl. by eapply Hjobs.
Qed.

(** The second pass reaches the job store through one name only. *)
Lemma act_other_jobs backfilledPods c w key :
  key ≠ ("my-ns", "tensorflow-mnist-elastic") →
  mpijobs (act backfilledPods c w).2 !! key = mpijobs w !! key.
Proof.
  intros Hkey. unfold act. destruct (kind c =? 0).
  - unfold bind, lift. by destruct (index backfilledPods (ref c)).
  - unfold MPIJobScaling. destruct (mpijobs w !! _); [|done].
    simpl. by rewrite lookup_insert_ne.
Qed.

Lemma applyCandidates_other_jobs backfilledPods cs : ∀ t w key,
  key ≠ ("my-ns", "tensorflow-mnist-elastic") →
  mpijobs (applyCandidates backfilledPods t cs w).2 !! key
  = mpijobs w !! key.
Proof.
  induction cs as [|c cs IH]; intros t w key Hkey; simpl; [done|].
  unfold bind. pose proof (act_other_jobs backfilledPods c w key Hkey) as Ha.
  destruct (act backfilledPods c w) as [[[]|] w1]; simpl in *; [|done].
  destruct (_ <=? 0); [done|]. by rewrite IH.
Qed.

(** X30.  Whatever the candidates, and whether it returns or
    panics, [Retrieve] changes no job but [tensorflow-mnist-elastic] of the
    namespace [my-ns], the name written into its call of
    [MPIJobScaling]. *)
Theorem Retrieve_changes_no_other_job
  (client : ClientSet) (podNow : Pod) (table : gmap string (list float))
  (nodes : list Node) (idleGPUs requestGPUs : Z)
  (runningMPIJobs : list string) (w : World) (key : string * string) :
  key ≠ ("my-ns", "tensorflow-mnist-elastic") →
  mpijobs (Retrieve time_Parse client podNow table nodes idleGPUs
                    requestGPUs runningMPIJobs w).2 !! key
  = mpijobs w !! key.
Proof.
  intros Hkey. unfold Retrieve. unfold bind at 1.
  pose proof (gatherScaleOut_world runningMPIJobs w) as Hw.
  destruct (gatherScaleOut runningMPIJobs w) as [[js|] w1]; simpl in Hw;
    subst w1; [|done].
  unfold bind at 1. unfold lift at 1.
  destruct (buildCandidates table _ js) as [cands|]; [|done].
  destruct (_ =? 0); [done|].
  destruct (coversDeficit _ _); simpl; [|done].
  by apply applyCandidates_other_jobs.
Qed.

Section Modest.
Variables (client : ClientSet) (podNow : Pod)
          (table : gmap string (list float)) (nodes : list Node)
          (idleGPUs requestGPUs : Z) (runningMPIJobs : list string)
          (w : World).
Hypothesis need_range : - 2 ^ 62 ≤ requestGPUs - idleGPUs ≤ 2 ^ 62.
Hypothesis pods_modest :
  Forall (λ pod, modest (lastGpuRequest (Containers pod)))
         (gatherBackfilled time_Parse client podNow nodes).
Hypothesis jobs_modest :
  ∀ n job, n ∈ runningMPIJobs → mpijobs w !! ("my-ns", n) = Some job →
    modest (Atoi (annotation (default ∅ (annotations job)) "scale-out")).

(** X14.  For GPU counts that an [int32] holds and a deficit within
    [2^62], a returning [Retrieve] reports success exactly when there is a candidate and the
    candidates together contribute at least the deficit
    [requestGPUs - idleGPUs]. *)
Theorem Retrieve_succeeds_iff_candidates_cover (ok : bool) (s : string)
  (w' : World) :
  Retrieve time_Parse client podNow table nodes idleGPUs requestGPUs
           runningMPIJobs w = (Some (ok, s), w') →
  ∃ scaleOutMPIJobs candidates,
    (gatherScaleOut runningMPIJobs w).1 = Some scaleOutMPIJobs
    ∧ buildCandidates table
        (gatherBackfilled time_Parse client podNow nodes) scaleOutMPIJobs
      = Some candidates
    ∧ (ok = true
       ↔ candidates ≠ []
         ∧ requestGPUs - idleGPUs ≤ Z.max 0 (sumGpus candidates)).
Proof.
  unfold Retrieve. unfold bind at 1.
  pose proof (gatherScaleOut_world runningMPIJobs w) as Hw.
  pose proof (λ js cands,
                buildCandidates_gpus modest table _ runningMPIJobs w js cands
                                     pods_modest jobs_modest) as Hg.
  destruct (gatherScaleOut runningMPIJobs w) as [[js|] w1]; simpl in Hw;
    subst w1; [|done].
  unfold bind at 1. unfold lift at 1.
  destruct (buildCandidates table _ js) as [cands|] eqn:Eb; [|done].
  specialize (Hg _ _ eq_refl Eb).
  intros Hrun. exists js, cands. do 2 (split; [done|]).
  assert (Hperm : sortCandidates cands ≡ₚ cands).
  { unfold sortCandidates. by rewrite !SliceStable_Permutation. }
  assert (Hcov : coversDeficit (requestGPUs - idleGPUs) (sortCandidates cands)
                 = true
                 ↔ cands ≠ []
                   ∧ requestGPUs - idleGPUs ≤ Z.max 0 (sumGpus cands)).
  { rewrite coversDeficit_iff; [|by rewrite Hperm|done].
    rewrite (sumGpus_Permutation _ _ Hperm). split; intros [Hne ?]; (split; [|done]).
    - intros ->. by apply Permutation_nil_r in Hperm.
    - intros E. rewrite E in Hperm. by apply Permutation_nil_l in Hperm. }
  destruct (Z.eqb_spec (Z.of_nat (length cands)) 0) as [Hz|Hz].
  { injection Hrun as <- <- <-. destruct cands; [|done]. naive_solver. }
  rewrite wrap64_small in Hrun
    by (unfold MinInt64, MaxInt64; lia).
  destruct (coversDeficit _ _) eqn:Ec; simpl in Hrun.
  - destruct (applyCandidates_after_coversDeficit
                (gatherBackfilled time_Parse client podNow nodes) _ _ w Ec)
      as [H|H]; rewrite Hrun in H; simpl in H; [done|].
    injection H as -> ->. split; [intros _|done]. by apply Hcov.
  - injection Hrun as <- <- <-. split; [done|]. intros H.
    apply Hcov in H. congruence.
Qed.

(** X15.  For GPU counts that an [int32] holds and a deficit within
    [2^62], a successful [Retrieve] has applied a prefix of the sorted
    candidates and nothing else; the prefix is not empty, the candidates
    before its last, where there are any, do not cover the deficit, and
    without a deficit it is the first candidate alone. *)
Theorem Retrieve_acts_on_shortest_covering_prefix (s : string) (w' : World) :
  Retrieve time_Parse client podNow table nodes idleGPUs requestGPUs
           runningMPIJobs w = (Some (true, s), w') →
  ∃ scaleOutMPIJobs candidates init last rest,
    (gatherScaleOut runningMPIJobs w).1 = Some scaleOutMPIJobs
    ∧ buildCandidates table
        (gatherBackfilled time_Parse client podNow nodes) scaleOutMPIJobs
      = Some candidates
    ∧ sortCandidates candidates = init ++ last :: rest
    ∧ actAll (gatherBackfilled time_Parse client podNow nodes)
             (init ++ [last]) w = (Some tt, w')
    ∧ (init ≠ [] → sumGpus init < requestGPUs - idleGPUs)
    ∧ (requestGPUs ≤ idleGPUs → init = []).
Proof.
  unfold Retrieve. unfold bind at 1.
  pose proof (gatherScaleOut_world runningMPIJobs w) as Hw.
  pose proof (λ js cands,
                buildCandidates_gpus modest table _ runningMPIJobs w js cands
                                     pods_modest jobs_modest) as Hg.
  destruct (gatherScaleOut runningMPIJobs w) as [[js|] w1]; simpl in Hw;
    subst w1; [|done].
  unfold bind at 1. unfold lift at 1.
  destruct (buildCandidates table _ js) as [cands|] eqn:Eb; [|done].
  specialize (Hg _ _ eq_refl Eb).
  destruct (_ =? 0); [done|].
  destruct (coversDeficit _ _); simpl; [|done].
  rewrite wrap64_small by (unfold MinInt64, MaxInt64; lia).
  intros Hrun.
  apply applyCandidates_minimal in Hrun
    as (init & last & rest & E & Hact & _ & Hmin & Hnone); [| |done].
  - exists js, cands, init, last, rest. repeat (split; [done|]).
    intros ?. apply Hnone. lia.
  - unfold sortCandidates. by rewrite !SliceStable_Permutation.
Qed.
End Modest.

(** X16.  [Retrieve] panics, before retracting or scaling anything,
    as soon as one gathered backfilled pod has a model the table does not
    know, or a request that is negative or not below the length of the
    model's row. *)
Theorem Retrieve_panics_on_unknown_model_or_request
  (client : ClientSet) (podNow : Pod) (table : gmap string (list float))
  (nodes : list Node) (idleGPUs requestGPUs : Z)
  (runningMPIJobs : list string) (w : World) (pod : Pod) :
  pod ∈ gatherBackfilled time_Parse client podNow nodes →
  let request := lastGpuRequest (Containers pod) in
  let row := default [] (table !! annotation (Annotations pod) "model-name") in
  request < 0 ∨ Z.of_nat (length row) ≤ request →
  Retrieve time_Parse client podNow table nodes idleGPUs requestGPUs
           runningMPIJobs w = (None, w).
Proof.
  intros Hin request row Hbad.
  assert (Hnone : ∀ i, backfilledInfo table i pod = None).
  { intros i. unfold backfilledInfo, throughput, index. fold request row.
    destruct (Z.ltb_spec request 0); [done|].
    rewrite lookup_ge_None_2; [done|]. lia. }
  assert (Hb : ∀ js, buildCandidates table
                       (gatherBackfilled time_Parse client podNow nodes) js
                     = None).
  { intros js. unfold buildCandidates.
    assert (∀ l i, pod ∈ l → numbered (backfilledInfo table) i l = None) as Hn.
    { induction l as [|p l IH]; intros i Hp; [by apply elem_of_nil in Hp|].
      simpl. apply elem_of_cons in Hp as [<-|Hp]; [by rewrite Hnone|].
      destruct (backfilledInfo table i p); [|done]. simpl.
      by rewrite IH. }
    by rewrite Hn. }
  unfold Retrieve, bind, lift.
  pose proof (gatherScaleOut_world runningMPIJobs w) as Hw.
  destruct (gatherScaleOut runningMPIJobs w) as [[js|] w1]; simpl in Hw;
    subst w1; [|done].
  by rewrite Hb.
Qed.
End RetrieveMore.

Section DynamicFacts.
Variable time_Parse : string → option Time.

(** The loop of [Dynamic] only reads, and the job it settles on is the
    one it started with or a running job that qualifies. *)
Lemma bestScaleOut_spec table jobs : ∀ name0 max0 w,
  (bestScaleOut table jobs name0 max0 w).2 = w
  ∧ ∀ name max,
      (bestScaleOut table jobs name0 max0 w).1 = Some (name, max) →
      (name = name0 ∧ max = max0)
      ∨ (name ∈ jobs
         ∧ ∃ job, mpijobs w !! ("my-ns", name) = Some job
                  ∧ default ∅ (annotations job) !! "scale-out" = None
                  ∧ 0 ≤ wrap64 (default 0 (replicas job) + 1) ≤ 5).
Proof.
  induction jobs as [|j jobs IH]; intros name0 max0 w; simpl.
  - split; [done|]. intros name max [= <- <-]. by left.
  - unfold bind, GetMPIJob, lift. simpl.
    destruct (mpijobs w !! ("my-ns", j)) as [job|] eqn:Ej; [|done].
    assert (Hright : ∀ n m, (bestScaleOut table jobs n m w).2 = w
      ∧ ∀ name max, (bestScaleOut table jobs n m w).1 = Some (name, max) →
          (name = n ∧ max = m)
          ∨ (name ∈ j :: jobs
             ∧ ∃ job, mpijobs w !! ("my-ns", name) = Some job
                  ∧ default ∅ (annotations job) !! "scale-out" = None
                  ∧ 0 ≤ wrap64 (default 0 (replicas job) + 1) ≤ 5)).
    { intros n m. destruct (IH n m w) as [Hw Hres]. split; [done|].
      intros name max H. destruct (Hres _ _ H) as [?|(? & ?)]; [by left|right].
      split; [by right|done]. }
    destruct (Z.ltb_spec 5 (wrap64 (default 0 (replicas job) + 1))) as [|Hle];
      [apply Hright|].
    unfold throughput.
    destruct (index _ (wrap64 (default 0 (replicas job) + 1))) as [hi|] eqn:Ehi;
      simpl; [|done].
    destruct (index _ (wrap64 (default 0 (replicas job) + 1) - 1)) as [lo|];
      simpl; [|done].
    destruct (PrimFloat.ltb max0 (hi - lo)); [|apply Hright].
    destruct (default ∅ (annotations job) !! "scale-out") eqn:Ea;
      [apply Hright|].
    destruct (Hright j (hi - lo)%float) as [Hw Hres]. split; [done|].
    intros name max H. right. destruct (Hres _ _ H) as [[-> ->]|?]; [|done].
    split; [left|]. exists job. repeat (split; [done|]).
    unfold index in Ehi. destruct (Z.ltb_spec (wrap64 (default 0 (replicas job) + 1)) 0);
      [done|lia].
Qed.

(** X18.  A returning [Dynamic] never nominates a node: the name in
    its result is empty, also with the status [Success]; the status is
    [Success], and then [Retrieve] has reported success, or
    [Unschedulable]. *)
Theorem Dynamic_never_nominates
  (client : ClientSet) (pod : Pod) (w w' : World)
  (result : PostFilterResult) (status : Status) :
  Dynamic time_Parse client pod w = (Some (result, status), w') →
  NominatedNodeName result = EmptyString
  ∧ (code status = Success ∨ code status = Unschedulable)
  ∧ (code status = Success →
     ∃ nodes jobs,
       ListNodes client = Some nodes
       ∧ ListRunningMPIJob client nodes = Some jobs
       ∧ Retrieve time_Parse client pod scalableModelData nodes
                  (idleGPUsinNodes client nodes)
                  (lastSetGpuRequest (Containers pod)) jobs w
         = (Some (true, EmptyString), w')).
Proof.
  unfold Dynamic. unfold bind at 1. unfold lift at 1.
  destruct (ListNodes client) as [nodes|] eqn:En; [|done].
  unfold bind at 1. unfold lift at 1.
  destruct (ListRunningMPIJob client nodes) as [jobs|] eqn:El; [|done].
  unfold bind at 1.
  destruct (Retrieve _ _ _ _ _ _ _ _ w) as [[[ok s]|] w1] eqn:Er; [|done].
  assert (s = EmptyString ∧ (ok = false → w1 = w)) as [-> Hsame].
  { destruct (Retrieve_outcome _ _ _ _ _ _ _ _ _ _ _ Er)
      as [H|[[H ->]|H]]; [discriminate| |];
      injection H as -> ->; by split. }
  destruct ok.
  - intros [= <- <- <-]. split; [done|]. split; [by left|]. intros _.
    by exists nodes, jobs.
  - destruct (_ =? 0).
    + intros [= <- <- <-]. split; [done|]. split; [by right|done].
    + unfold bind at 1.
      destruct (bestScaleOut _ _ _ _ w1) as [[[name max]|] w2]; [|done].
      unfold bind. destruct (PrimFloat.ltb 0 max).
      * destruct (MPIJobScaling _ _ _ w2) as [[[]|] w3]; [|done].
        intros [= <- <- <-]. split; [done|]. split; [by right|done].
      * intros [= <- <- <-]. split; [done|]. split; [by right|done].
Qed.

(** X19.  A [Dynamic] that answers [Unschedulable] has changed
    nothing, or it has scaled out by one worker one running job that had no
    [scale-out] annotation and would run at most five workers, while some
    GPU was idle; it has retracted no pod. *)
Theorem Dynamic_scales_out_at_most_one_job
  (client : ClientSet) (pod : Pod) (w w' : World)
  (result : PostFilterResult) (status : Status) :
  Dynamic time_Parse client pod w = (Some (result, status), w') →
  code status = Unschedulable →
  w' = w
  ∨ scaledOutOne client w w'.
Proof.
  unfold Dynamic. unfold bind at 1. unfold lift at 1.
  destruct (ListNodes client) as [nodes|] eqn:En; [|done].
  unfold bind at 1. unfold lift at 1.
  destruct (ListRunningMPIJob client nodes) as [jobs|] eqn:El; [|done].
  unfold bind at 1.
  destruct (Retrieve _ _ _ _ _ _ _ _ w) as [[[ok s]|] w1] eqn:Er; [|done].
  assert (s = EmptyString ∧ (ok = false → w1 = w)) as [-> Hsame].
  { destruct (Retrieve_outcome _ _ _ _ _ _ _ _ _ _ _ Er)
      as [H|[[H ->]|H]]; [discriminate| |];
      injection H as -> ->; by split. }
  destruct ok; [by intros [= <- <- <-]|]. rewrite (Hsame eq_refl).
  destruct (Z.eqb_spec (idleGPUsinNodes client nodes) 0) as [|Hidle].
  { intros [= <- <- <-] _. by left. }
  unfold bind at 1.
  destruct (bestScaleOut_spec scalableModelData jobs EmptyString 0%float w)
    as [Hw Hres].
  destruct (bestScaleOut _ _ _ _ w) as [[[name max]|] w2]; simpl in Hw;
    subst w2; [|done].
  unfold bind. destruct (PrimFloat.ltb 0 max) eqn:Emax.
  - destruct (Hres _ _ eq_refl) as [[_ ->]|(Hin & job & Hjob & Hann & Hrep)];
      [done|].
    rewrite (MPIJobScaling_found _ _ 1 w job Hjob). simpl.
    intros [= <- <- <-] _. right. exists nodes, jobs, name, job.
    repeat (split; [done|]). do 4 f_equal.
    unfold annotation. by rewrite Hann.
  - intros [= <- <- <-] _. by left.
Qed.
End DynamicFacts.

Section Stability.
Context {A : Type} (P : A → Prop) `{!∀ x, Decision (P x)}.

(** A stable sort keeps the order of the elements it does not tell
    apart. *)
Lemma insertStable_filter (less : A → A → bool) x l :
  (∀ y, P x → P y → less y x = false) →
  filter P (insertStable less x l) = filter P (x :: l).
Proof.
  intros Hless. induction l as [|y l IH]; simpl; [done|].
  destruct (less y x) eqn:E; [|done].
  rewrite (filter_cons _ y), IH, !filter_cons.
  destruct (decide (P y)) as [Py|]; [|done].
  destruct (decide (P x)) as [Px|]; [|done].
  specialize (Hless y Px Py). congruence.
Qed.

Lemma SliceStable_filter (less : A → A → bool) l :
  (∀ x y, P x → P y → less y x = false) →
  filter P (SliceStable less l) = filter P l.
Proof.
  intros Hless. induction l as [|x l IH]; [done|].
  change (SliceStable less (x :: l))
    with (insertStable less x (SliceStable less l)).
  rewrite insertStable_filter by auto. by rewrite !filter_cons, IH.
Qed.
End Stability.

(** X17.  The two stable sorts of [Retrieve] keep the candidates of
    one contribution and one recorded cost in the order they had before
    the sorting. *)
Theorem sortCandidates_keeps_order_of_ties (g t : Z)
  (cs : list retrieveCandidate) :
  filter (sameKeys g t) (sortCandidates cs) = filter (sameKeys g t) cs.
Proof.
  unfold sortCandidates.
  rewrite !(SliceStable_filter (sameKeys g t)); [done|..];
    intros x y [Hx1 Hx2] [Hy1 Hy2]; lia.
Qed.

(** ** The candidate list *)

Section CandidateListFacts.
Variable cap : nat.
Hypothesis cap_range : Z.of_nat cap ≤ MaxInt32.

Lemma holds_length cl cs : holds cap cl cs → length (items cl) = cap.
Proof.
  intros [_ ->]. rewrite length_app, length_fmap, length_take, length_replicate.
  lia.
Qed.

Lemma newCandidateList_holds :
  ∃ cl, newCandidateList (Z.of_nat cap) = Some cl ∧ holds cap cl [].
Proof.
  unfold newCandidateList. destruct (Z.ltb_spec (Z.of_nat cap) 0); [lia|].
  eexists. split; [done|]. split; simpl; [done|].
  rewrite Nat2Z.id, take_nil. simpl. f_equal. lia.
Qed.

Lemma candidateList_add_holds cl cs c :
  holds cap cl cs → Z.of_nat (length cs) < MaxInt32 →
  ∃ cl', candidateList_add cl c = Some cl' ∧ holds cap cl' (cs ++ [c]).
Proof.
  intros Hh Hk. pose proof (holds_length _ _ Hh) as Hlen.
  destruct Hh as [Hidx Hitems]. unfold candidateList_add.
  rewrite Hlen, Hidx, !wrap32_small by (unfold MaxInt32 in *; lia).
  replace (Z.of_nat (length cs) - 1 + 1) with (Z.of_nat (length cs)) by lia.
  destruct (Z.ltb_spec (Z.of_nat (length cs)) (Z.of_nat cap)).
  - destruct (Z.ltb_spec (Z.of_nat (length cs)) 0); [lia|].
    eexists. split; [done|]. split; simpl.
    + rewrite length_app. simpl. lia.
    + rewrite Hitems, Nat2Z.id.
      rewrite !take_ge by (rewrite ?length_app; simpl; lia).
      replace (length cs) with (length (Some <$> cs) + 0)%nat at 1
        by (rewrite length_fmap; lia).
      rewrite insert_app_r.
      destruct (cap - length cs)%nat as [|m] eqn:Em; [lia|]. simpl.
      rewrite fmap_app, <- app_assoc. simpl. do 3 f_equal.
      rewrite length_app. simpl. lia.
  - eexists. split; [done|]. split; simpl.
    + rewrite length_app. simpl. lia.
    + rewrite Hitems, take_app_le by lia. f_equal.
      rewrite length_app. simpl. f_equal. lia.
Qed.

Lemma candidateList_get_holds cl cs :
  holds cap cl cs → Z.of_nat (length cs) ≤ MaxInt32 →
  candidateList_size cl = Z.of_nat (length cs) `min` Z.of_nat cap
  ∧ candidateList_get cl = Some (Some <$> take cap cs).
Proof.
  intros Hh Hk. pose proof (holds_length _ _ Hh) as Hlen.
  destruct Hh as [Hidx Hitems].
  unfold candidateList_get, candidateList_size, slice_to.
  rewrite Hlen, Hidx, !wrap32_small by (unfold MaxInt32 in *; lia).
  replace (Z.of_nat (length cs) - 1 + 1) with (Z.of_nat (length cs)) by lia.
  destruct (Z.leb_spec (Z.of_nat cap) (Z.of_nat (length cs))).
  - split; [lia|].
    rewrite (proj2 (Z.leb_le 0 (Z.of_nat cap))) by lia.
    rewrite Z.leb_refl, Nat2Z.id. simpl. f_equal.
    rewrite Hitems. replace (cap - length cs)%nat with 0%nat by lia.
    simpl. rewrite app_nil_r. apply take_ge.
    rewrite length_fmap, length_take. lia.
  - split; [lia|].
    rewrite (proj2 (Z.leb_le 0 (Z.of_nat (length cs)))) by lia.
    rewrite (proj2 (Z.leb_le (Z.of_nat (length cs)) (Z.of_nat cap))) by lia.
    simpl. f_equal. rewrite Hitems, Nat2Z.id.
    rewrite (take_ge cs cap) by lia.
    rewrite take_app_length'; [done|]. by rewrite length_fmap.
Qed.

Lemma addAll_holds cs : ∀ cl done,
  holds cap cl done → Z.of_nat (length done + length cs) ≤ MaxInt32 →
  ∃ cl', addAll cl cs = Some cl' ∧ holds cap cl' (done ++ cs).
Proof.
  induction cs as [|c cs IH]; intros cl done Hh Hk; simpl.
  - exists cl. by rewrite app_nil_r.
  - simpl in Hk.
    destruct (candidateList_add_holds cl done c Hh) as (cl1 & -> & H1); [lia|].
    simpl. destruct (IH cl1 (done ++ [c]) H1) as (cl' & -> & H').
    { rewrite length_app. simpl. lia. }
    exists cl'. split; [done|]. by rewrite <- app_assoc in H'.
Qed.

(** X20.  A candidate list of a capacity [cap] that an [int32] holds,
    to which candidates are added one after the other, never panics, keeps the first [cap] of them
    in the order they came, and drops the others; its size is the smaller
    of [cap] and the number of additions. *)
Theorem candidateList_keeps_the_first_added (cs : list candidate) :
  Z.of_nat (length cs) ≤ MaxInt32 →
  ∃ cl0 cl,
    newCandidateList (Z.of_nat cap) = Some cl0
    ∧ addAll cl0 cs = Some cl
    ∧ candidateList_size cl = Z.of_nat (length cs) `min` Z.of_nat cap
    ∧ candidateList_get cl = Some (Some <$> take cap cs).
Proof.
  intros Hk. destruct newCandidateList_holds as (cl0 & E0 & H0).
  destruct (addAll_holds cs cl0 [] H0) as (cl & E & H); [simpl; lia|].
  exists cl0, cl. do 2 (split; [done|]).
  by apply candidateList_get_holds.
Qed.
End CandidateListFacts.

(** ** The dry run, continued *)

Section DryRunContent.
Variable SelectVictimsOnNode : Pod → NodeInfo → list Pod * Z * Status.
Variable numCandidates : Z.
Hypothesis cap_range : 0 ≤ numCandidates ≤ MaxInt32.
Variables (pod : Pod) (potentialNodes : list NodeInfo) (offset : Z).
Hypothesis offset_nonneg : 0 ≤ offset.

Lemma submseteq_snoc_both (l k : list string) x y :
  l ++ k ⊆+ y → (l ++ [x]) ++ k ⊆+ y ++ [x].
Proof.
  intros H. rewrite <- (assoc_L (++)).
  rewrite (Permutation_app_comm [x] k), (assoc_L (++)).
  by apply submseteq_app.
Qed.

(** A node looked at stays accounted for when a status is recorded or a
    candidate is added. *)
Lemma accounted_status (names : list string) (statuses : gmap string Status)
  node status (done : list nat) i :
  pieceName potentialNodes offset i = node →
  Forall (λ j, pieceName potentialNodes offset j ∈ names
               ∨ is_Some (statuses !! pieceName potentialNodes offset j)) done →
  Forall (λ j, pieceName potentialNodes offset j ∈ names
               ∨ is_Some (<[node := status]> statuses
                            !! pieceName potentialNodes offset j))
         (done ++ [i]).
Proof.
  intros Hi Hacc. apply Forall_app. split.
  - eapply Forall_impl; [exact Hacc|]. intros j [?|?]; [by left|right].
    apply lookup_insert_is_Some'. by right.
  - constructor; [|done]. right. rewrite Hi. apply lookup_insert_is_Some'.
    by left.
Qed.

Lemma accounted_candidate (names names' : list string)
  (statuses : gmap string Status) (done : list nat) i :
  names ⊆ names' → pieceName potentialNodes offset i ∈ names' →
  Forall (λ j, pieceName potentialNodes offset j ∈ names
               ∨ is_Some (statuses !! pieceName potentialNodes offset j)) done →
  Forall (λ j, pieceName potentialNodes offset j ∈ names'
               ∨ is_Some (statuses !! pieceName potentialNodes offset j))
         (done ++ [i]).
Proof.
  intros Hsub Hi Hacc. apply Forall_app. split.
  - eapply Forall_impl; [exact Hacc|]. intros j [?|?]; [left; by apply Hsub|by right].
  - constructor; [by left|done].
Qed.

Lemma checkNode_inv i st done cs1 cs2 :
  (0 < length potentialNodes)%nat →
  (dryRunInv SelectVictimsOnNode pod potentialNodes (Z.to_nat numCandidates) offset) st done cs1 cs2 →
  Z.of_nat (length done) < MaxInt32 →
  ∃ st' cs1' cs2',
    (checkNode SelectVictimsOnNode pod potentialNodes offset numCandidates) i st = Some st'
    ∧ (dryRunInv SelectVictimsOnNode pod potentialNodes (Z.to_nat numCandidates) offset) st' (done ++ [i]) cs1' cs2'
    ∧ (2 * numCandidates ≤ MaxInt32 → cancelled st = false →
       withinCap (Z.to_nat numCandidates) st cs1 cs2 → withinCap (Z.to_nat numCandidates) st' cs1' cs2').
Proof.
  intros Hlen (Hnv & Hv & Hc1 & Hc2 & Hnames & Hst & Herrs & Hacc) Hdone.
  assert (Hk : (length cs1 + length cs2 ≤ length done)%nat).
  { apply submseteq_length in Hnames.
    by rewrite !length_fmap, length_app in Hnames. }
  unfold checkNode.
  destruct (Z.eqb_spec (Z.of_nat (length potentialNodes)) 0); [lia|].
  assert (Hrem : 0 ≤ Z.rem (offset + Z.of_nat i) (Z.of_nat (length potentialNodes))
                 < Z.of_nat (length potentialNodes)).
  { apply Z.rem_bound_pos; lia. }
  destruct (index potentialNodes _) as [nodeInfoCopy|] eqn:Eidx; last first.
  { unfold index in Eidx.
    destruct (Z.ltb_spec (Z.rem (offset + Z.of_nat i)
      (Z.of_nat (length potentialNodes))) 0); [lia|].
    apply lookup_ge_None in Eidx. lia. }
  assert (Hname : pieceName potentialNodes offset i
                  = NodeName (InfoNode nodeInfoCopy)).
  { unfold pieceName. by rewrite Eidx. }
  apply index_elem_of in Eidx. simpl.
  destruct (SelectVictimsOnNode pod nodeInfoCopy) as [[pods viol] status] eqn:Esel.
  destruct (IsSuccess status) eqn:Eok; simpl.
  - destruct (Z.eqb_spec (Z.of_nat (length pods)) 0) as [Hz|Hnz]; simpl.
    + eexists _, cs1, cs2. split; [done|]. split; [|done].
      refine (conj Hnv (conj Hv (conj Hc1 (conj Hc2
                (conj _ (conj _ (conj _ _))))))); simpl;
        [| | |by apply accounted_status].
      * rewrite (fmap_app _ done). by apply submseteq_inserts_r.
      * intros node s. rewrite lookup_insert_Some. intros [[<- <-]|[_ H]].
        -- exists nodeInfoCopy, pods, viol, status. repeat (split; [done|]).
           right. repeat split; [done|]. destruct pods; [done|simpl in Hz; lia].
        -- by apply Hst.
      * rewrite Forall_app. split; [done|]. by constructor.
    + set (c := {| victims := {| Pods := pods; NumPDBViolations := viol |};
                   name := NodeName (InfoNode nodeInfoCopy) |}).
      assert (Hprop : proposal SelectVictimsOnNode pod potentialNodes c).
      { exists nodeInfoCopy, status. repeat (split; [done|]). split; [|done].
        simpl. intros ->. done. }
      destruct (Z.eqb_spec viol 0) as [Hv0|Hv0].
      * destruct (candidateList_add_holds (Z.to_nat numCandidates) ltac:(lia) _ cs1 c Hnv)
          as (nv' & -> & Hnv'); [lia|]. simpl.
        eexists _, (cs1 ++ [c]), cs2. split; [done|]. split.
        -- refine (conj Hnv' (conj Hv (conj _ (conj Hc2
                     (conj _ (conj Hst (conj Herrs _))))))); simpl;
             [| |eapply accounted_candidate; [|
                  |exact Hacc]; rewrite !fmap_app; [set_solver|];
                  rewrite Hname; set_solver].
           ++ rewrite Forall_app. split; [done|]. by repeat constructor.
           ++ rewrite !fmap_app in *. simpl. rewrite Hname.
              by apply submseteq_snoc_both.
        -- intros Hsmall Hnc Hw. unfold withinCap in *. rewrite Hnc in *. simpl.
           destruct (candidateList_get_holds (Z.to_nat numCandidates) ltac:(lia) _ _ Hnv') as [-> _].
           { rewrite length_app; simpl; lia. }
           destruct (candidateList_get_holds (Z.to_nat numCandidates) ltac:(lia) _ _ Hv) as [-> _];
             [lia|].
           rewrite length_app. simpl.
           rewrite wrap32_small by (unfold MaxInt32 in *; lia).
           destruct (_ && _) eqn:Ecancel.
           ++ lia.
           ++ apply andb_false_iff in Ecancel as [H|H].
              ** apply Z.ltb_ge in H. lia.
              ** apply Z.leb_gt in H. lia.
      * destruct (candidateList_add_holds (Z.to_nat numCandidates) ltac:(lia) _ cs2 c Hv)
          as (v' & -> & Hv'); [lia|]. simpl.
        eexists _, cs1, (cs2 ++ [c]). split; [done|]. split.
        -- refine (conj Hnv (conj Hv' (conj Hc1 (conj _
                     (conj _ (conj Hst (conj Herrs _))))))); simpl;
             [| |eapply accounted_candidate; [|
                  |exact Hacc]; rewrite !fmap_app; [set_solver|];
                  rewrite Hname; set_solver].
           ++ rewrite Forall_app. split; [done|]. by repeat constructor.
           ++ rewrite (assoc_L (++)), !fmap_app in *. simpl. rewrite Hname.
              by apply submseteq_app.
        -- intros Hsmall Hnc Hw. unfold withinCap in *. rewrite Hnc in *. simpl.
           destruct (candidateList_get_holds (Z.to_nat numCandidates) ltac:(lia) _ _ Hnv) as [-> _];
             [lia|].
           destruct (candidateList_get_holds (Z.to_nat numCandidates) ltac:(lia) _ _ Hv') as [-> _].
           { rewrite length_app; simpl; lia. }
           rewrite length_app. simpl.
           rewrite wrap32_small by (unfold MaxInt32 in *; lia).
           destruct (_ && _) eqn:Ecancel.
           ++ lia.
           ++ apply andb_false_iff in Ecancel as [H|H].
              ** apply Z.ltb_ge in H. lia.
              ** apply Z.leb_gt in H. lia.
  - eexists _, cs1, cs2. split; [done|]. split; [|done].
    refine (conj Hnv (conj Hv (conj Hc1 (conj Hc2
              (conj _ (conj _ (conj _ _))))))); simpl;
      [| | |by apply accounted_status].
    + rewrite (fmap_app _ done). by apply submseteq_inserts_r.
    + intros node s. rewrite lookup_insert_Some. intros [[<- <-]|[_ H]].
      * exists nodeInfoCopy, pods, viol, status. repeat (split; [done|]).
        by left.
      * by apply Hst.
    + destruct (code status) eqn:E; try done.
      rewrite Forall_app. split; [done|]. by constructor.
Qed.

Lemma runScheduled_inv sched : ∀ st done cs1 cs2,
  (0 < length potentialNodes)%nat →
  (dryRunInv SelectVictimsOnNode pod potentialNodes (Z.to_nat numCandidates) offset) st done cs1 cs2 →
  Z.of_nat (length done + length sched) ≤ MaxInt32 →
  ∃ st' cs1' cs2',
    runScheduled (checkNode SelectVictimsOnNode pod potentialNodes offset numCandidates) sched st = Some st'
    ∧ (dryRunInv SelectVictimsOnNode pod potentialNodes (Z.to_nat numCandidates) offset) st' (done ++ sched) cs1' cs2'.
Proof.
  induction sched as [|i sched IH]; intros st done cs1 cs2 Hlen Hinv Hb; simpl.
  - exists st, cs1, cs2. by rewrite app_nil_r.
  - simpl in Hb.
    destruct (checkNode_inv i st done cs1 cs2 Hlen Hinv)
      as (st1 & cs1' & cs2' & -> & H1 & _); [lia|]. simpl.
    destruct (IH st1 (done ++ [i]) cs1' cs2' Hlen H1)
      as (st' & cs1'' & cs2'' & -> & H').
    { rewrite length_app. simpl. lia. }
    exists st', cs1'', cs2''. split; [done|]. by rewrite <- app_assoc in H'.
Qed.

Lemma runSequential_inv pieces : ∀ st done cs1 cs2,
  (0 < length potentialNodes)%nat →
  (dryRunInv SelectVictimsOnNode pod potentialNodes (Z.to_nat numCandidates) offset) st done cs1 cs2 →
  Z.of_nat (length done + length pieces) ≤ MaxInt32 →
  ∃ st' k cs1' cs2',
    runSequential (checkNode SelectVictimsOnNode pod potentialNodes offset numCandidates) pieces st = Some st'
    ∧ (dryRunInv SelectVictimsOnNode pod potentialNodes (Z.to_nat numCandidates) offset) st' (done ++ take k pieces) cs1' cs2'
    ∧ (2 * numCandidates ≤ MaxInt32 →
       withinCap (Z.to_nat numCandidates) st cs1 cs2 → withinCap (Z.to_nat numCandidates) st' cs1' cs2').
Proof.
  induction pieces as [|i pieces IH]; intros st done cs1 cs2 Hlen Hinv Hb; simpl.
  - exists st, 0%nat, cs1, cs2. by rewrite app_nil_r.
  - simpl in Hb. destruct (cancelled st) eqn:Ec.
    { exists st, 0%nat, cs1, cs2. by rewrite take_0, app_nil_r. }
    destruct (checkNode_inv i st done cs1 cs2 Hlen Hinv)
      as (st1 & cs1' & cs2' & -> & H1 & Hw1); [lia|]. simpl.
    destruct (IH st1 (done ++ [i]) cs1' cs2' Hlen H1)
      as (st' & k & cs1'' & cs2'' & -> & H' & Hw').
    { rewrite length_app. simpl. lia. }
    exists st', (S k), cs1'', cs2''. split; [done|]. split.
    + simpl. by rewrite <- app_assoc in H'.
    + auto.
Qed.

(** Pieces that differ look at nodes that differ. *)
Lemma pieceName_inj i j :
  NoDup (NodeName ∘ InfoNode <$> potentialNodes) →
  (i < length potentialNodes)%nat → (j < length potentialNodes)%nat →
  pieceName potentialNodes offset i = pieceName potentialNodes offset j →
  i = j.
Proof.
  intros Hnd Hi Hj. unfold pieceName.
  set (n := Z.of_nat (length potentialNodes)).
  assert (Hn : 0 < n) by (unfold n; lia).
  rewrite !Z.rem_mod_nonneg by lia.
  pose proof (Z.mod_pos_bound (offset + Z.of_nat i) n Hn) as Bi.
  pose proof (Z.mod_pos_bound (offset + Z.of_nat j) n Hn) as Bj.
  unfold index.
  rewrite (proj2 (Z.ltb_ge ((offset + Z.of_nat i) `mod` n) 0)) by lia.
  rewrite (proj2 (Z.ltb_ge ((offset + Z.of_nat j) `mod` n) 0)) by lia.
  destruct (lookup_lt_is_Some_2 potentialNodes
              (Z.to_nat ((offset + Z.of_nat i) `mod` n))) as [a Ha];
    [unfold n in *; lia|].
  destruct (lookup_lt_is_Some_2 potentialNodes
              (Z.to_nat ((offset + Z.of_nat j) `mod` n))) as [b Hb];
    [unfold n in *; lia|].
  rewrite Ha, Hb. simpl. intros Hab.
  assert (E : Z.to_nat ((offset + Z.of_nat i) `mod` n)
              = Z.to_nat ((offset + Z.of_nat j) `mod` n)).
  { eapply NoDup_lookup; [exact Hnd| |].
    - rewrite list_lookup_fmap, Ha. done.
    - rewrite list_lookup_fmap, Hb. simpl. by rewrite Hab. }
  assert (E' : (offset + Z.of_nat i) `mod` n = (offset + Z.of_nat j) `mod` n)
    by lia.
  pose proof (Z.div_mod (offset + Z.of_nat i) n ltac:(lia)) as Di.
  pose proof (Z.div_mod (offset + Z.of_nat j) n ltac:(lia)) as Dj.
  rewrite E' in Di.
  set (qi := (offset + Z.of_nat i) `div` n) in *.
  set (qj := (offset + Z.of_nat j) `div` n) in *.
  assert (Hij : Z.of_nat i - Z.of_nat j = n * (qi - qj)) by lia.
  assert (Hi' : Z.of_nat i < n) by (unfold n; lia).
  assert (Hj' : Z.of_nat j < n) by (unfold n; lia).
  assert (qi - qj = 0) by nia. lia.
Qed.

Lemma DryRunPreemption_inv (par : Parallelizer) :
  Z.of_nat (length potentialNodes) ≤ MaxInt32 →
  validSchedule par (length potentialNodes) →
  ∃ st' done cs1 cs2,
    (dryRunInv SelectVictimsOnNode pod potentialNodes (Z.to_nat numCandidates) offset) st' done cs1 cs2
    ∧ NoDup done ∧ Forall (λ i, (i < length potentialNodes)%nat) done
    ∧ (par = Sequential → 2 * numCandidates ≤ MaxInt32 →
       withinCap (Z.to_nat numCandidates) st' cs1 cs2)
    ∧ DryRunPreemption SelectVictimsOnNode par pod potentialNodes offset
                       numCandidates
      = Some ((Some <$> take (Z.to_nat numCandidates) cs1) ++ (Some <$> take (Z.to_nat numCandidates) cs2),
              nodeStatuses st', errs st').
Proof.
  intros Hn Hvalid. unfold DryRunPreemption.
  destruct (newCandidateList_holds (Z.to_nat numCandidates)) as (cl & Ecl & Hcl).
  rewrite Z2Nat.id in Ecl by lia. rewrite Ecl. simpl.
  set (st := {| nonViolatingCandidates := cl |}).
  assert (Hst : (dryRunInv SelectVictimsOnNode pod potentialNodes (Z.to_nat numCandidates) offset) st [] [] []).
  { refine (conj Hcl (conj Hcl _)). repeat split; try done. }
  assert (Hw : withinCap (Z.to_nat numCandidates) st [] []).
  { unfold withinCap. simpl. left. lia. }
  assert (∃ st' done cs1 cs2,
            Until par (length potentialNodes) (checkNode SelectVictimsOnNode pod potentialNodes offset numCandidates) st = Some st'
            ∧ (dryRunInv SelectVictimsOnNode pod potentialNodes (Z.to_nat numCandidates) offset) st' done cs1 cs2
            ∧ NoDup done ∧ Forall (λ i, (i < length potentialNodes)%nat) done
            ∧ (par = Sequential → 2 * numCandidates ≤ MaxInt32 →
               withinCap (Z.to_nat numCandidates) st' cs1 cs2))
    as (st' & done & cs1 & cs2 & -> & Hinv & Hnd & Hlt & Hw').
  { destruct (decide (length potentialNodes = 0%nat)) as [Hz|Hnz].
    - exists st, [], [], []. split.
      { destruct par as [|sched]; simpl in *; [by rewrite Hz|].
        destruct Hvalid as [_ Hall]. rewrite Hz in Hall.
        destruct sched as [|i sched]; [done|].
        apply Forall_cons in Hall as [Hi _]. lia. }
      repeat (split; [done || constructor|]). done.
    - destruct par as [|sched]; simpl in *.
      + destruct (runSequential_inv (seq 0 (length potentialNodes)) st [] [] [])
          as (st' & k & cs1 & cs2 & -> & H' & Hw'); [lia|done| |].
        { rewrite length_seq. simpl. lia. }
        simpl in H'. exists st', (take k (seq 0 (length potentialNodes))), cs1, cs2.
        split; [done|]. split; [exact H'|]. split; [|split; [|auto]].
        * eapply sublist_NoDup; [apply NoDup_seq|apply sublist_take].
        * apply Forall_take, Forall_forall. intros i Hi.
          apply elem_of_seq in Hi. lia.
      + destruct Hvalid as [Hnd Hall].
        pose proof (validSchedule_length _ _ Hnd Hall) as Hlen.
        destruct (runScheduled_inv sched st [] [] [])
          as (st' & cs1 & cs2 & -> & H'); [lia|done|simpl; lia|].
        simpl in H'. exists st', sched, cs1, cs2.
        repeat (split; [done|]). done. }
  simpl. exists st', done, cs1, cs2. do 4 (split; [done|]).
  pose proof Hinv as (Hnv & Hv & _ & _ & Hnames & _).
  assert (Hk : (length cs1 + length cs2 ≤ length potentialNodes)%nat).
  { apply submseteq_length in Hnames.
    rewrite !length_fmap, length_app in Hnames.
    pose proof (validSchedule_length _ _ Hnd Hlt). lia. }
  destruct (candidateList_get_holds (Z.to_nat numCandidates) ltac:(lia) _ _ Hnv) as [_ ->]; [lia|].
  destruct (candidateList_get_holds (Z.to_nat numCandidates) ltac:(lia) _ _ Hv) as [_ ->]; [lia|].
  done.
Qed.

(** X21.  For a cap and an offset that are not negative, the dry run
    returns, and it returns no nil candidate.  The candidates are
    clean ones followed by ones that violate a disruption budget; each is
    what the plugin proposed for one of the potential nodes, a success with
    at least one victim; and with node names that differ, no node is
    proposed twice. *)
Theorem DryRunPreemption_returns_plugin_proposals (par : Parallelizer) :
  Z.of_nat (length potentialNodes) ≤ MaxInt32 →
  validSchedule par (length potentialNodes) →
  ∃ cleanOnes violatingOnes statuses errors,
    DryRunPreemption SelectVictimsOnNode par pod potentialNodes offset
                     numCandidates
    = Some ((Some <$> cleanOnes) ++ (Some <$> violatingOnes), statuses, errors)
    ∧ Forall (clean SelectVictimsOnNode pod potentialNodes) cleanOnes
    ∧ Forall (violating SelectVictimsOnNode pod potentialNodes) violatingOnes
    ∧ (NoDup (NodeName ∘ InfoNode <$> potentialNodes) →
       NoDup (name <$> cleanOnes ++ violatingOnes)).
Proof.
  intros Hn Hvalid.
  destruct (DryRunPreemption_inv par Hn Hvalid)
    as (st' & done & cs1 & cs2 & Hinv & Hnd & Hlt & _ & E).
  destruct Hinv as (_ & _ & Hc1 & Hc2 & Hnames & _).
  exists (take (Z.to_nat numCandidates) cs1), (take (Z.to_nat numCandidates) cs2), (nodeStatuses st'), (errs st'). split; [exact E|].
  split; [by apply Forall_take|]. split; [by apply Forall_take|].
  intros Hnames_nd.
  assert (Hsub : name <$> take (Z.to_nat numCandidates) cs1 ++ take (Z.to_nat numCandidates) cs2
                 ⊆+ pieceName potentialNodes offset <$> done).
  { etrans; [|exact Hnames]. apply fmap_submseteq. apply submseteq_app;
      apply sublist_submseteq, sublist_take. }
  apply submseteq_Permutation in Hsub as [k Hk].
  assert (Hpn : NoDup (pieceName potentialNodes offset <$> done)).
  { apply NoDup_fmap_2_strong; [|done].
    intros i j Hi Hj. rewrite Forall_forall in Hlt.
    apply pieceName_inj; auto. }
  rewrite Hk in Hpn. by apply NoDup_app in Hpn as [? _].
Qed.

(** X22.  For a cap and an offset that are not negative, every
    status the dry run reports belongs to a potential node for which the plugin had no proposal: it is the plugin's status,
    or an error for a success without victims; and all reported errors have
    the code [Error]. *)
Theorem DryRunPreemption_reports_only_failures (par : Parallelizer)
  candidates statuses errors :
  Z.of_nat (length potentialNodes) ≤ MaxInt32 →
  validSchedule par (length potentialNodes) →
  DryRunPreemption SelectVictimsOnNode par pod potentialNodes offset
                   numCandidates
  = Some (candidates, statuses, errors) →
  (∀ node status, statuses !! node = Some status →
     failure SelectVictimsOnNode pod potentialNodes node status)
  ∧ Forall (λ s, code s = Error) errors.
Proof.
  intros Hn Hvalid Hrun.
  destruct (DryRunPreemption_inv par Hn Hvalid)
    as (st' & done & cs1 & cs2 & Hinv & _ & _ & _ & E).
  rewrite E in Hrun. injection Hrun as _ <- <-.
  by destruct Hinv as (_ & _ & _ & _ & _ & Hst & Herrs & _).
Qed.

(** X23.  For an offset that is not negative and a cap that is not
    negative and below [2^30], with one worker, which stops once the run is
    cancelled, the dry run returns at most [numCandidates + 1]
    candidates. *)
Theorem DryRunPreemption_one_worker_at_most_cap_plus_one
  candidates statuses errors :
  2 * numCandidates ≤ MaxInt32 →
  Z.of_nat (length potentialNodes) ≤ MaxInt32 →
  DryRunPreemption SelectVictimsOnNode Sequential pod potentialNodes offset
                   numCandidates
  = Some (candidates, statuses, errors) →
  Z.of_nat (length candidates) ≤ numCandidates + 1.
Proof.
  intros Hsmall Hn Hrun.
  destruct (DryRunPreemption_inv Sequential Hn I)
    as (st' & done & cs1 & cs2 & _ & _ & _ & Hw & E).
  rewrite E in Hrun. injection Hrun as <- _ _.
  specialize (Hw eq_refl Hsmall). unfold withinCap in Hw.
  rewrite length_app, !length_fmap, !length_take.
  destruct (cancelled st'); lia.
Qed.

(** Some run of [checkNode] looks at a given node. *)
Lemma pieceName_onto k nodeInfo :
  potentialNodes !! k = Some nodeInfo →
  ∃ i, (i < length potentialNodes)%nat
       ∧ pieceName potentialNodes offset i = NodeName (InfoNode nodeInfo).
Proof.
  intros Hk. pose proof (lookup_lt_Some _ _ _ Hk) as Hlt.
  set (n := Z.of_nat (length potentialNodes)).
  assert (Hn : 0 < n) by (unfold n; lia).
  pose proof (Z.mod_pos_bound (Z.of_nat k - offset) n Hn) as Hb.
  exists (Z.to_nat ((Z.of_nat k - offset) `mod` n)).
  split; [unfold n in *; lia|]. unfold pieceName. fold n.
  rewrite Z2Nat.id by lia.
  rewrite Z.rem_mod_nonneg by lia.
  rewrite Zplus_mod_idemp_r.
  replace (offset + (Z.of_nat k - offset)) with (Z.of_nat k) by lia.
  rewrite Z.mod_small by (unfold n; lia).
  by rewrite index_of_nat, Hk.
Qed.

(** X29.  For an offset that is not negative, when a pool runs
    every piece and [numCandidates] is at least the number of potential
    nodes, the dry run returns and leaves no node out: each potential node
    has a candidate or a status. *)
Theorem DryRunPreemption_accounts_for_every_node (sched : list nat) :
  Z.of_nat (length potentialNodes) ≤ numCandidates →
  sched ≡ₚ seq 0 (length potentialNodes) →
  ∃ candidates statuses errors,
    DryRunPreemption SelectVictimsOnNode (Interleaved sched) pod
                     potentialNodes offset numCandidates
    = Some (candidates, statuses, errors)
    ∧ ∀ nodeInfo, nodeInfo ∈ potentialNodes →
        (∃ c, Some c ∈ candidates ∧ name c = NodeName (InfoNode nodeInfo))
        ∨ is_Some (statuses !! NodeName (InfoNode nodeInfo)).
Proof.
  intros Hcap Hperm. unfold DryRunPreemption.
  destruct (newCandidateList_holds (Z.to_nat numCandidates)) as (cl & Ecl & Hcl).
  rewrite Z2Nat.id in Ecl by lia. rewrite Ecl. simpl.
  set (st := {| nonViolatingCandidates := cl |}).
  assert (Hst : (dryRunInv SelectVictimsOnNode pod potentialNodes (Z.to_nat numCandidates) offset) st [] [] []).
  { refine (conj Hcl (conj Hcl _)). repeat split; try done. }
  destruct (decide (length potentialNodes = 0%nat)) as [Hz|Hnz].
  - rewrite Hz in Hperm. apply Permutation_nil_r in Hperm as ->. simpl.
    destruct (candidateList_get_holds (Z.to_nat numCandidates) ltac:(lia) _ _ Hcl) as [_ ->];
      [simpl; unfold MaxInt32; lia|].
    simpl. eexists _, _, _. split; [done|]. intros ni Hni.
    destruct potentialNodes; [by apply elem_of_nil in Hni|done].
  - assert (Hlen : length sched = length potentialNodes)
      by (by rewrite Hperm, length_seq).
    destruct (runScheduled_inv sched st [] [] [])
      as (st' & cs1 & cs2 & -> & Hinv); [lia|done|simpl; lia|].
    simpl in Hinv. simpl.
    destruct Hinv as (Hnv & Hv & _ & _ & Hnames & _ & _ & Hacc).
    assert (Hk : (length cs1 + length cs2 ≤ length potentialNodes)%nat).
    { apply submseteq_length in Hnames.
      rewrite !length_fmap, length_app in Hnames. lia. }
    destruct (candidateList_get_holds (Z.to_nat numCandidates) ltac:(lia) _ _ Hnv) as [_ ->]; [lia|].
    destruct (candidateList_get_holds (Z.to_nat numCandidates) ltac:(lia) _ _ Hv) as [_ ->]; [lia|].
    simpl. rewrite !take_ge by lia.
    eexists _, _, _. split; [done|]. intros ni Hni.
    apply list_elem_of_lookup in Hni as [k Hk'].
    destruct (pieceName_onto k ni Hk') as (i & Hi & Hname).
    rewrite Forall_forall in Hacc.
    destruct (Hacc i) as [Hin|Hs].
    + rewrite Hperm. apply elem_of_seq. lia.
    + left. rewrite Hname in Hin.
      apply list_elem_of_fmap in Hin as (c & Hc & Hin). exists c.
      split; [|done]. rewrite <- fmap_app. by apply list_elem_of_fmap_2.
    + right. by rewrite <- Hname.
Qed.

End DryRunContent.

(** ** The tie-break scorer, continued *)

Section ScorerMore.
Implicit Types (f : string → option Z) (l sel : list string).

Lemma highest_upper f l : ∀ m x s,
  x ∈ l → f x = Some s → s ≤ highest f l m.
Proof.
  induction l as [|y l IH]; intros m x s Hx Hs; [by apply elem_of_nil in Hx|].
  simpl. apply elem_of_cons in Hx as [->|Hx].
  - rewrite Hs. simpl. pose proof (highest_ge f l (Z.max m s)). lia.
  - by eapply IH.
Qed.

Lemma highest_reached f l : ∀ m,
  highest f l m = m ∨ ∃ x, x ∈ l ∧ f x = Some (highest f l m).
Proof.
  induction l as [|y l IH]; intros m; simpl; [by left|].
  destruct (IH (Z.max m (default m (f y)))) as [E|(x & Hx & E)].
  - rewrite E. destruct (f y) as [s|] eqn:Hs; simpl; [|left; lia].
    destruct (Z.max_spec m s) as [[_ ->]|[_ ->]]; [|by left].
    right. exists y. split; [left|]. rewrite Hs. by f_equal.
  - right. exists x. split; [by right|done].
Qed.

(** What the two loops return is a first in the order of the scores. *)
Lemma pickAmong_prefers fs : ∀ l r,
  pickAmong fs l = Some r →
  r ∈ l ∧ ∀ x, x ∈ l → x ≠ r → prefers fs r x.
Proof.
  induction fs as [|f fs IH]; intros l r; simpl.
  - intros H. split; [by eapply index_elem_of|done].
  - destruct (decide (scored f l)) as [Hsc|Hsc];
      [|by rewrite selectHighest_unscored].
    rewrite selectHighest_filter by done. simpl.
    replace (if highest f l MinInt64 =? MinInt64 then [] else [])
      with (@nil string) by (by destruct (_ =? _)).
    simpl. set (h := highest f l MinInt64).
    set (sel := filter (λ x, f x = Some h) l).
    intros Hr.
    assert (Hin : r ∈ sel ∧ ∀ x, x ∈ sel → x ≠ r → prefers fs r x).
    { destruct sel as [|a [|b sel']] eqn:Esel.
      - by apply IH.
      - injection Hr as ->. split; [left|].
        intros x Hx%list_elem_of_singleton. done.
      - by apply IH. }
    destruct Hin as [Hrs Hrest].
    apply list_elem_of_filter in Hrs as [Hfr Hrl]. split; [done|].
    intros x Hx Hne. unfold scored in Hsc. rewrite Forall_forall in Hsc.
    destruct (Hsc x Hx) as [sx Hsx]. exists h, sx. do 2 (split; [done|]).
    pose proof (highest_upper f l MinInt64 x sx Hx Hsx) as Hle. fold h in Hle.
    destruct (decide (sx = h)) as [->|?]; [right|left; lia].
    split; [done|]. apply Hrest; [|done].
    apply list_elem_of_filter. done.
Qed.

(** With every score an [int64], the two loops return. *)
Lemma pickAmong_returns fs : ∀ l,
  l ≠ [] →
  (∀ f x, f ∈ fs → x ∈ l → ∃ s, f x = Some s ∧ MinInt64 ≤ s) →
  ∃ r, pickAmong fs l = Some r.
Proof.
  induction fs as [|f fs IH]; intros l Hne Hs; simpl.
  - destruct l as [|a l]; [done|]. by exists a.
  - assert (Hsc : scored f l).
    { apply Forall_forall. intros x Hx.
      destruct (Hs f x) as (s & -> & _); [left|done|by eexists]. }
    rewrite selectHighest_filter by done. simpl.
    replace (if highest f l MinInt64 =? MinInt64 then [] else [])
      with (@nil string) by (by destruct (_ =? _)).
    simpl. set (h := highest f l MinInt64).
    set (sel := filter (λ x, f x = Some h) l).
    assert (Hsel : sel ≠ []).
    { destruct (highest_reached f l MinInt64) as [E|(x & Hx & E)].
      - destruct l as [|a l]; [done|].
        destruct (Hs f a) as (s & Hfa & Hge); [left..|].
        pose proof (highest_upper f (a :: l) MinInt64 a s ltac:(left) Hfa).
        assert (a ∈ sel); [|by intros E'; rewrite E' in *; eapply not_elem_of_nil].
        apply list_elem_of_filter. split; [|left]. rewrite Hfa. f_equal.
        unfold h. lia.
      - assert (x ∈ sel); [|by intros E'; rewrite E' in *; eapply not_elem_of_nil].
        apply list_elem_of_filter. done. }
    destruct (IH sel Hsel) as [r Hr].
    { intros g x Hg Hx. apply Hs; [by right|].
      by apply list_elem_of_filter in Hx as [_ ?]. }
    destruct sel as [|a [|b sel']]; [done|by exists a|by exists r].
Qed.

Variable GetEarliestPodStartTime : Victims → option Time.

(** X24.  On a map that is not empty, a returning
    [pickOneNodeForPreemption] returns one of the keys it ranged over, and
    no other key comes before it in the lexicographic order of the scores,
    the score functions taken in the order they are listed. *)
Theorem pickOneNodeForPreemption_picks_first_by_scores
  (keys : list string) (nodesToVictims : gmap string Victims)
  (scoreFuncs : list (string → option Z)) (r : string) :
  nodesToVictims ≠ ∅ →
  pickOneNodeForPreemption GetEarliestPodStartTime keys nodesToVictims
                           scoreFuncs = Some r →
  r ∈ keys
  ∧ ∀ x, x ∈ keys → x ≠ r →
      prefers (scoreFuncsUsed GetEarliestPodStartTime nodesToVictims
                              scoreFuncs) r x.
Proof.
  intros Hne. unfold pickOneNodeForPreemption.
  destruct (Z.eqb_spec (Z.of_nat (size nodesToVictims)) 0) as [Hz|_].
  { destruct Hne. apply map_size_empty_iff. lia. }
  apply pickAmong_prefers.
Qed.

Lemma defaultScoreFuncs_scores nodesToVictims f x v :
  f ∈ defaultScoreFuncs GetEarliestPodStartTime nodesToVictims →
  nodesToVictims !! x = Some v → wellFormedVictims v →
  ∃ s, f x = Some s ∧ MinInt64 ≤ s.
Proof.
  intros Hf Hx (Hpods & Hprio & Hlen & Hviol).
  unfold defaultScoreFuncs in Hf.
  repeat (apply elem_of_cons in Hf as [->|Hf]); [..|by apply elem_of_nil in Hf].
  - unfold minNumPDBViolatingScoreFunc. rewrite Hx. simpl.
    eexists. split; [done|]. apply wrap64_range.
  - unfold minHighestPriorityScoreFunc. rewrite Hx. simpl.
    destruct (Pods v) as [|p ps]; [done|]. simpl.
    eexists. split; [done|]. apply Forall_cons in Hprio as [Hp _].
    unfold MinInt64, MaxInt32 in *. lia.
  - unfold minSumPrioritiesScoreFunc. rewrite Hx. simpl.
    eexists. split; [done|]. apply wrap64_range.
  - unfold minNumPodsScoreFunc. rewrite Hx. simpl.
    eexists. split; [done|]. unfold MinInt64, MaxInt64 in *. lia.
  - unfold latestStartTimeScoreFunc. rewrite Hx. simpl.
    destruct (GetEarliestPodStartTime v).
    + eexists. split; [done|]. apply wrap64_range.
    + eexists. split; [done|]. lia.
Qed.

(** X25.  With the default score functions, on a map that is not
    empty and whose victims are well formed, [pickOneNodeForPreemption]
    returns, and it returns a node of the map with the fewest violations
    of disruption budgets. *)
Theorem pickOneNodeForPreemption_default_fewest_violations
  (keys : list string) (nodesToVictims : gmap string Victims) :
  iterationOrder keys nodesToVictims →
  nodesToVictims ≠ ∅ →
  map_Forall (λ _ v, wellFormedVictims v) nodesToVictims →
  ∃ r v,
    pickOneNodeForPreemption GetEarliestPodStartTime keys nodesToVictims []
    = Some r
    ∧ nodesToVictims !! r = Some v
    ∧ ∀ x vx, nodesToVictims !! x = Some vx →
        NumPDBViolations v ≤ NumPDBViolations vx.
Proof.
  intros Hkeys Hne Hwf.
  assert (E : pickOneNodeForPreemption GetEarliestPodStartTime keys
                nodesToVictims []
              = pickAmong
                  (defaultScoreFuncs GetEarliestPodStartTime nodesToVictims)
                  keys).
  { unfold pickOneNodeForPreemption.
    destruct (Z.eqb_spec (Z.of_nat (size nodesToVictims)) 0) as [Hz|_]; [|done].
    destruct Hne. apply map_size_empty_iff. lia. }
  rewrite E. clear E.
  assert (Hin : ∀ x, x ∈ keys ↔ is_Some (nodesToVictims !! x)).
  { intros x. unfold iterationOrder in Hkeys. rewrite Hkeys.
    rewrite list_elem_of_fmap. split.
    - intros ([k v] & -> & H%elem_of_map_to_list). by eexists.
    - intros [v H]. exists (x, v). split; [done|].
      by apply elem_of_map_to_list. }
  destruct (pickAmong_returns
              (defaultScoreFuncs GetEarliestPodStartTime nodesToVictims) keys)
    as [r Hr].
  { intros ->. unfold iterationOrder in Hkeys. symmetry in Hkeys.
    apply Permutation_nil_r, fmap_nil_inv, map_to_list_empty_iff in Hkeys.
    done. }
  { intros f x Hf Hx. apply Hin in Hx as [v Hv].
    eapply defaultScoreFuncs_scores; [done..|]. by eapply Hwf. }
  rewrite Hr. apply pickAmong_prefers in Hr as [Hrk Hbest].
  apply Hin in Hrk as [v Hv]. exists r, v. do 2 (split; [done|]).
  intros x vx Hx.
  destruct (decide (x = r)) as [->|Hxr]; [by simplify_eq|].
  destruct (Hbest x) as (sr & sx & Hsr & Hsx & Hcmp); [apply Hin; by eexists|done|].
  unfold minNumPDBViolatingScoreFunc in Hsr, Hsx.
  rewrite Hv in Hsr. rewrite Hx in Hsx. simpl in *.
  injection Hsr as <-. injection Hsx as <-.
  destruct (Hwf _ _ Hv) as (_ & _ & _ & ?).
  destruct (Hwf _ _ Hx) as (_ & _ & _ & ?).
  rewrite !wrap64_small in Hcmp by (unfold MinInt64, MaxInt64 in *; lia).
  lia.
Qed.
End ScorerMore.

(** ** From the nodes to the selected candidate *)

Section EvaluatorFacts.
Import Evaluator.

Lemma nodesWherePreemptionMightHelp_spec nodes m :
  ∀ potentialNodes nodeStatuses,
  nodesWherePreemptionMightHelp nodes m = (potentialNodes, nodeStatuses) →
  potentialNodes = filter (λ n, ¬ unresolvable m n) nodes
  ∧ ∀ name status,
      nodeStatuses !! name = Some status ↔
      status = notHelpful
      ∧ ∃ n, n ∈ nodes ∧ NodeName (InfoNode n) = name ∧ unresolvable m n.
Proof.
  unfold nodesWherePreemptionMightHelp.
  induction nodes as [|node nodes IH] using rev_ind; intros ps ss.
  - simpl. intros [= <- <-]. split; [done|]. intros name status.
    rewrite lookup_empty. split; [done|].
    intros (_ & n & Hn & _). by apply elem_of_nil in Hn.
  - rewrite fold_left_app. simpl.
    destruct (fold_left _ nodes _) as [ps0 ss0].
    destruct (IH ps0 ss0 eq_refl) as [-> Hss].
    rewrite filter_app, filter_cons, filter_nil. unfold unresolvable at 2.
    destruct (statusCode m (NodeName (InfoNode node))) eqn:E;
      intros [= <- <-];
      try (rewrite decide_True by congruence; split; [done|];
           intros name status; rewrite Hss; split;
           [ intros (-> & n & Hn & ?); split; [done|]; exists n;
             split; [apply elem_of_app; by left|done]
           | intros (-> & n & Hn & <- & Hu); split; [done|];
             apply elem_of_app in Hn as [Hn|Hn];
             [by exists n|apply list_elem_of_singleton in Hn; subst n;
              unfold unresolvable in Hu; congruence] ]).
    rewrite decide_False by (intros H; by apply H).
    rewrite app_nil_r. split; [done|]. intros name status.
    rewrite lookup_insert_Some, Hss. split.
    + intros [[<- <-]|(Hne & -> & n & Hn & ?)].
      * split; [done|]. exists node. split; [|done].
        apply elem_of_app. right. left.
      * split; [done|]. exists n. split; [apply elem_of_app; by left|done].
    + intros (-> & n & Hn & <- & Hu).
      destruct (decide (NodeName (InfoNode node) = NodeName (InfoNode n)))
        as [Heq|Hne]; [by left|right].
      split; [done|]. split; [done|].
      apply elem_of_app in Hn as [Hn|Hn];
        [by exists n|apply list_elem_of_singleton in Hn; by subst].
Qed.

(** X26.  [nodesWherePreemptionMightHelp] keeps, in their order, the
    nodes whose status is not [UnschedulableAndUnresolvable]; every other
    node gets the status [Preemption is not helpful for scheduling]; and
    only names of the given nodes get a status. *)
Theorem nodesWherePreemptionMightHelp_splits_the_nodes
  (nodes : list NodeInfo) (m : gmap string Status) :
  let '(potentialNodes, nodeStatuses) := nodesWherePreemptionMightHelp nodes m in
  potentialNodes = filter (λ n, ¬ unresolvable m n) nodes
  ∧ (∀ n, n ∈ nodes →
       (n ∈ potentialNodes ∧ nodeStatuses !! NodeName (InfoNode n) = None)
       ∨ ((n ∉ potentialNodes)
          ∧ nodeStatuses !! NodeName (InfoNode n) = Some notHelpful))
  ∧ (∀ name, is_Some (nodeStatuses !! name) →
       ∃ n, n ∈ nodes ∧ NodeName (InfoNode n) = name).
Proof.
  destruct (nodesWherePreemptionMightHelp nodes m) as [ps ss] eqn:E.
  apply nodesWherePreemptionMightHelp_spec in E as [-> Hss].
  split; [done|]. split.
  - intros n Hn. destruct (decide (unresolvable m n)) as [Hu|Hu].
    + right. split.
      * rewrite list_elem_of_filter. intros [H _]. by apply H.
      * apply Hss. split; [done|]. by exists n.
    + left. split; [by apply list_elem_of_filter|].
      destruct (ss !! _) as [s|] eqn:Es; [|done].
      apply Hss in Es as (_ & n' & _ & Hname & Hu').
      unfold unresolvable in *. by rewrite Hname in Hu'.
  - intros name [s Hs]. apply Hss in Hs as (_ & n & ? & ? & _). by exists n.
Qed.

Section WithPlugin.
Variable PodDisruptionBudget : Type.
Variable SelectVictimsOnNode :
  list PodDisruptionBudget → Pod → NodeInfo → list Pod * Z * Status.
Variable GetOffsetAndNumCandidates : Z → Z * Z.
Variable CandidatesToVictimsMap : list (option candidate) → gmap string Victims.
Variable OrderedScoreFuncs : gmap string Victims → list (string → option Z).
Variable GetEarliestPodStartTime : Victims → option Time.

Lemma map_fold_insert_union (m1 m2 : gmap string Status) :
  map_fold (λ node nodeStatus acc, <[ node := nodeStatus ]> acc) m2 m1
  = m1 ∪ m2.
Proof.
  apply (map_fold_weak_ind (λ r m, r = m ∪ m2)).
  - by rewrite (left_id_L ∅ (∪)).
  - intros i x m r _ ->. by rewrite insert_union_l.
Qed.

(** X27.  With nodes listed and budgets at hand, and an offset and a
    number of candidates in range, [findCandidates] returns; each candidate
    is what the plugin proposed for a node that is not marked
    [UnschedulableAndUnresolvable]; every marked node is reported as not
    helped by preemption; and the nomination of the pod is cleared exactly
    when there are nodes and all of them are marked. *)
Theorem findCandidates_skips_unresolvable_nodes
  (par : Parallelizer) (allNodes : list NodeInfo)
  (pdbLister : option (option (list PodDisruptionBudget)))
  (pdbs : list PodDisruptionBudget)
  (pod : Pod) (m : gmap string Status) (cleared : list Pod) :
  let potentialNodes := filter (λ n, ¬ unresolvable m n) allNodes in
  let n := Z.of_nat (length potentialNodes) in
  getPodDisruptionBudgets PodDisruptionBudget pdbLister = inl pdbs →
  Z.of_nat (length allNodes) ≤ MaxInt32 →
  0 ≤ (GetOffsetAndNumCandidates n).1 →
  0 ≤ (GetOffsetAndNumCandidates n).2 ≤ MaxInt32 →
  validSchedule par (length potentialNodes) →
  ∃ candidates statuses err cleared',
    findCandidates PodDisruptionBudget SelectVictimsOnNode
                   GetOffsetAndNumCandidates par (Some allNodes) pdbLister
                   pod m cleared
    = Some (candidates, statuses, err, cleared')
    ∧ (∀ c, c ∈ candidates →
         ∃ c', c = Some c'
               ∧ proposal (SelectVictimsOnNode pdbs) pod potentialNodes c')
    ∧ (allNodes ≠ [] →
       ∀ nodeInfo, nodeInfo ∈ allNodes → unresolvable m nodeInfo →
         statuses !! NodeName (InfoNode nodeInfo) = Some notHelpful)
    ∧ (cleared' = cleared ++ [pod] ∨ cleared' = cleared)
    ∧ (cleared' = cleared ++ [pod] ↔ allNodes ≠ [] ∧ potentialNodes = []).
Proof.
  intros potentialNodes n Hpdb Hlen Hoff Hnum Hvalid. unfold findCandidates.
  destruct (Z.eqb_spec (Z.of_nat (length allNodes)) 0) as [Hz|Hnz].
  { destruct allNodes; [|simpl in Hz; lia].
    eexists _, _, _, _. split; [done|].
    split; [by intros c Hc%elem_of_nil|]. split; [done|].
    split; [by right|]. split; [|by intros [? _]].
    intros H. apply (f_equal length) in H. rewrite length_app in H.
    simpl in H. lia. }
  assert (Hne : allNodes ≠ []) by (intros ->; simpl in Hnz; lia).
  destruct (nodesWherePreemptionMightHelp allNodes m) as [ps ss] eqn:E.
  apply nodesWherePreemptionMightHelp_spec in E as [Eps Hss].
  fold potentialNodes in Eps. subst ps.
  assert (Hmarked : ∀ nodeInfo, nodeInfo ∈ allNodes → unresolvable m nodeInfo →
                      ss !! NodeName (InfoNode nodeInfo) = Some notHelpful).
  { intros ni Hni Hu. apply Hss. split; [done|]. by exists ni. }
  assert (Hneq : ∀ l : list Pod, l ++ [pod] ≠ l).
  { intros l H. apply (f_equal length) in H. rewrite length_app in H.
    simpl in H. lia. }
  destruct (Z.eqb_spec (Z.of_nat (length potentialNodes)) 0) as [Hpz|Hpnz].
  { eexists _, _, _, _. split; [done|].
    split; [by intros c Hc%elem_of_nil|]. split; [by intros _|].
    split; [by left|]. split; [|done]. intros _. split; [done|].
    destruct potentialNodes; [done|simpl in Hpz; lia]. }
  rewrite Hpdb.
  assert (Hplen : Z.of_nat (length potentialNodes) ≤ MaxInt32).
  { pose proof (length_filter (λ n, ¬ unresolvable m n) allNodes).
    fold potentialNodes in H. lia. }
  rewrite wrap32_small by (unfold MaxInt32 in *; lia). fold n.
  destruct (GetOffsetAndNumCandidates n) as [offset numCandidates].
  simpl in Hoff, Hnum.
  destruct (DryRunPreemption_inv (SelectVictimsOnNode pdbs) numCandidates Hnum
              pod potentialNodes offset Hoff par Hplen Hvalid)
    as (st' & done & cs1 & cs2 & Hinv & _ & _ & _ & ->).
  simpl. eexists _, _, _, _. split; [done|].
  destruct Hinv as (_ & _ & Hc1 & Hc2 & _).
  split; [|split; [|split; [by right|]]].
  - intros c Hc. rewrite Forall_forall in Hc1, Hc2.
    apply elem_of_app in Hc as [Hc|Hc];
      apply list_elem_of_fmap in Hc as (c' & -> & Hc'%elem_of_take);
      destruct Hc' as (i & Hi%list_elem_of_lookup_2 & _);
      exists c'; (split; [done|]).
    + by destruct (Hc1 _ Hi).
    + by destruct (Hc2 _ Hi).
  - intros _ ni Hni Hu. rewrite map_fold_insert_union.
    apply lookup_union_Some_l. by apply Hmarked.
  - split; [intros H; symmetry in H; by apply Hneq in H|].
    intros [_ H]. rewrite H in Hpnz. done.
Qed.

Lemma SelectCandidate_cases keys candidates r :
  (2 ≤ length candidates)%nat →
  iterationOrder keys (CandidatesToVictimsMap candidates) →
  CandidatesToVictimsMap candidates ≠ ∅ →
  SelectCandidate CandidatesToVictimsMap OrderedScoreFuncs
                  GetEarliestPodStartTime keys candidates = Some r →
  ∃ c, r = Some c
       ∧ CandidatesToVictimsMap candidates !! name c = Some (victims c)
       ∧ pickOneNodeForPreemption GetEarliestPodStartTime keys
           (CandidatesToVictimsMap candidates)
           (OrderedScoreFuncs (CandidatesToVictimsMap candidates))
         = Some (name c).
Proof.
  intros Hlen Hkeys Hne. unfold SelectCandidate.
  destruct (Z.eqb_spec (Z.of_nat (length candidates)) 0); [lia|].
  destruct (Z.eqb_spec (Z.of_nat (length candidates)) 1); [lia|].
  set (vm := CandidatesToVictimsMap candidates) in *.
  destruct (pickOneNodeForPreemption _ keys vm _) as [node|] eqn:Epick;
    [|done].
  simpl.
  assert (Hin : node ∈ keys).
  { unfold pickOneNodeForPreemption in Epick.
    destruct (Z.eqb_spec (Z.of_nat (size vm)) 0) as [Hz|_].
    { destruct Hne. apply map_size_empty_iff. lia. }
    by apply pickAmong_prefers in Epick as [? _]. }
  unfold iterationOrder in Hkeys. rewrite Hkeys in Hin.
  apply list_elem_of_fmap in Hin as ([k v] & -> & Hkv%elem_of_map_to_list).
  simpl in *. rewrite Hkv. intros [= <-]. by eexists.
Qed.

(** X28.  Among two or more candidates with a victims map that is
    not empty, a returning [SelectCandidate] returns no nil candidate: it
    returns a key of the map with the victims the map has for it, and no
    other key comes before it in the lexicographic order of the scores. *)
Theorem SelectCandidate_takes_the_scorer_s_node keys candidates r :
  (2 ≤ length candidates)%nat →
  iterationOrder keys (CandidatesToVictimsMap candidates) →
  CandidatesToVictimsMap candidates ≠ ∅ →
  SelectCandidate CandidatesToVictimsMap OrderedScoreFuncs
                  GetEarliestPodStartTime keys candidates = Some r →
  ∃ c, r = Some c
       ∧ CandidatesToVictimsMap candidates !! name c = Some (victims c)
       ∧ ∀ x, x ∈ keys → x ≠ name c →
           prefers (scoreFuncsUsed GetEarliestPodStartTime
                      (CandidatesToVictimsMap candidates)
                      (OrderedScoreFuncs (CandidatesToVictimsMap candidates)))
                   (name c) x.
Proof.
  intros Hlen Hkeys Hne Hsel.
  destruct (SelectCandidate_cases keys candidates r Hlen Hkeys Hne Hsel)
    as (c & -> & Hvm & Hpick).
  exists c. do 2 (split; [done|]).
  unfold pickOneNodeForPreemption in Hpick.
  destruct (Z.eqb_spec (Z.of_nat (size (CandidatesToVictimsMap candidates))) 0)
    as [Hz|_].
  { destruct Hne. apply map_size_empty_iff. lia. }
  by apply pickAmong_prefers in Hpick as [_ ?].
Qed.
End WithPlugin.
End EvaluatorFacts.

(** ** The further properties on the worked scenarios *)

Lemma clusterWithJob_wellNamed : clusterWellNamed Scenarios.clusterWithJob.
Proof.
  intros pod (nodes & node & pods & _ & _ & Hp & Hin & _).
  injection Hp as <-. apply list_elem_of_singleton in Hin as ->.
  left. reflexivity.
Qed.

(** The plugin as built, and a plugin given the cluster in which the
    launcher of [job] is on a node. *)
Lemma isMPIJobInNode_needs_client_finds_listed_pod_witness :
  QueueSort.isMPIJobInNode QueueSort.New "job" = None
  ∧ ∃ b, QueueSort.isMPIJobInNode
           {| QueueSort.client := Some Scenarios.clusterWithJob |} "job"
         = Some b
         ∧ (b = true
            ↔ ∃ pod, listed Scenarios.clusterWithJob pod
                     ∧ QueueSort.checkMPIJob (Name pod) = Some ("job", true)).
Proof.
  split.
  - apply (isMPIJobInNode_needs_client_finds_listed_pod QueueSort.New "job").
    reflexivity.
  - apply (isMPIJobInNode_needs_client_finds_listed_pod
             {| QueueSort.client := Some Scenarios.clusterWithJob |} "job").
    + reflexivity.
    + exact clusterWithJob_wellNamed.
Defined.

(** Two workers of two elastic jobs. *)
Lemma Less_as_built_returns_iff_witness :
  ∃ r, QueueSort.Less parseUTC QueueSort.New
         (Scenarios.queued "job-worker-0") (Scenarios.queued "other-worker-0")
       = Some r.
Proof.
  apply (Less_as_built_returns_iff parseUTC
           (Scenarios.queued "job-worker-0")
           (Scenarios.queued "other-worker-0")).
  split; [left; reflexivity|]. split; [left; reflexivity|reflexivity].
Defined.

(** Two workers of two elastic jobs, of one priority and queued at one
    time. *)
Lemma Less_as_built_unordered_iff_same_key_witness :
  QueueSort.incomparable parseUTC QueueSort.New
    (Scenarios.queued "job-worker-0") (Scenarios.queued "other-worker-0").
Proof.
  apply (Less_as_built_unordered_iff_same_key parseUTC
           (Scenarios.queued "job-worker-0")
           (Scenarios.queued "other-worker-0")).
  split; [|split].
  - exists false. vm_compute. reflexivity.
  - reflexivity.
  - reflexivity.
Defined.

(** A retracted pod against a plain one of the same priority. *)
Lemma Less_as_built_agrees_with_upstream_witness :
  let plain :=
    {| QPod := Scenarios.gpuPod "a-0" ∅ 0 0;
       Timestamp := 1704103200000000000 |} in
  let retractedPod :=
    {| QPod := Scenarios.gpuPod "b-0"
                 {[ "retract-check-var" := "2024-01-01T09:58:00Z" ]} 0 0;
       Timestamp := 1704103200000000000 |} in
  true = QueueSortUpstream.Less parseUTC retractedPod plain.
Proof.
  intros plain retractedPod.
  apply (Less_as_built_agrees_with_upstream parseUTC retractedPod plain true).
  vm_compute. reflexivity.
Defined.

Lemma ListRunningMPIJob_lists_each_elastic_job_once_witness :
  NoDup ["resnet-elastic"]
  ∧ ∀ job, job ∈ ["resnet-elastic"]
           ↔ ∃ pod, onNode Scenarios.clusterElastic
                      [Scenarios.gpuNode "n1" 3] pod
                    ∧ elasticPodOf job (Name pod).
Proof.
  apply (ListRunningMPIJob_lists_each_elastic_job_once
           Scenarios.clusterElastic [Scenarios.gpuNode "n1" 3]).
  vm_compute. reflexivity.
Defined.

Lemma request_readings_agree_when_last_container_sets_witness :
  lastSetGpuRequest (Containers Scenarios.preemptor2)
  = lastGpuRequest (Containers Scenarios.preemptor2).
Proof.
  apply (request_readings_agree_when_last_container_sets
           (Containers Scenarios.preemptor2)).
  intros c Hc. injection Hc as <-. eexists. reflexivity.
Defined.

(** [tensorflow-mnist-elastic], two workers and no annotation, scaled up
    and down by one. *)
Lemma MPIJobScaling_up_then_down_keeps_annotation_witness :
  let w' :=
    (MPIJobScaling "my-ns" "tensorflow-mnist-elastic" (- 1)
       (MPIJobScaling "my-ns" "tensorflow-mnist-elastic" 1
                      Scenarios.worldElastic).2).2 in
  mpijobs w' !! ("my-ns", "tensorflow-mnist-elastic")
  = Some {| replicas := Some 2;
            annotations :=
              Some (<[ "scale-out" :=
                         annotation
                           (default ∅ (annotations Scenarios.mnistJob))
                           "scale-out" +:+ Itoa 1 ]>
                      (default ∅ (annotations Scenarios.mnistJob))) |}
  ∧ (∀ key, key ≠ ("my-ns", "tensorflow-mnist-elastic") →
       mpijobs w' !! key = mpijobs Scenarios.worldElastic !! key)
  ∧ retracted w' = retracted Scenarios.worldElastic.
Proof.
  apply (MPIJobScaling_up_then_down_keeps_annotation
           "my-ns" "tensorflow-mnist-elastic" 1 2 Scenarios.worldElastic
           Scenarios.mnistJob).
  - vm_compute. reflexivity.
  - reflexivity.
  - vm_compute. split; discriminate.
  - lia.
Defined.

(** No pod and no job to reclaim from. *)
Lemma Retrieve_failure_changes_nothing_witness :
  EmptyString = EmptyString
  ∧ (false = false → Scenarios.emptyWorld = Scenarios.emptyWorld).
Proof.
  apply (Retrieve_failure_changes_nothing parseUTC Scenarios.clusterIdle
           Scenarios.preemptor2 scalableModelData [Scenarios.gpuNode "n1" 1]
           1 2 [] Scenarios.emptyWorld Scenarios.emptyWorld false "").
  vm_compute. reflexivity.
Defined.

(** The two backfilled pods of [clusterXY] against a deficit of one. *)
Lemma Retrieve_succeeds_iff_candidates_cover_witness :
  ∃ scaleOutMPIJobs candidates,
    (gatherScaleOut [] Scenarios.emptyWorld).1 = Some scaleOutMPIJobs
    ∧ buildCandidates scalableModelData
        (gatherBackfilled parseUTC Scenarios.clusterXY Scenarios.preemptor2
                          [Scenarios.gpuNode "n1" 4]) scaleOutMPIJobs
      = Some candidates
    ∧ (true = true
       ↔ candidates ≠ [] ∧ 2 - 1 ≤ Z.max 0 (sumGpus candidates)).
Proof.
  apply (Retrieve_succeeds_iff_candidates_cover parseUTC Scenarios.clusterXY
           Scenarios.preemptor2 scalableModelData [Scenarios.gpuNode "n1" 4]
           1 2 [] Scenarios.emptyWorld)
    with (s := EmptyString)
         (w' := {| mpijobs := ∅; retracted := [Scenarios.podY] |}).
  - vm_compute. split; discriminate.
  - repeat constructor; vm_compute; discriminate.
  - intros n job Hn. by apply elem_of_nil in Hn.
  - vm_compute. reflexivity.
Defined.

Lemma Retrieve_acts_on_shortest_covering_prefix_witness :
  ∃ scaleOutMPIJobs candidates init last rest,
    (gatherScaleOut [] Scenarios.emptyWorld).1 = Some scaleOutMPIJobs
    ∧ buildCandidates scalableModelData
        (gatherBackfilled parseUTC Scenarios.clusterXY Scenarios.preemptor2
                          [Scenarios.gpuNode "n1" 4]) scaleOutMPIJobs
      = Some candidates
    ∧ sortCandidates candidates = init ++ last :: rest
    ∧ actAll (gatherBackfilled parseUTC Scenarios.clusterXY
                Scenarios.preemptor2 [Scenarios.gpuNode "n1" 4])
             (init ++ [last]) Scenarios.emptyWorld
      = (Some tt, {| mpijobs := ∅; retracted := [Scenarios.podY] |})
    ∧ (init ≠ [] → sumGpus init < 2 - 1)
    ∧ (2 ≤ 1 → init = []).
Proof.
  apply (Retrieve_acts_on_shortest_covering_prefix parseUTC Scenarios.clusterXY
           Scenarios.preemptor2 scalableModelData [Scenarios.gpuNode "n1" 4]
           1 2 [] Scenarios.emptyWorld)
    with (s := EmptyString).
  - vm_compute. split; discriminate.
  - repeat constructor; vm_compute; discriminate.
  - intros n job Hn. by apply elem_of_nil in Hn.
  - vm_compute. reflexivity.
Defined.

(** The scale-down of C1: [resnet-elastic], whose candidate was applied,
    is as it was. *)
Lemma Retrieve_changes_no_other_job_witness :
  mpijobs (Retrieve parseUTC Scenarios.clusterElastic Scenarios.preemptor1
                    scalableModelData [Scenarios.gpuNode "n1" 3] 0 1
                    ["resnet-elastic"] Scenarios.worldElastic).2
    !! ("my-ns", "resnet-elastic")
  = mpijobs Scenarios.worldElastic !! ("my-ns", "resnet-elastic").
Proof.
  apply (Retrieve_changes_no_other_job parseUTC Scenarios.clusterElastic
           Scenarios.preemptor1 scalableModelData [Scenarios.gpuNode "n1" 3]
           0 1 ["resnet-elastic"] Scenarios.worldElastic
           ("my-ns", "resnet-elastic")).
  discriminate.
Defined.

(** A backfilled pod of the model [bert], which the table does not
    have. *)
Lemma Retrieve_panics_on_unknown_model_or_request_witness :
  Retrieve parseUTC Cases.clusterUnknown Scenarios.preemptor2
           scalableModelData [Scenarios.gpuNode "n1" 4] 3 2 []
           Scenarios.emptyWorld
  = (None, Scenarios.emptyWorld).
Proof.
  apply (Retrieve_panics_on_unknown_model_or_request parseUTC
           Cases.clusterUnknown Scenarios.preemptor2 scalableModelData
           [Scenarios.gpuNode "n1" 4] 3 2 [] Scenarios.emptyWorld
           Cases.podUnknown).
  - vm_compute. left.
  - right. vm_compute. discriminate.
Defined.

Lemma Dynamic_never_nominates_witness :
  NominatedNodeName (NewPostFilterResultWithNominatedNode "") = EmptyString
  ∧ (code (NewStatus Success []) = Success
     ∨ code (NewStatus Success []) = Unschedulable).
Proof.
  destruct (Dynamic_never_nominates parseUTC Scenarios.clusterXY
              Scenarios.preemptor2 Scenarios.emptyWorld
              {| mpijobs := ∅; retracted := [Scenarios.podY] |}
              (NewPostFilterResultWithNominatedNode "")
              (NewStatus Success []))
    as (Hname & Hcode & _).
  - vm_compute. reflexivity.
  - split; [exact Hname|exact Hcode].
Defined.

(** Four GPUs asked, three idle, nothing to reclaim: [mnist-elastic]
    gets a second worker. *)
Lemma Dynamic_scales_out_at_most_one_job_witness :
  ∃ w',
    (Dynamic parseUTC Cases.clusterGrowing Cases.preemptor4
             Cases.worldGrowing).2 = w'
    ∧ (w' = Cases.worldGrowing
       ∨ scaledOutOne Cases.clusterGrowing Cases.worldGrowing w').
Proof.
  eexists. split; [reflexivity|].
  apply (Dynamic_scales_out_at_most_one_job parseUTC Cases.clusterGrowing
           Cases.preemptor4 Cases.worldGrowing _
           (NewPostFilterResultWithNominatedNode "")
           (NewStatus Unschedulable ["Scale-Out MPIJob"])).
  - vm_compute. reflexivity.
  - reflexivity.
Defined.

(** Two candidates added to a list of capacity one. *)
Lemma candidateList_keeps_the_first_added_witness :
  ∃ cl0 cl,
    newCandidateList 1 = Some cl0
    ∧ addAll cl0 [Cases.candidateOn "n1"; Cases.candidateOn "n2"] = Some cl
    ∧ candidateList_size cl = 2 `min` 1
    ∧ candidateList_get cl = Some [Some (Cases.candidateOn "n1")].
Proof.
  apply (candidateList_keeps_the_first_added 1%nat).
  - vm_compute. discriminate.
  - vm_compute. discriminate.
Defined.

Lemma DryRunPreemption_returns_plugin_proposals_witness :
  let potentialNodes :=
    [Scenarios.nodeInfo "n1"; Scenarios.nodeInfo "n2";
     Scenarios.nodeInfo "n3"] in
  ∃ cleanOnes violatingOnes statuses errors,
    DryRunPreemption Scenarios.selectOneVictim (Interleaved [2; 0; 1]%nat)
                     Scenarios.preemptor1 potentialNodes 1 1
    = Some ((Some <$> cleanOnes) ++ (Some <$> violatingOnes),
            statuses, errors)
    ∧ Forall (clean Scenarios.selectOneVictim Scenarios.preemptor1
                    potentialNodes) cleanOnes
    ∧ Forall (violating Scenarios.selectOneVictim Scenarios.preemptor1
                        potentialNodes) violatingOnes
    ∧ (NoDup (NodeName ∘ InfoNode <$> potentialNodes) →
       NoDup (name <$> cleanOnes ++ violatingOnes)).
Proof.
  apply (DryRunPreemption_returns_plugin_proposals Scenarios.selectOneVictim 1).
  - vm_compute. split; discriminate.
  - lia.
  - vm_compute. discriminate.
  - split; [|repeat constructor].
    apply (bool_decide_unpack (NoDup [2; 0; 1]%nat)). vm_compute. exact I.
Defined.

(** [n1] is refused, [n2] has no victim, [n3] yields a candidate. *)
Lemma DryRunPreemption_reports_only_failures_witness :
  let potentialNodes :=
    [Scenarios.nodeInfo "n1"; Scenarios.nodeInfo "n2";
     Scenarios.nodeInfo "n3"] in
  ∃ candidates statuses errors,
    DryRunPreemption Cases.selectOrFail Sequential Scenarios.preemptor1
                     potentialNodes 0 2
    = Some (candidates, statuses, errors)
    ∧ is_Some (statuses !! "n1") ∧ is_Some (statuses !! "n2")
    ∧ (∀ node status, statuses !! node = Some status →
         failure Cases.selectOrFail Scenarios.preemptor1 potentialNodes
                 node status)
    ∧ Forall (λ s, code s = Error) errors.
Proof.
  eexists _, _, _. split; [vm_compute; reflexivity|].
  split; [by eexists|]. split; [by eexists|].
  apply (DryRunPreemption_reports_only_failures Cases.selectOrFail 2
           ltac:(vm_compute; split; discriminate) Scenarios.preemptor1
           [Scenarios.nodeInfo "n1"; Scenarios.nodeInfo "n2";
            Scenarios.nodeInfo "n3"] 0 ltac:(lia) Sequential
           [Some (Cases.candidateOn "n3")]).
  - vm_compute. discriminate.
  - exact I.
  - vm_compute. reflexivity.
Defined.

(** A cap of one, a violating candidate first: one past the cap. *)
Lemma DryRunPreemption_one_worker_at_most_cap_plus_one_witness :
  ∃ candidates statuses errors,
    DryRunPreemption Scenarios.selectOneVictim Sequential Scenarios.preemptor1
                     [Scenarios.nodeInfo "n1"; Scenarios.nodeInfo "n2"] 0 1
    = Some (candidates, statuses, errors)
    ∧ length candidates = 2%nat
    ∧ Z.of_nat (length candidates) ≤ 1 + 1.
Proof.
  eexists _, _, _. split; [vm_compute; reflexivity|]. split; [reflexivity|].
  apply (DryRunPreemption_one_worker_at_most_cap_plus_one
           Scenarios.selectOneVictim 1
           ltac:(vm_compute; split; discriminate) Scenarios.preemptor1
           [Scenarios.nodeInfo "n1"; Scenarios.nodeInfo "n2"] 0 ltac:(lia)
           _ ∅ []).
  - vm_compute. discriminate.
  - vm_compute. discriminate.
  - vm_compute. reflexivity.
Defined.

(** [n1] is refused, [n2] has no victim, [n3] yields a candidate: two
    statuses and one candidate. *)
Lemma DryRunPreemption_accounts_for_every_node_witness :
  let potentialNodes :=
    [Scenarios.nodeInfo "n1"; Scenarios.nodeInfo "n2";
     Scenarios.nodeInfo "n3"] in
  ∃ candidates statuses errors,
    DryRunPreemption Cases.selectOrFail (Interleaved [2; 0; 1]%nat)
                     Scenarios.preemptor1 potentialNodes 1 3
    = Some (candidates, statuses, errors)
    ∧ ∀ nodeInfo, nodeInfo ∈ potentialNodes →
        (∃ c, Some c ∈ candidates ∧ name c = NodeName (InfoNode nodeInfo))
        ∨ is_Some (statuses !! NodeName (InfoNode nodeInfo)).
Proof.
  apply (DryRunPreemption_accounts_for_every_node Cases.selectOrFail 3).
  - vm_compute. split; discriminate.
  - lia.
  - vm_compute. discriminate.
  - simpl. etrans; [apply Permutation_swap|].
    apply Permutation_skip, Permutation_swap.
Defined.

Lemma twoAlike_nonempty : Scenarios.twoAlike ≠ ∅.
Proof.
  intros H. apply (f_equal (λ m : gmap string Victims, m !! "n1")) in H.
  vm_compute in H. discriminate.
Qed.

Lemma twoAlike_keys : iterationOrder ["n1"; "n2"] Scenarios.twoAlike.
Proof.
  unfold iterationOrder.
  replace ((map_to_list Scenarios.twoAlike).*1) with ["n1"; "n2"]
    by (vm_compute; reflexivity).
  reflexivity.
Qed.

Lemma pickOneNodeForPreemption_picks_first_by_scores_witness :
  "n1" ∈ ["n1"; "n2"]
  ∧ ∀ x, x ∈ ["n1"; "n2"] → x ≠ "n1" →
      prefers (scoreFuncsUsed Scenarios.startedTogether Scenarios.twoAlike [])
              "n1" x.
Proof.
  apply (pickOneNodeForPreemption_picks_first_by_scores
           Scenarios.startedTogether ["n1"; "n2"] Scenarios.twoAlike [] "n1").
  - exact twoAlike_nonempty.
  - vm_compute. reflexivity.
Defined.

Lemma pickOneNodeForPreemption_default_fewest_violations_witness :
  ∃ r v,
    pickOneNodeForPreemption Scenarios.startedTogether ["n1"; "n2"]
                             Scenarios.twoAlike [] = Some r
    ∧ Scenarios.twoAlike !! r = Some v
    ∧ ∀ x vx, Scenarios.twoAlike !! x = Some vx →
        NumPDBViolations v ≤ NumPDBViolations vx.
Proof.
  apply (pickOneNodeForPreemption_default_fewest_violations
           Scenarios.startedTogether ["n1"; "n2"] Scenarios.twoAlike).
  - exact twoAlike_keys.
  - exact twoAlike_nonempty.
  - apply map_Forall_insert_2; [|apply map_Forall_singleton];
      (split; [discriminate|]);
      (split; [repeat constructor; vm_compute; discriminate|]);
      (split; [vm_compute; discriminate|]);
      (split; [vm_compute; reflexivity|vm_compute; discriminate]).
Defined.

(** [n1] is marked, [n2] is not: the dry run looks at [n2] alone, and
    [n1] is reported. *)
Lemma findCandidates_skips_unresolvable_nodes_witness :
  let allNodes := [Scenarios.nodeInfo "n1"; Scenarios.nodeInfo "n2"] in
  let m : gmap string Status :=
    {[ "n1" := NewStatus UnschedulableAndUnresolvable [] ]} in
  ∃ candidates statuses err cleared',
    Evaluator.findCandidates unit (λ _, Scenarios.selectOneVictim)
      (λ n, (0, n)) Sequential (Some allNodes) None Scenarios.preemptor1 m []
    = Some (candidates, statuses, err, cleared')
    ∧ candidates = [Some (Cases.candidateOn "n2")]
    ∧ statuses !! "n1" = Some notHelpful
    ∧ cleared' = [].
Proof.
  intros allNodes m.
  destruct (findCandidates_skips_unresolvable_nodes unit
              (λ _, Scenarios.selectOneVictim) (λ n, (0, n)) Sequential
              allNodes None [] Scenarios.preemptor1 m [])
    as (candidates & statuses & err & cleared' & Hrun & _ & Hmarked & _).
  - reflexivity.
  - vm_compute. discriminate.
  - vm_compute. discriminate.
  - vm_compute. split; discriminate.
  - exact I.
  - exists candidates, statuses, err, cleared'. split; [exact Hrun|].
    assert (E : Evaluator.findCandidates unit (λ _, Scenarios.selectOneVictim)
                  (λ n, (0, n)) Sequential (Some allNodes) None
                  Scenarios.preemptor1 m []
                = Some ([Some (Cases.candidateOn "n2")],
                        {[ "n1" := notHelpful ]}, None, []))
      by (vm_compute; reflexivity).
    rewrite E in Hrun. injection Hrun as <- <- <- <-.
    split; [reflexivity|]. split; [|reflexivity].
    apply (Hmarked ltac:(discriminate) (Scenarios.nodeInfo "n1"));
      [left|vm_compute; reflexivity].
Defined.

Lemma victimsByName_keys :
  iterationOrder ["n1"; "n2"]
    (Cases.victimsByName [Some (Cases.candidateOn "n1");
                          Some (Cases.candidateOn "n2")]).
Proof.
  unfold iterationOrder.
  replace ((map_to_list (Cases.victimsByName _)).*1) with ["n1"; "n2"]
    by (vm_compute; reflexivity).
  reflexivity.
Qed.

Lemma SelectCandidate_takes_the_scorer_s_node_witness :
  let candidates :=
    [Some (Cases.candidateOn "n1"); Some (Cases.candidateOn "n2")] in
  ∃ c, Some (Cases.candidateOn "n1") = Some c
       ∧ Cases.victimsByName candidates !! name c = Some (victims c)
       ∧ ∀ x, x ∈ ["n1"; "n2"] → x ≠ name c →
           prefers (scoreFuncsUsed Scenarios.startedTogether
                      (Cases.victimsByName candidates) [])
                   (name c) x.
Proof.
  apply (SelectCandidate_takes_the_scorer_s_node Cases.victimsByName
           (λ _, []) Scenarios.startedTogether ["n1"; "n2"]
           [Some (Cases.candidateOn "n1"); Some (Cases.candidateOn "n2")]
           (Some (Cases.candidateOn "n1"))).
  - simpl. lia.
  - exact victimsByName_keys.
  - intros H. apply (f_equal (λ m : gmap string Victims, m !! "n1")) in H.
    vm_compute in H. discriminate.
  - vm_compute. reflexivity.
Defined.
